(** * Reactor driver: blueprint construction and reactor lifecycle

    A shallow embedding of [src/clustering/administration/reactor_driver.cc]:
    the blueprint construction ([construct_blueprint] with its
    [blueprint_id_translator_t]), the per-table handle
    ([watchable_and_reactor_t]) and the registry ([reactor_driver_t]) with
    its [on_change] reconciliation pass and its background coroutines. *)

From stdpp Require Import base option list gmap sorting strings.

Set Default Proof Using "Type".

(** ** Identities *)

(** [uuid_u]: a 128-bit identifier, compared bytewise, i.e. as a number. *)
Definition uuid_u := N.
Definition server_id_t := uuid_u.
Definition namespace_id_t := uuid_u.
Definition name_string_t := string.

(** [peer_id_t] wraps a uuid ([peer_id_t(generate_uuid())]). *)
Inductive peer_id_t := PeerId (u : uuid_u).

Definition peer_uuid (p : peer_id_t) : uuid_u := match p with PeerId u => u end.

#[global] Instance peer_id_eq_dec : EqDecision peer_id_t.
Proof. solve_decision. Defined.

#[global] Instance peer_id_countable : Countable peer_id_t.
Proof. apply (inj_countable' peer_uuid PeerId). by intros []. Defined.

(** Iteration of a [std::set] / [std::map]: ascending in the key. *)
Definition key_le {A} (key : A → N) : relation A := λ x y, (key x ≤ key y)%N.

#[global] Instance key_le_dec {A} (key : A → N) : RelDecision (key_le key).
Proof. intros x y. unfold key_le. apply _. Defined.

Definition ascending {A} (key : A → N) (l : list A) : list A :=
  merge_sort (key_le key) l.

Definition std_set_iter (s : gset uuid_u) : list uuid_u :=
  ascending id (elements s).

Definition std_map_keys {V} (m : gmap uuid_u V) : list uuid_u :=
  std_set_iter (dom m).

(** [std::map::insert]: the pair is added only when the key is absent. *)
Definition std_map_insert `{Countable K} {V} (k : K) (v : V) (m : gmap K V) : gmap K V :=
  match m !! k with
  | Some _ => m
  | None => <[k := v]> m
  end.

(** A loop [for (size_t i = start; i < ...; ++i)] over a vector, whose body
    may abort. *)
Fixpoint for_each_indexed {A St} (body : nat → A → St → option St)
    (i : nat) (l : list A) (s : St) : option St :=
  match l with
  | [] => Some s
  | x :: l' => s' ← body i x s; for_each_indexed body (S i) l' s'
  end.

(** A range-based [for] whose body may abort. *)
Fixpoint for_each {A St} (body : A → St → option St) (l : list A) (s : St) : option St :=
  match l with
  | [] => Some s
  | x :: l' => s' ← body x s; for_each body l' s'
  end.

(** ** The process-wide effects of a call: uuids drawn, reads of the live
    server-to-peer watchable. *)
Record world_t := World { uuids_drawn : nat; map_reads : nat }.

(** [server_name_client_t], as far as this file uses it.  The
    server-to-peer map is a live watchable: [server_id_to_peer_id_map_at k]
    is the value its [k]-th [get()] delivers. *)
Record server_name_client_t := NameClient {
  server_id_to_peer_id_map_at : nat → gmap server_id_t peer_id_t;
  get_name_for_server_id : server_id_t → option name_string_t
}.

Definition get_server_id_to_peer_id_map (nc : server_name_client_t) (w : world_t)
    : gmap server_id_t peer_id_t * world_t :=
  (server_id_to_peer_id_map_at nc (map_reads w),
   {| uuids_drawn := uuids_drawn w; map_reads := S (map_reads w) |}).

Inductive blueprint_role_t :=
  | blueprint_role_primary
  | blueprint_role_secondary
  | blueprint_role_nothing.

#[global] Instance blueprint_role_eq_dec : EqDecision blueprint_role_t.
Proof. solve_decision. Defined.

Section blueprint.
(** Key ranges and regions are declared outside this file; only equality
    of regions (as map keys) is used here. *)
Context {key_range_t region_t : Type} `{Countable region_t}.

(** *** Configuration *)

Record shard_t := Shard {
  replicas : gset server_id_t;
  director : server_id_t
}.

Record table_config_t := TableConfig { shards : list shard_t }.

(** Modelled from the spec: [table_shard_scheme_t] is declared in
    metadata.hpp, which is not part of this file.  "A fixed, ordered
    shard-partitioning scheme; shard index to range is a pure function of
    the scheme": the ordered list of the shards' key ranges. *)
Record table_shard_scheme_t := ShardScheme { shard_ranges : list key_range_t }.

Definition num_shards (s : table_shard_scheme_t) : nat := length (shard_ranges s).

(** Asking for a shard the scheme does not have is fatal. *)
Definition get_shard_range (s : table_shard_scheme_t) (i : nat) : option key_range_t :=
  shard_ranges s !! i.

Record table_replication_info_t := ReplicationInfo {
  config : table_config_t;
  shard_scheme : table_shard_scheme_t
}.

(** *** Blueprints *)

Record blueprint_t := Blueprint {
  peers_roles : gmap peer_id_t (gmap region_t blueprint_role_t)
}.

#[global] Instance blueprint_eq_dec : EqDecision blueprint_t.
Proof. solve_decision. Defined.

Definition role_of (bp : blueprint_t) (p : peer_id_t) (r : region_t)
    : option blueprint_role_t :=
  peers_roles bp !! p ≫= (.!! r).

(** Modelled from the spec: [blueprint_t::add_peer] is defined in
    blueprint.cc, which is not part of this file.  "Register the peer in
    the blueprint if not already present": registering a peer that is
    present is a fault. *)
Definition add_peer (id : peer_id_t) (bp : blueprint_t) : option blueprint_t :=
  match peers_roles bp !! id with
  | None => Some {| peers_roles := <[id := ∅]> (peers_roles bp) |}
  | Some _ => None
  end.

(** Modelled from the spec: [blueprint_t::add_role] is defined in
    blueprint.cc, which is not part of this file.  "Record that peer as
    [role] for the shard's range": the peer must be registered, and the
    pair goes into the peer's [std::map] by [insert], which leaves a role
    that is already recorded as it is. *)
Definition add_role (id : peer_id_t) (region : region_t) (role : blueprint_role_t)
    (bp : blueprint_t) : option blueprint_t :=
  roles ← peers_roles bp !! id;
  Some {| peers_roles := <[id := std_map_insert region role roles]> (peers_roles bp) |}.

(** The two invariants of a blueprint that the blueprint alone decides. *)
Definition full_coverage (m : gmap peer_id_t (gmap region_t blueprint_role_t)) : Prop :=
  map_Forall (λ _ roles1, map_Forall (λ _ roles2, dom roles1 = dom roles2) m) m.

Definition single_primary (m : gmap peer_id_t (gmap region_t blueprint_role_t)) : Prop :=
  map_Forall (λ p1 roles1,
    map_Forall (λ p2 roles2,
      map_Forall (λ region role,
        role = blueprint_role_primary →
        roles2 !! region = Some blueprint_role_primary → p1 = p2) roles1) m) m.

(** Modelled from the spec: [blueprint_t::guarantee_valid] is defined in
    blueprint.cc, which is not part of this file.  "Validate the
    invariants; a violation here is fatal": every peer covers the same
    ranges, and no range has two primaries. *)
Definition guarantee_valid (bp : blueprint_t) : option unit :=
  if decide (full_coverage (peers_roles bp) ∧ single_primary (peers_roles bp))
  then Some () else None.

Record blueprint_id_translator_t := Translator {
  server_id_to_peer_id_map : gmap server_id_t peer_id_t
}.

(** The locals of one call of [construct_blueprint], and the world it
    runs in. *)
Record builder_t := Builder {
  trans : blueprint_id_translator_t;
  blueprint : blueprint_t;
  world : world_t
}.

End blueprint.

Section construct_blueprint.
Context {key_range_t region_t : Type} `{Countable region_t}.
(** [hash_region_t<key_range_t>(range)] *)
Context (hash_region_t : key_range_t → region_t).
(** [generate_uuid()]: the [k]-th uuid the process draws. *)
Context (uuid_source : nat → uuid_u).

Abbreviation blueprint_t := (blueprint_t (region_t := region_t)).
Abbreviation builder_t := (builder_t (region_t := region_t)).
Abbreviation table_replication_info_t :=
  (table_replication_info_t (key_range_t := key_range_t)).

Definition generate_uuid (w : world_t) : uuid_u * world_t :=
  (uuid_source (uuids_drawn w),
   {| uuids_drawn := S (uuids_drawn w); map_reads := map_reads w |}).

(** *** [blueprint_id_translator_t] *)

Definition blueprint_id_translator_new (nc : server_name_client_t) (w : world_t)
    : blueprint_id_translator_t * world_t :=
  let '(m, w') := get_server_id_to_peer_id_map nc w in
  ({| server_id_to_peer_id_map := m |}, w').

Definition server_id_to_peer_id (server_id : server_id_t)
    (t : blueprint_id_translator_t) (w : world_t)
    : peer_id_t * blueprint_id_translator_t * world_t :=
  match server_id_to_peer_id_map t !! server_id with
  | Some peer => (peer, t, w)
  | None =>
      let '(u, w') := generate_uuid w in
      (PeerId u,
       {| server_id_to_peer_id_map := <[server_id := PeerId u]> (server_id_to_peer_id_map t) |},
       w')
  end.

(** *** [construct_blueprint] *)

(** [if (blueprint.peers_roles.count(peer) == 0) blueprint.add_peer(peer);] *)
Definition add_peer_if_new (peer : peer_id_t) (bp : blueprint_t) : option blueprint_t :=
  match peers_roles bp !! peer with
  | None => add_peer peer bp
  | Some _ => Some bp
  end.

Definition shard_region (info : table_replication_info_t) (i : nat) : option region_t :=
  hash_region_t <$> get_shard_range (shard_scheme info) i.

(** Body of the loop "Put the primaries in the blueprint". *)
Definition put_primary (nc : server_name_client_t) (info : table_replication_info_t)
    (i : nat) (shard : shard_t) (b : builder_t) : option builder_t :=
  let '(peer, t, w) :=
    match get_name_for_server_id nc (director shard) with
    | None => let '(u, w') := generate_uuid (world b) in (PeerId u, trans b, w')
    | Some _ => server_id_to_peer_id (director shard) (trans b) (world b)
    end in
  bp ← add_peer_if_new peer (blueprint b);
  region ← shard_region info i;
  bp' ← add_role peer region blueprint_role_primary bp;
  Some {| trans := t; blueprint := bp'; world := w |}.

(** Body of the inner loop of "Put the secondaries in the blueprint". *)
Definition put_secondary (nc : server_name_client_t) (info : table_replication_info_t)
    (i : nat) (shard : shard_t) (server : server_id_t) (b : builder_t)
    : option builder_t :=
  match get_name_for_server_id nc server with
  | None => Some b
  | Some _ =>
      let '(peer, t, w) := server_id_to_peer_id server (trans b) (world b) in
      bp ← add_peer_if_new peer (blueprint b);
      bp' ← (if decide (server ≠ director shard)
             then region ← shard_region info i;
                  add_role peer region blueprint_role_secondary bp
             else Some bp);
      Some {| trans := t; blueprint := bp'; world := w |}
  end.

Definition put_secondaries (nc : server_name_client_t) (info : table_replication_info_t)
    (i : nat) (shard : shard_t) (b : builder_t) : option builder_t :=
  for_each (put_secondary nc info i shard) (std_set_iter (replicas shard)) b.

(** Body of the loop "every known peer appears in the blueprint". *)
Definition put_known_peer (server : server_id_t) (b : builder_t) : option builder_t :=
  let '(peer, t, w) := server_id_to_peer_id server (trans b) (world b) in
  bp ← add_peer_if_new peer (blueprint b);
  Some {| trans := t; blueprint := bp; world := w |}.

(** Body of the inner loop of "make it nothing". *)
Definition put_nothing (region : region_t) (peer : peer_id_t) (bp : blueprint_t)
    : option blueprint_t :=
  match peers_roles bp !! peer with
  | Some roles =>
      match roles !! region with
      | None => add_role peer region blueprint_role_nothing bp
      | Some _ => Some bp
      end
  | None => Some bp
  end.

Definition put_nothings (info : table_replication_info_t) (i : nat) (_ : shard_t)
    (bp : blueprint_t) : option blueprint_t :=
  region ← shard_region info i;
  for_each (put_nothing region)
           (ascending peer_uuid (elements (dom (peers_roles bp)))) bp.

(** The call up to, and without, [guarantee_valid]: the final locals. *)
Definition construct_blueprint_locals (info : table_replication_info_t)
    (nc : server_name_client_t) (w : world_t) : option builder_t :=
  let '(t, w1) := blueprint_id_translator_new nc w in
  let b0 := {| trans := t; blueprint := {| peers_roles := ∅ |}; world := w1 |} in
  b1 ← for_each_indexed (put_primary nc info) 0 (shards (config info)) b0;
  b2 ← for_each_indexed (put_secondaries nc info) 0 (shards (config info)) b1;
  let '(m, w3) := get_server_id_to_peer_id_map nc (world b2) in
  b3 ← for_each put_known_peer (std_map_keys m)
         {| trans := trans b2; blueprint := blueprint b2; world := w3 |};
  bp4 ← for_each_indexed (put_nothings info) 0 (shards (config info)) (blueprint b3);
  Some {| trans := trans b3; blueprint := bp4; world := world b3 |}.

Definition construct_blueprint (info : table_replication_info_t)
    (nc : server_name_client_t) (w : world_t) : option (blueprint_t * world_t) :=
  b ← construct_blueprint_locals info nc w;
  _ ← guarantee_valid (blueprint b);
  Some (blueprint b, world b).

End construct_blueprint.


(** ** Observable variables *)

Record watchable_variable_t (A : Type) := Watchable {
  value : A;
  publications : nat   (* how often the subscribers were notified *)
}.
Arguments Watchable {A} _ _.
Arguments value {A} _.
Arguments publications {A} _.

(** Modelled from the spec: [watchable_variable_t::apply_atomic_op] is
    defined in concurrency/watchable.hpp, which is not part of this file.
    "Applied atomically; ... no notification fires; otherwise the observable
    cell is replaced and any party watching it is notified": the operation
    runs on the held value, and the subscribers are notified exactly when it
    reports a change. *)
Definition apply_atomic_op {A} (op : A → bool * A) (w : watchable_variable_t A)
    : watchable_variable_t A :=
  let '(was_modified, v) := op (value w) in
  {| value := v;
     publications := if was_modified then S (publications w) else publications w |}.

Inductive write_durability_t :=
  | write_durability_INVALID
  | write_durability_SOFT
  | write_durability_HARD.

(** A heap-allocated [watchable_and_reactor_t] is named by its address. *)
Definition handle_ptr := nat.

(** What the instrumented collaborators of a handle observe. *)
Inductive event_t :=
  | ev_get_svs (h : handle_ptr)                    (* svs_by_namespace_->get_svs(...) *)
  | ev_reactor_init (h : handle_ptr)               (* reactor_.init(new reactor_t(...)) *)
  | ev_directory_exporter_init (h : handle_ptr)    (* directory_exporter_.init(...) *)
  | ev_initialized_pulse (h : handle_ptr)          (* reactor_has_been_initialized_.pulse() *)
  | ev_directory_exporter_reset (h : handle_ptr)   (* directory_exporter_.reset() *)
  | ev_reactor_reset (h : handle_ptr)              (* reactor_.reset() *)
  | ev_delete_key (h : handle_ptr) (ns : namespace_id_t)  (* watchable_var.delete_key *)
  | ev_members_destroyed (h : handle_ptr)          (* ~svs_, ~stores_lifetimer_, ... *)
  | ev_destroy_svs (h : handle_ptr) (ns : namespace_id_t). (* svs_by_namespace->destroy_svs *)

#[global] Instance event_eq_dec : EqDecision event_t.
Proof. solve_decision. Defined.

(** The next statement of [initialize_reactor]. *)
Inductive init_pc :=
  | init_at_get_svs
  | init_at_reactor
  | init_at_directory_exporter
  | init_at_pulse.

(** The next statement of [delete_reactor_data]; the first five are the
    destructor it runs by [delete thing_to_delete]. *)
Inductive delete_pc :=
  | del_at_wait
  | del_at_directory_exporter
  | del_at_reactor
  | del_at_delete_key
  | del_at_members
  | del_at_destroy_svs.

#[global] Instance init_pc_eq_dec : EqDecision init_pc.
Proof. solve_decision. Defined.

#[global] Instance delete_pc_eq_dec : EqDecision delete_pc.
Proof. solve_decision. Defined.

(** A coroutine spawned by [coro_t::spawn_sometime] that has not finished. *)
Inductive coro_t :=
  | run_initialize_reactor (this : handle_ptr) (pc : init_pc)
  | run_delete_reactor_data (thing_to_delete : handle_ptr)
      (namespace_id : namespace_id_t) (pc : delete_pc).

#[global] Instance coro_eq_dec : EqDecision coro_t.
Proof. solve_decision. Defined.

(** [deletable_t<T>] *)
Inductive deletable_t (A : Type) :=
  | deleted
  | existing (a : A).
Arguments deleted {A}.
Arguments existing {A} _.

Definition is_deleted {A} (d : deletable_t A) : bool :=
  match d with deleted => true | existing _ => false end.

Section reactor_driver.
Context {key_range_t region_t : Type} `{Countable region_t}.

Abbreviation blueprint_t := (blueprint_t (region_t := region_t)).
Abbreviation table_replication_info_t :=
  (table_replication_info_t (key_range_t := key_range_t)).

(** [op_closure_t::apply] *)
Definition op_closure_apply (_bp : blueprint_t) (bp_ref : blueprint_t)
    : bool * blueprint_t :=
  let blueprint_changed := bool_decide (bp_ref ≠ _bp) in
  if blueprint_changed then (blueprint_changed, _bp) else (blueprint_changed, bp_ref).

(** *** [watchable_and_reactor_t] *)

Record watchable_and_reactor_t := Handle {
  watchable : watchable_variable_t blueprint_t;
  reactor_has_been_initialized_ : bool;     (* the cond_t is pulsed *)
  namespace_id_ : namespace_id_t;
  stores_lifetimer_ : bool;                 (* holds the stores *)
  svs_ : bool;                              (* svs_.has() *)
  reactor_ : bool;                          (* reactor_.has() *)
  directory_exporter_ : bool                (* directory_exporter_.has() *)
}.

Definition is_acceptable_ack_set (this : watchable_and_reactor_t)
    (acks : gset peer_id_t) : bool :=
  negb (bool_decide (acks = ∅)).

Definition get_write_durability (this : watchable_and_reactor_t)
    (peer : peer_id_t) : write_durability_t :=
  write_durability_HARD.

(** The constructor, up to the spawn of [initialize_reactor]. *)
Definition new_watchable_and_reactor (namespace_id : namespace_id_t) (bp : blueprint_t)
    : watchable_and_reactor_t :=
  {| watchable := {| value := bp; publications := 0 |};
     reactor_has_been_initialized_ := false;
     namespace_id_ := namespace_id;
     stores_lifetimer_ := false;
     svs_ := false;
     reactor_ := false;
     directory_exporter_ := false |}.

(** *** [reactor_driver_t] *)

Record namespace_semilattice_metadata_t := NamespaceMetadata {
  replication_info : table_replication_info_t
}.

(** What the driver reads from its collaborators when [on_change] runs. *)
Record cluster_view_t := ClusterView {
  namespaces : gmap namespace_id_t (deletable_t namespace_semilattice_metadata_t);
  we_were_permanently_removed : bool;       (* ...->is_pulsed() *)
  server_name_client : server_name_client_t;
  get_me : peer_id_t              (* mbox_manager->get_connectivity_cluster()->get_me() *)
}.

Record reactor_driver_t := Driver {
  reactor_data : gmap namespace_id_t handle_ptr;
  heap : gmap handle_ptr watchable_and_reactor_t;
  next_handle : handle_ptr;                 (* the next address [new] returns *)
  watchable_var : gset namespace_id_t;      (* keys of the registry-wide directory *)
  coros : list coro_t;
  trace : list event_t;                     (* oldest first *)
  driver_world : world_t
}.

Definition set_reactor_data f (d : reactor_driver_t) : reactor_driver_t :=
  {| reactor_data := f (reactor_data d); heap := heap d; next_handle := next_handle d;
     watchable_var := watchable_var d; coros := coros d; trace := trace d;
     driver_world := driver_world d |}.

Definition set_heap f (d : reactor_driver_t) : reactor_driver_t :=
  {| reactor_data := reactor_data d; heap := f (heap d); next_handle := next_handle d;
     watchable_var := watchable_var d; coros := coros d; trace := trace d;
     driver_world := driver_world d |}.

Definition set_next_handle (n : handle_ptr) (d : reactor_driver_t) : reactor_driver_t :=
  {| reactor_data := reactor_data d; heap := heap d; next_handle := n;
     watchable_var := watchable_var d; coros := coros d; trace := trace d;
     driver_world := driver_world d |}.

Definition set_watchable_var f (d : reactor_driver_t) : reactor_driver_t :=
  {| reactor_data := reactor_data d; heap := heap d; next_handle := next_handle d;
     watchable_var := f (watchable_var d); coros := coros d; trace := trace d;
     driver_world := driver_world d |}.

Definition set_coros (cs : list coro_t) (d : reactor_driver_t) : reactor_driver_t :=
  {| reactor_data := reactor_data d; heap := heap d; next_handle := next_handle d;
     watchable_var := watchable_var d; coros := cs; trace := trace d;
     driver_world := driver_world d |}.

Definition set_driver_world (w : world_t) (d : reactor_driver_t) : reactor_driver_t :=
  {| reactor_data := reactor_data d; heap := heap d; next_handle := next_handle d;
     watchable_var := watchable_var d; coros := coros d; trace := trace d;
     driver_world := w |}.

Definition emit (e : event_t) (d : reactor_driver_t) : reactor_driver_t :=
  {| reactor_data := reactor_data d; heap := heap d; next_handle := next_handle d;
     watchable_var := watchable_var d; coros := coros d; trace := trace d ++ [e];
     driver_world := driver_world d |}.

(** [coro_t::spawn_sometime]: the coroutine is queued, and runs later. *)
Definition spawn_sometime (c : coro_t) (d : reactor_driver_t) : reactor_driver_t :=
  set_coros (coros d ++ [c]) d.

Definition update_handle (h : handle_ptr)
    (f : watchable_and_reactor_t → watchable_and_reactor_t) (d : reactor_driver_t)
    : reactor_driver_t :=
  set_heap (alter f h) d.

(** One statement of [initialize_reactor]; the coroutine that remains. *)
Definition initialize_reactor_step (this : handle_ptr) (pc : init_pc)
    (d : reactor_driver_t) : option (option coro_t * reactor_driver_t) :=
  hd ← heap d !! this;
  match pc with
  | init_at_get_svs =>
      Some (Some (run_initialize_reactor this init_at_reactor),
            emit (ev_get_svs this)
              (update_handle this (λ x,
                 {| watchable := watchable x;
                    reactor_has_been_initialized_ := reactor_has_been_initialized_ x;
                    namespace_id_ := namespace_id_ x;
                    stores_lifetimer_ := true; svs_ := true;
                    reactor_ := reactor_ x;
                    directory_exporter_ := directory_exporter_ x |}) d))
  | init_at_reactor =>
      Some (Some (run_initialize_reactor this init_at_directory_exporter),
            emit (ev_reactor_init this)
              (update_handle this (λ x,
                 {| watchable := watchable x;
                    reactor_has_been_initialized_ := reactor_has_been_initialized_ x;
                    namespace_id_ := namespace_id_ x;
                    stores_lifetimer_ := stores_lifetimer_ x; svs_ := svs_ x;
                    reactor_ := true;
                    directory_exporter_ := directory_exporter_ x |}) d))
  | init_at_directory_exporter =>
      (* the copier publishes the reactor's directory entry under the
         table's key *)
      Some (Some (run_initialize_reactor this init_at_pulse),
            emit (ev_directory_exporter_init this)
              (set_watchable_var (λ keys, {[namespace_id_ hd]} ∪ keys)
                (update_handle this (λ x,
                   {| watchable := watchable x;
                      reactor_has_been_initialized_ := reactor_has_been_initialized_ x;
                      namespace_id_ := namespace_id_ x;
                      stores_lifetimer_ := stores_lifetimer_ x; svs_ := svs_ x;
                      reactor_ := reactor_ x;
                      directory_exporter_ := true |}) d)))
  | init_at_pulse =>
      Some (None,
            emit (ev_initialized_pulse this)
              (update_handle this (λ x,
                 {| watchable := watchable x;
                    reactor_has_been_initialized_ := true;
                    namespace_id_ := namespace_id_ x;
                    stores_lifetimer_ := stores_lifetimer_ x; svs_ := svs_ x;
                    reactor_ := reactor_ x;
                    directory_exporter_ := directory_exporter_ x |}) d))
  end.

(** One statement of [delete_reactor_data]; [None] while it cannot run
    (the destructor is waiting for the handle's initialization). *)
Definition delete_reactor_data_step (thing_to_delete : handle_ptr)
    (namespace_id : namespace_id_t) (pc : delete_pc) (d : reactor_driver_t)
    : option (option coro_t * reactor_driver_t) :=
  match pc with
  | del_at_wait =>
      hd ← heap d !! thing_to_delete;
      if reactor_has_been_initialized_ hd
      then Some (Some (run_delete_reactor_data thing_to_delete namespace_id
                         del_at_directory_exporter), d)
      else None
  | del_at_directory_exporter =>
      hd ← heap d !! thing_to_delete;
      Some (Some (run_delete_reactor_data thing_to_delete namespace_id del_at_reactor),
            emit (ev_directory_exporter_reset thing_to_delete)
              (update_handle thing_to_delete (λ x,
                 {| watchable := watchable x;
                    reactor_has_been_initialized_ := reactor_has_been_initialized_ x;
                    namespace_id_ := namespace_id_ x;
                    stores_lifetimer_ := stores_lifetimer_ x; svs_ := svs_ x;
                    reactor_ := reactor_ x;
                    directory_exporter_ := false |}) d))
  | del_at_reactor =>
      hd ← heap d !! thing_to_delete;
      Some (Some (run_delete_reactor_data thing_to_delete namespace_id del_at_delete_key),
            emit (ev_reactor_reset thing_to_delete)
              (update_handle thing_to_delete (λ x,
                 {| watchable := watchable x;
                    reactor_has_been_initialized_ := reactor_has_been_initialized_ x;
                    namespace_id_ := namespace_id_ x;
                    stores_lifetimer_ := stores_lifetimer_ x; svs_ := svs_ x;
                    reactor_ := false;
                    directory_exporter_ := directory_exporter_ x |}) d))
  | del_at_delete_key =>
      hd ← heap d !! thing_to_delete;
      Some (Some (run_delete_reactor_data thing_to_delete namespace_id del_at_members),
            emit (ev_delete_key thing_to_delete (namespace_id_ hd))
              (set_watchable_var (λ keys, keys ∖ {[namespace_id_ hd]}) d))
  | del_at_members =>
      (* the members go, the last declared first, and the object is freed *)
      hd ← heap d !! thing_to_delete;
      Some (Some (run_delete_reactor_data thing_to_delete namespace_id del_at_destroy_svs),
            emit (ev_members_destroyed thing_to_delete)
              (set_heap (delete thing_to_delete) d))
  | del_at_destroy_svs =>
      Some (None, emit (ev_destroy_svs thing_to_delete namespace_id) d)
  end.

Definition coro_step (c : coro_t) (d : reactor_driver_t)
    : option (option coro_t * reactor_driver_t) :=
  match c with
  | run_initialize_reactor this pc => initialize_reactor_step this pc d
  | run_delete_reactor_data h ns pc => delete_reactor_data_step h ns pc d
  end.

(** What [construct_blueprint(...)] inside the [try] of [on_change] does:
    it returns, it throws [server_name_collision_exc_t], or the process
    dies on a failed guarantee. *)
Inductive try_construct_t :=
  | returned (bp : blueprint_t) (w : world_t)
  | caught_server_name_collision (w : world_t)
  | fatal.

Context (try_construct_blueprint :
  table_replication_info_t → server_name_client_t → world_t → try_construct_t).

(** Body of the loop of [on_change]. *)
Definition on_change_table (view : cluster_view_t) (ns : namespace_id_t)
    (meta : deletable_t namespace_semilattice_metadata_t) (d : reactor_driver_t)
    : option reactor_driver_t :=
  if (is_deleted meta || we_were_permanently_removed view)
     && bool_decide (is_Some (reactor_data d !! ns))
  then
    reactor_datum ← reactor_data d !! ns;
    Some (spawn_sometime (run_delete_reactor_data reactor_datum ns del_at_wait)
            (set_reactor_data (delete ns) d))
  else
    match meta with
    | deleted => Some d
    | existing m =>
        match try_construct_blueprint (replication_info m) (server_name_client view)
                (driver_world d) with
        | fatal => None
        | caught_server_name_collision w => Some (set_driver_world w d)
        | returned bp w =>
            let d := set_driver_world w d in
            if bool_decide (peers_roles bp !! get_me view = None) then Some d
            else
              match reactor_data d !! ns with
              | None =>
                  let this := next_handle d in
                  Some (set_reactor_data (std_map_insert ns this)
                         (spawn_sometime (run_initialize_reactor this init_at_get_svs)
                           (set_heap (<[this := new_watchable_and_reactor ns bp]>)
                             (set_next_handle (S this) d))))
              | Some h =>
                  Some (update_handle h (λ x,
                    {| watchable := apply_atomic_op (op_closure_apply bp) (watchable x);
                       reactor_has_been_initialized_ := reactor_has_been_initialized_ x;
                       namespace_id_ := namespace_id_ x;
                       stores_lifetimer_ := stores_lifetimer_ x; svs_ := svs_ x;
                       reactor_ := reactor_ x;
                       directory_exporter_ := directory_exporter_ x |}) d)
              end
        end
    end.

Definition on_change_loop (view : cluster_view_t) (keys : list namespace_id_t)
    (d : reactor_driver_t) : option reactor_driver_t :=
  for_each (λ ns d, meta ← namespaces view !! ns; on_change_table view ns meta d) keys d.

Definition on_change (view : cluster_view_t) (d : reactor_driver_t)
    : option reactor_driver_t :=
  on_change_loop view (std_map_keys (namespaces view)) d.

(** The scheduler: some spawned coroutine runs its next statement, or a
    notification runs [on_change] (which never yields). *)
Inductive step : reactor_driver_t → reactor_driver_t → Prop :=
  | step_coro d pre c post c' d' :
      coros d = pre ++ c :: post →
      coro_step c d = Some (c', d') →
      step d (set_coros (pre ++ option_list c' ++ post) d')
  | step_on_change view d d' :
      on_change view d = Some d' →
      step d d'.

(** The driver before its constructor calls [on_change]. *)
Definition initial_driver (w : world_t) : reactor_driver_t :=
  {| reactor_data := ∅; heap := ∅; next_handle := 0; watchable_var := ∅;
     coros := []; trace := []; driver_world := w |}.

Definition reachable (d : reactor_driver_t) : Prop :=
  ∃ w, rtc step (initial_driver w) d.

End reactor_driver.

Section the_driver.
Context {key_range_t region_t : Type} `{Countable region_t}.
Context (hash_region_t : key_range_t → region_t) (uuid_source : nat → uuid_u).

(** The call as this file has it: nothing in [construct_blueprint] throws. *)
Definition call_construct_blueprint
    (info : table_replication_info_t (key_range_t := key_range_t))
    (nc : server_name_client_t) (w : world_t) : try_construct_t (region_t := region_t) :=
  match construct_blueprint hash_region_t uuid_source info nc w with
  | Some (bp, w') => returned bp w'
  | None => fatal
  end.

Definition reactor_driver_on_change := on_change call_construct_blueprint.
Definition reactor_driver_step := step call_construct_blueprint.

End the_driver.

(** ** The rest of the file: the directory view of a handle, the lifetime
    of the stores, and the driver's constructor *)

Section directory_transform.
Context {region_t : Type} `{Countable region_t}.
Implicit Types (this : watchable_and_reactor_t (region_t := region_t)).

(** [key_1_to_2]: [None] is [return false]; the out-parameter is the
    value returned. *)
Definition key_1_to_2 this (key1 : peer_id_t * namespace_id_t) : option peer_id_t :=
  if decide (key1.2 = namespace_id_ this) then Some key1.1 else None.

(** [key_2_to_1] *)
Definition key_2_to_1 this (key2 : peer_id_t) : option (peer_id_t * namespace_id_t) :=
  Some (key2, namespace_id_ this).

(** [value_1_to_2] *)
Definition value_1_to_2 {namespace_directory_metadata_t : Type} this
    (value1 : namespace_directory_metadata_t) : namespace_directory_metadata_t :=
  value1.

End directory_transform.

(** *** [stores_lifetimer_t] *)

Definition threadnum_t := nat.

(** A store or a serializer, as far as the destructor looks at it. *)
Record home_thread_mixin_t := HomeThread { home_thread : threadnum_t }.

Record stores_lifetimer_t := StoresLifetimer {
  stores_ : option (list (option home_thread_mixin_t));  (* [None]: no array *)
  serializer_ : option home_thread_mixin_t;
  multiplexer_ : bool                                    (* multiplexer_.has() *)
}.

(** What the destructor does, and the thread it is on when it does it. *)
Inductive lifetimer_event_t :=
  | ev_store_reset (i : nat) (on_thread : threadnum_t)
  | ev_serializer_reset (on_thread : threadnum_t)
  | ev_multiplexer_reset (on_thread : threadnum_t).

#[global] Instance lifetimer_event_eq_dec : EqDecision lifetimer_event_t.
Proof. solve_decision. Defined.

(** [stores_lifetimer_t::stores_lifetimer_t()] *)
Definition stores_lifetimer_new : stores_lifetimer_t :=
  {| stores_ := None; serializer_ := None; multiplexer_ := false |}.

(** Body of the loop of the destructor; [stores_[i]->home_thread()] on an
    empty slot is a fault. *)
Definition reset_store (i : nat)
    (s : list lifetimer_event_t * list (option home_thread_mixin_t))
    : option (list lifetimer_event_t * list (option home_thread_mixin_t)) :=
  slot ← s.2 !! i;
  store ← slot;
  Some (s.1 ++ [ev_store_reset i (home_thread store)], <[i := None]> s.2).

(** [stores_lifetimer_t::~stores_lifetimer_t()], up to the destruction of
    the members. *)
Definition stores_lifetimer_delete (this : stores_lifetimer_t)
    : option (list lifetimer_event_t * stores_lifetimer_t) :=
  '(events, stores) ←
    match stores_ this with
    | Some array =>
        '(events, array') ← for_each reset_store (seq 0 (length array)) ([], array);
        Some (events, Some array')
    | None => Some ([], None)
    end;
  match serializer_ this with
  | Some serializer =>
      let th := home_thread serializer in
      Some (events ++ [ev_serializer_reset th] ++
              (if multiplexer_ this then [ev_multiplexer_reset th] else []),
            {| stores_ := stores; serializer_ := None; multiplexer_ := false |})
  | None =>
      Some (events,
            {| stores_ := stores; serializer_ := None;
               multiplexer_ := multiplexer_ this |})
  end.

Section driver_constructor.
Context {key_range_t region_t : Type} `{Countable region_t}.
Context (try_construct_blueprint :
  table_replication_info_t (key_range_t := key_range_t) → server_name_client_t →
  world_t → try_construct_t (region_t := region_t)).

(** [reactor_driver_t::reactor_driver_t]: the members are set up, the
    subscriptions are made (every notification runs [on_change]), and
    [on_change] runs once. *)
Definition reactor_driver_new (view : cluster_view_t (key_range_t := key_range_t))
    (w : world_t) : option (reactor_driver_t (region_t := region_t)) :=
  on_change try_construct_blueprint view (initial_driver w).

End driver_constructor.

(** * Auxiliary definitions for the proofs *)

Section blueprint_maps.
Context {region_t : Type} `{Countable region_t}.

(** The effect of [add_peer_if_new] on [peers_roles]. *)
Definition with_peer (p : peer_id_t) (m : gmap peer_id_t (gmap region_t blueprint_role_t))
    : gmap peer_id_t (gmap region_t blueprint_role_t) :=
  match m !! p with
  | None => <[p := ∅]> m
  | Some _ => m
  end.

(** The effect of [add_peer_if_new] followed by [add_role]. *)
Definition put_role (p : peer_id_t) (r : region_t) (role : blueprint_role_t)
    (m : gmap peer_id_t (gmap region_t blueprint_role_t))
    : gmap peer_id_t (gmap region_t blueprint_role_t) :=
  alter (std_map_insert r role) p (with_peer p m).

(** The effect of one round of "make it nothing". *)
Definition fill_nothing (r : region_t)
    (m : gmap peer_id_t (gmap region_t blueprint_role_t))
    : gmap peer_id_t (gmap region_t blueprint_role_t) :=
  std_map_insert r blueprint_role_nothing <$> m.

(** Roles are only ever added: what is recorded stays as it is. *)
Definition roles_le (m m' : gmap peer_id_t (gmap region_t blueprint_role_t)) : Prop :=
  dom m ⊆ dom m' ∧
  ∀ p roles r x, m !! p = Some roles → roles !! r = Some x →
    ∃ roles', m' !! p = Some roles' ∧ roles' !! r = Some x.

(** No region has two primaries. *)
Definition one_primary (m : gmap peer_id_t (gmap region_t blueprint_role_t)) : Prop :=
  ∀ p1 p2 roles1 roles2 r,
    m !! p1 = Some roles1 → m !! p2 = Some roles2 →
    roles1 !! r = Some blueprint_role_primary →
    roles2 !! r = Some blueprint_role_primary → p1 = p2.

(** Every role recorded is one of [roles], for a region among [regions]. *)
Definition roles_within (allowed : blueprint_role_t → Prop) (regions : region_t → Prop)
    (m : gmap peer_id_t (gmap region_t blueprint_role_t)) : Prop :=
  ∀ p roles r x, m !! p = Some roles → roles !! r = Some x → allowed x ∧ regions r.

End blueprint_maps.

Section builder_predicates.
Context {key_range_t region_t : Type} `{Countable region_t}.
Context (hash_region_t : key_range_t → region_t) (uuid_source : nat → uuid_u).
Context (info : table_replication_info_t (key_range_t := key_range_t)).
Context (nc : server_name_client_t).

(** The peer that [put_primary] finds for the director of a shard. *)
Definition director_peer (shard : shard_t) (t : blueprint_id_translator_t) (w : world_t)
    : peer_id_t * blueprint_id_translator_t * world_t :=
  match get_name_for_server_id nc (director shard) with
  | None => let '(u, w') := generate_uuid uuid_source w in (PeerId u, t, w')
  | Some _ => server_id_to_peer_id uuid_source (director shard) t w
  end.

(** The shard ranges of the table, as regions. *)
Definition is_shard_region (r : region_t) : Prop :=
  ∃ i, shard_region hash_region_t info i = Some r.

Definition is_shard_region_below (n : nat) (r : region_t) : Prop :=
  ∃ i, i < n ∧ shard_region hash_region_t info i = Some r.

(** The translator and the blueprint only grow during a call, and the
    call does not read the live map within its loops. *)
Definition builder_le (b b' : builder_t (region_t := region_t)) : Prop :=
  server_id_to_peer_id_map (trans b) ⊆ server_id_to_peer_id_map (trans b') ∧
  roles_le (peers_roles (blueprint b)) (peers_roles (blueprint b')) ∧
  map_reads (world b) = map_reads (world b').

(** The director of shard [i] has its peer, recorded as primary. *)
Definition director_done (b : builder_t (region_t := region_t)) (i : nat) : Prop :=
  ∀ shard r, shards (config info) !! i = Some shard →
    shard_region hash_region_t info i = Some r →
    ∃ dpeer, role_of (blueprint b) dpeer r = Some blueprint_role_primary ∧
      (is_Some (get_name_for_server_id nc (director shard)) →
         server_id_to_peer_id_map (trans b) !! director shard = Some dpeer) ∧
      (get_name_for_server_id nc (director shard) = None →
         ∃ k, dpeer = PeerId (uuid_source k)).

(** A replica of shard [i] that was not removed has its peer, with a role. *)
Definition replica_done (b : builder_t (region_t := region_t)) (i : nat)
    (server : server_id_t) : Prop :=
  ∀ r, shard_region hash_region_t info i = Some r →
    is_Some (get_name_for_server_id nc server) →
    ∃ peer x, server_id_to_peer_id_map (trans b) !! server = Some peer ∧
      role_of (blueprint b) peer r = Some x ∧ x ≠ blueprint_role_nothing.

(** What holds of the locals between the statements of the first three
    loops; [m0] is the snapshot the translator started from. *)
Definition builder_inv (m0 : gmap server_id_t peer_id_t)
    (b : builder_t (region_t := region_t)) : Prop :=
  m0 ⊆ server_id_to_peer_id_map (trans b) ∧
  one_primary (peers_roles (blueprint b)) ∧
  roles_within (λ x, x ≠ blueprint_role_nothing) is_shard_region
    (peers_roles (blueprint b)).

(** What holds of the locals when the last loop is through. *)
Definition builder_final (m0 : gmap server_id_t peer_id_t)
    (b : builder_t (region_t := region_t)) : Prop :=
  m0 ⊆ server_id_to_peer_id_map (trans b) ∧
  one_primary (peers_roles (blueprint b)) ∧
  ∀ p roles, peers_roles (blueprint b) !! p = Some roles →
    ∀ r, is_Some (roles !! r) ↔ is_shard_region r.

End builder_predicates.

(** * A small cluster, for concrete runs

    Key ranges and regions are numbered.  Servers 1 and 2 are connected (as
    peers 101 and 102), server 3 is known but disconnected, server 4 was
    permanently removed but is still connected (as peer 104). *)

Definition example_uuids (k : nat) : uuid_u := (1000 + N.of_nat k)%N.

Definition example_names (server : server_id_t) : option name_string_t :=
  if decide (server = 1%N) then Some "a"
  else if decide (server = 2%N) then Some "b"
  else if decide (server = 3%N) then Some "c"
  else None.

Definition example_snapshot : gmap server_id_t peer_id_t :=
  {[ 1%N := PeerId 101%N; 2%N := PeerId 102%N; 4%N := PeerId 104%N ]}.

Definition example_client : server_name_client_t :=
  {| server_id_to_peer_id_map_at := λ _, example_snapshot;
     get_name_for_server_id := example_names |}.

(** Shard 0 is directed by server 1, with replicas 1, 2 and 3; shard 1 by
    the removed server 4, with replicas 2 and 4. *)
Definition example_info : table_replication_info_t (key_range_t := N) :=
  {| config := {| shards := [ {| replicas := {[ 1%N; 2%N; 3%N ]}; director := 1%N |};
                              {| replicas := {[ 2%N; 4%N ]}; director := 4%N |} ] |};
     shard_scheme := {| shard_ranges := [ 10%N; 20%N ] |} |}.

Definition example_world : world_t := {| uuids_drawn := 0; map_reads := 0 |}.

(** A client whose live map gains server 5 (as peer 105) after the first
    read, and one whose later reads name other peers for the same servers. *)
Definition drifting_client : server_name_client_t :=
  {| server_id_to_peer_id_map_at := λ k,
       match k with
       | 0 => example_snapshot
       | S _ => <[ 5%N := PeerId 105%N ]> example_snapshot
       end;
     get_name_for_server_id := example_names |}.

Definition relabelled_client : server_name_client_t :=
  {| server_id_to_peer_id_map_at := λ k,
       match k with
       | 0 => example_snapshot
       | S _ => {[ 1%N := PeerId 201%N; 2%N := PeerId 202%N; 4%N := PeerId 204%N ]}
       end;
     get_name_for_server_id := example_names |}.

Section two_calls.
Context {region_t : Type} `{Countable region_t}.

(** A peer with a live identity: the snapshot maps some server to it. *)
Definition live_peer (m0 : gmap server_id_t peer_id_t) (p : peer_id_t) : Prop :=
  ∃ server, m0 !! server = Some p.

(** A translator holds the snapshot, and placeholders for other servers. *)
Definition translator_ok (m0 : gmap server_id_t peer_id_t)
    (t : blueprint_id_translator_t) : Prop :=
  m0 ⊆ server_id_to_peer_id_map t ∧
  ∀ server q, m0 !! server = None →
    server_id_to_peer_id_map t !! server = Some q → ¬ live_peer m0 q.

(** Two blueprints that record the same for every live peer. *)
Definition agree_on_live (m0 : gmap server_id_t peer_id_t)
    (m m' : gmap peer_id_t (gmap region_t blueprint_role_t)) : Prop :=
  ∀ p, live_peer m0 p → m !! p = m' !! p.

Definition builders_agree (m0 : gmap server_id_t peer_id_t)
    (b b' : builder_t (region_t := region_t)) : Prop :=
  translator_ok m0 (trans b) ∧ translator_ok m0 (trans b') ∧
  agree_on_live m0 (peers_roles (blueprint b)) (peers_roles (blueprint b')).

End two_calls.

(** * The driver: traces, schedules and invariants *)

Definition coro_handle (c : coro_t) : handle_ptr :=
  match c with
  | run_initialize_reactor h _ => h
  | run_delete_reactor_data h _ _ => h
  end.

(** The handles that some spawned [delete_reactor_data] owns. *)
Definition deleting (cs : list coro_t) : list handle_ptr :=
  omap (λ c, match c with
             | run_delete_reactor_data h _ _ => Some h
             | run_initialize_reactor _ _ => None
             end) cs.

(** The events of the teardown of handle [h]. *)
Definition is_teardown (h : handle_ptr) (e : event_t) : bool :=
  match e with
  | ev_directory_exporter_reset h' | ev_reactor_reset h' | ev_delete_key h' _
  | ev_members_destroyed h' | ev_destroy_svs h' _ => bool_decide (h' = h)
  | ev_get_svs _ | ev_reactor_init _ | ev_directory_exporter_init _
  | ev_initialized_pulse _ => false
  end.

Definition teardown_trace (h : handle_ptr) (tr : list event_t) : list event_t :=
  filter (λ e, is_teardown h e = true) tr.

(** The teardown of the handle [h] of table [ns], in full: the export link,
    the reactor, the table's key in the directory, and the storage (the
    members holding the stores, then [destroy_svs]). *)
Definition teardown_sequence (h : handle_ptr) (ns : namespace_id_t) : list event_t :=
  [ ev_directory_exporter_reset h; ev_reactor_reset h; ev_delete_key h ns;
    ev_members_destroyed h; ev_destroy_svs h ns ].

(** How many teardown events a [delete_reactor_data] has behind it. *)
Definition delete_progress (pc : delete_pc) : nat :=
  match pc with
  | del_at_wait | del_at_directory_exporter => 0
  | del_at_reactor => 1
  | del_at_delete_key => 2
  | del_at_members => 3
  | del_at_destroy_svs => 4
  end.

(** The events a coroutine of [initialize_reactor] has behind it. *)
Definition init_done (h : handle_ptr) (pc : init_pc) : list event_t :=
  match pc with
  | init_at_get_svs => []
  | init_at_reactor => [ev_get_svs h]
  | init_at_directory_exporter => [ev_get_svs h; ev_reactor_init h]
  | init_at_pulse => [ev_get_svs h; ev_reactor_init h; ev_directory_exporter_init h]
  end.

(** What a statement of [initialize_reactor] emits, and what remains. *)
Definition init_event (h : handle_ptr) (pc : init_pc) : event_t :=
  match pc with
  | init_at_get_svs => ev_get_svs h
  | init_at_reactor => ev_reactor_init h
  | init_at_directory_exporter => ev_directory_exporter_init h
  | init_at_pulse => ev_initialized_pulse h
  end.

Definition init_next (h : handle_ptr) (pc : init_pc) : option coro_t :=
  match pc with
  | init_at_get_svs => Some (run_initialize_reactor h init_at_reactor)
  | init_at_reactor => Some (run_initialize_reactor h init_at_directory_exporter)
  | init_at_directory_exporter => Some (run_initialize_reactor h init_at_pulse)
  | init_at_pulse => None
  end.

(** What a statement of [delete_reactor_data] emits, and what remains. *)
Definition delete_event (h : handle_ptr) (ns : namespace_id_t) (pc : delete_pc)
    : option event_t :=
  match pc with
  | del_at_wait => None
  | del_at_directory_exporter => Some (ev_directory_exporter_reset h)
  | del_at_reactor => Some (ev_reactor_reset h)
  | del_at_delete_key => Some (ev_delete_key h ns)
  | del_at_members => Some (ev_members_destroyed h)
  | del_at_destroy_svs => Some (ev_destroy_svs h ns)
  end.

Definition delete_next (h : handle_ptr) (ns : namespace_id_t) (pc : delete_pc)
    : option coro_t :=
  match pc with
  | del_at_wait => Some (run_delete_reactor_data h ns del_at_directory_exporter)
  | del_at_directory_exporter => Some (run_delete_reactor_data h ns del_at_reactor)
  | del_at_reactor => Some (run_delete_reactor_data h ns del_at_delete_key)
  | del_at_delete_key => Some (run_delete_reactor_data h ns del_at_members)
  | del_at_members => Some (run_delete_reactor_data h ns del_at_destroy_svs)
  | del_at_destroy_svs => None
  end.

Section driver_predicates.
Context {key_range_t region_t : Type} `{Countable region_t}.
Context (try_construct_blueprint :
  table_replication_info_t (key_range_t := key_range_t) → server_name_client_t →
  world_t → try_construct_t (region_t := region_t)).
Implicit Types (d : reactor_driver_t (region_t := region_t)).

(** What the scheduler or the notification source does next. *)
Inductive action_t :=
  | act_on_change (view : cluster_view_t (key_range_t := key_range_t))
  | act_resume (n : nat).      (* the [n]-th spawned coroutine runs a statement *)

Definition do_action (a : action_t) d : option reactor_driver_t :=
  match a with
  | act_on_change view => on_change try_construct_blueprint view d
  | act_resume n =>
      c ← coros d !! n;
      '(c', d') ← coro_step c d;
      Some (set_coros (take n (coros d) ++ option_list c' ++ drop (S n) (coros d)) d')
  end.

Definition run_schedule (acts : list action_t) d : option reactor_driver_t :=
  for_each do_action acts d.

(** Initialization comes first: a handle that is marked initialized, and a
    teardown that is past its wait, have the pulse behind them; the pulse
    has the rest of [initialize_reactor] behind it; and every teardown
    event has the pulse behind it. *)
Definition init_order_ok d : Prop :=
  (∀ h hd, heap d !! h = Some hd → reactor_has_been_initialized_ hd = true →
     ev_initialized_pulse h ∈ trace d) ∧
  (∀ h ns pc, run_delete_reactor_data h ns pc ∈ coros d → pc ≠ del_at_wait →
     ev_initialized_pulse h ∈ trace d) ∧
  (∀ h pc, run_initialize_reactor h pc ∈ coros d → init_done h pc ⊆ trace d) ∧
  (∀ h before after, trace d = before ++ ev_initialized_pulse h :: after →
     init_done h init_at_pulse ⊆ before) ∧
  (∀ h e before after, trace d = before ++ e :: after → is_teardown h e = true →
     ev_initialized_pulse h ∈ before).

(** Addresses are handed out once: what the map and the coroutines hold was
    allocated before, and no handle is under two keys. *)
Definition allocation_ok d : Prop :=
  (∀ ns h, reactor_data d !! ns = Some h → h < next_handle d) ∧
  (∀ c, c ∈ coros d → coro_handle c < next_handle d) ∧
  (∀ ns ns' h, reactor_data d !! ns = Some h → reactor_data d !! ns' = Some h → ns = ns') ∧
  (∀ h, h ∈ deleting (coros d) → ∀ ns, reactor_data d !! ns ≠ Some h).

(** A handle that is not yet initialized has its [initialize_reactor]
    among the spawned coroutines. *)
Definition init_pending_ok d : Prop :=
  ∀ h hd, heap d !! h = Some hd → reactor_has_been_initialized_ hd = false →
    ∃ pc, run_initialize_reactor h pc ∈ coros d.

(** The table of the handle at an address, while the handle exists. *)
Definition table_of d (h : handle_ptr) : option namespace_id_t :=
  namespace_id_ <$> heap d !! h.

(** The teardown of every handle follows [teardown_sequence]: a teardown
    under way has emitted a prefix of it, a handle that exists and is not
    being torn down has emitted none of it, and a handle that is gone has
    emitted all of it. *)
Definition teardown_ok d : Prop :=
  (∀ h, is_Some (table_of d h) → h < next_handle d) ∧
  (∀ ns h, reactor_data d !! ns = Some h → table_of d h = Some ns) ∧
  NoDup (deleting (coros d)) ∧
  (∀ h ns pc, run_delete_reactor_data h ns pc ∈ coros d →
     teardown_trace h (trace d) = take (delete_progress pc) (teardown_sequence h ns) ∧
     table_of d h = if decide (pc = del_at_destroy_svs) then None else Some ns) ∧
  (∀ h, h ∉ deleting (coros d) →
     match table_of d h with
     | Some _ => teardown_trace h (trace d) = []
     | None =>
         if decide (h < next_handle d)
         then ∃ ns, teardown_trace h (trace d) = teardown_sequence h ns
         else teardown_trace h (trace d) = []
     end).

End driver_predicates.

(** * A run of the driver on the example cluster

    Table 7 is configured with [example_info]; the local process is peer
    101. *)

Definition example_construct :
    table_replication_info_t (key_range_t := N) → server_name_client_t → world_t →
    try_construct_t (region_t := N) :=
  call_construct_blueprint id example_uuids.

Definition example_view : cluster_view_t (key_range_t := N) :=
  {| namespaces := {[ 7%N := existing {| replication_info := example_info |} ]};
     we_were_permanently_removed := false;
     server_name_client := example_client;
     get_me := PeerId 101%N |}.

Definition example_view_deleted : cluster_view_t (key_range_t := N) :=
  {| namespaces := {[ 7%N := deleted ]};
     we_were_permanently_removed := false;
     server_name_client := example_client;
     get_me := PeerId 101%N |}.

(** The table appears and its handle starts to initialize. *)
Definition example_started : reactor_driver_t (region_t := N) :=
  default (initial_driver example_world)
    (run_schedule example_construct
       [act_on_change example_view; act_resume 0] (initial_driver example_world)).

(** The table is deleted while the handle is still initializing. *)
Definition example_detached : reactor_driver_t (region_t := N) :=
  default example_started (on_change example_construct example_view_deleted example_started).

(** The initialization runs to its end, and then the teardown. *)
Definition example_torn_down : reactor_driver_t (region_t := N) :=
  default example_detached
    (run_schedule example_construct
       [act_resume 0; act_resume 0; act_resume 0;
        act_resume 0; act_resume 0; act_resume 0; act_resume 0; act_resume 0;
        act_resume 0] example_detached).

(** A test double for a construction that throws: [construct_blueprint]
    behind a check that no two directors of the table share a name. *)
Definition directors_collide (nc : server_name_client_t)
    (info : table_replication_info_t (key_range_t := N)) : bool :=
  bool_decide (Exists (λ s1, Exists (λ s2,
      director s1 ≠ director s2 ∧
      is_Some (get_name_for_server_id nc (director s1)) ∧
      get_name_for_server_id nc (director s1) = get_name_for_server_id nc (director s2))
    (shards (config info))) (shards (config info))).

Definition colliding_construct (info : table_replication_info_t (key_range_t := N))
    (nc : server_name_client_t) (w : world_t) : try_construct_t (region_t := N) :=
  if directors_collide nc info then caught_server_name_collision w
  else call_construct_blueprint id example_uuids info nc w.

(** Servers 1 and 4 both go by the name "a". *)
Definition colliding_view : cluster_view_t (key_range_t := N) :=
  {| namespaces := {[ 7%N := existing {| replication_info := example_info |} ]};
     we_were_permanently_removed := false;
     server_name_client :=
       {| server_id_to_peer_id_map_at := λ _, example_snapshot;
          get_name_for_server_id := λ server,
            if decide (server = 1%N ∨ server = 4%N) then Some "a" else None |};
     get_me := PeerId 101%N |}.

(** * Auxiliary definitions for the further properties *)

Section blueprint_reasons.
Context {key_range_t region_t : Type} `{Countable region_t}.
Context (hash_region_t : key_range_t → region_t) (uuid_source : nat → uuid_u).
Context (info : table_replication_info_t (key_range_t := key_range_t)).
Context (nc : server_name_client_t).

(** A placeholder peer: its uuid was drawn between the two worlds. *)
Definition placeholder_between (w w' : world_t) (p : peer_id_t) : Prop :=
  ∃ k, uuids_drawn w ≤ k < uuids_drawn w' ∧ p = PeerId (uuid_source k).

(** Why a peer has a role for a region, in a call that started in [w]:
    the region is that of a shard of which the peer is the director's
    (primary), or a replica's that is not the director (secondary). *)
Definition role_has_reason (w : world_t) (b : builder_t (region_t := region_t))
    (p : peer_id_t) (r : region_t) (x : blueprint_role_t) : Prop :=
  ∃ i shard, shards (config info) !! i = Some shard ∧
    shard_region hash_region_t info i = Some r ∧
    match x with
    | blueprint_role_primary =>
        match get_name_for_server_id nc (director shard) with
        | Some _ => server_id_to_peer_id_map (trans b) !! director shard = Some p
        | None => placeholder_between w (world b) p
        end
    | blueprint_role_secondary =>
        ∃ server, server ∈ replicas shard ∧
          is_Some (get_name_for_server_id nc server) ∧ server ≠ director shard ∧
          server_id_to_peer_id_map (trans b) !! server = Some p
    | blueprint_role_nothing => True
    end.

(** The configuration without the replicas that were permanently removed. *)
Definition without_removed_replicas : table_replication_info_t (key_range_t := key_range_t) :=
  {| config := {| shards :=
       (λ shard, {| replicas := filter (λ server,
                      is_Some (get_name_for_server_id nc server)) (replicas shard);
                    director := director shard |}) <$> shards (config info) |};
     shard_scheme := shard_scheme info |}.

End blueprint_reasons.

(** A table whose servers are all named and connected, and a table
    without shards. *)
Definition connected_info : table_replication_info_t (key_range_t := N) :=
  {| config := {| shards := [ {| replicas := {[ 1%N; 2%N ]}; director := 1%N |};
                              {| replicas := {[ 1%N; 2%N ]}; director := 2%N |} ] |};
     shard_scheme := {| shard_ranges := [ 10%N; 20%N ] |} |}.

Definition empty_info : table_replication_info_t (key_range_t := N) :=
  {| config := {| shards := [] |}; shard_scheme := {| shard_ranges := [] |} |}.

(** The handles of tables 7 and 8, just constructed. *)
Definition example_handle (ns : namespace_id_t) : watchable_and_reactor_t (region_t := N) :=
  new_watchable_and_reactor ns {| peers_roles := ∅ |}.

(** * The members of a handle *)

(** The handles that some spawned [initialize_reactor] works on. *)
Definition initializing (cs : list coro_t) : list handle_ptr :=
  omap (λ c, match c with
             | run_initialize_reactor h _ => Some h
             | run_delete_reactor_data _ _ _ => None
             end) cs.

(** Which members are filled: [stores_lifetimer_], [svs_], [reactor_],
    [directory_exporter_]. *)
Definition members_at_init (pc : init_pc) : bool * bool * bool * bool :=
  match pc with
  | init_at_get_svs => (false, false, false, false)
  | init_at_reactor => (true, true, false, false)
  | init_at_directory_exporter => (true, true, true, false)
  | init_at_pulse => (true, true, true, true)
  end.

Definition members_at_delete (pc : delete_pc) : bool * bool * bool * bool :=
  match pc with
  | del_at_wait | del_at_directory_exporter => (true, true, true, true)
  | del_at_reactor => (true, true, true, false)
  | del_at_delete_key | del_at_members => (true, true, false, false)
  | del_at_destroy_svs => (false, false, false, false)
  end.

Section handle_members.
Context {region_t : Type} `{Countable region_t}.
Implicit Types (d : reactor_driver_t (region_t := region_t)).
Implicit Types (hd : watchable_and_reactor_t (region_t := region_t)).

Definition members hd : bool * bool * bool * bool :=
  (stores_lifetimer_ hd, svs_ hd, reactor_ hd, directory_exporter_ hd).

(** Two states of a handle that differ at most in the blueprint cell. *)
Definition same_but_cell hd hd' : Prop :=
  reactor_has_been_initialized_ hd' = reactor_has_been_initialized_ hd ∧
  namespace_id_ hd' = namespace_id_ hd ∧ members hd' = members hd.

(** The members of a handle are those its coroutines have filled and not
    yet emptied. *)
Definition members_ok d : Prop :=
  NoDup (initializing (coros d)) ∧
  (∀ h pc, run_initialize_reactor h pc ∈ coros d →
     ∃ hd, heap d !! h = Some hd ∧ reactor_has_been_initialized_ hd = false ∧
       members hd = members_at_init pc) ∧
  (∀ h ns pc, run_delete_reactor_data h ns pc ∈ coros d →
     pc ≠ del_at_wait → pc ≠ del_at_destroy_svs →
     ∃ hd, heap d !! h = Some hd ∧ reactor_has_been_initialized_ hd = true ∧
       members hd = members_at_delete pc) ∧
  (∀ h hd, heap d !! h = Some hd → reactor_has_been_initialized_ hd = true →
     (∀ ns pc, run_delete_reactor_data h ns pc ∈ coros d → pc = del_at_wait) →
     members hd = (true, true, true, true)).

End handle_members.

(** * A pass of [on_change] *)

Section pass_predicates.
Context {key_range_t region_t : Type} `{Countable region_t}.
Context (try_construct_blueprint :
  table_replication_info_t (key_range_t := key_range_t) → server_name_client_t →
  world_t → try_construct_t (region_t := region_t)).
Implicit Types (d : reactor_driver_t (region_t := region_t)).
Implicit Types (view : cluster_view_t (key_range_t := key_range_t)).

(** A coroutine as it is spawned. *)
Definition just_spawned (c : coro_t) : Prop :=
  (∃ h, c = run_initialize_reactor h init_at_get_svs) ∨
  (∃ h ns, c = run_delete_reactor_data h ns del_at_wait).

(** What the construction of a table's blueprint came to, for the pass. *)
Definition blueprint_for view (m : namespace_semilattice_metadata_t) (w : world_t)
    : option (blueprint_t (region_t := region_t)) :=
  match try_construct_blueprint (replication_info m) (server_name_client view) w with
  | returned bp _ =>
      if bool_decide (peers_roles bp !! get_me view = None) then None else Some bp
  | caught_server_name_collision _ | fatal => None
  end.

(** What a pass leaves as it is. *)
Definition pass_frame d d' : Prop :=
  trace d' = trace d ∧ watchable_var d' = watchable_var d ∧
  next_handle d ≤ next_handle d' ∧
  (∃ spawned, coros d' = coros d ++ spawned ∧ Forall just_spawned spawned) ∧
  (∀ h hd, heap d !! h = Some hd →
     ∃ hd', heap d' !! h = Some hd' ∧ same_but_cell hd hd').

Definition heap_below d : Prop := ∀ h, is_Some (heap d !! h) → h < next_handle d.

End pass_predicates.

(** * More of the run on the example cluster *)

(** The driver as its constructor leaves it. *)
Definition example_constructed : reactor_driver_t (region_t := N) :=
  default (initial_driver example_world)
    (reactor_driver_new example_construct example_view example_world).

(** The handle of table 7 when its initialization has taken the stores. *)
Definition example_started_handle : watchable_and_reactor_t (region_t := N) :=
  default (example_handle 7%N) (heap example_started !! 0).


(** * Proofs *)

(** ** Loops *)

Section loops.
Context {A St : Type}.
Implicit Types (l : list A) (s : St).

Lemma for_each_indexed_inv (I : nat → St → Prop) (body : nat → A → St → option St)
    l i s :
  I i s →
  (∀ k x s, l !! k = Some x → I (i + k) s →
     ∃ s', body (i + k) x s = Some s' ∧ I (S (i + k)) s') →
  ∃ s', for_each_indexed body i l s = Some s' ∧ I (i + length l) s'.
Proof.
  revert i s. induction l as [|x l IH]; intros i s Hs Hbody; simpl.
  - rewrite Nat.add_0_r. eauto.
  - destruct (Hbody 0 x s) as (s1 & Hs1 & HI); [done | by rewrite Nat.add_0_r |].
    rewrite Nat.add_0_r in Hs1, HI. rewrite Hs1. simpl.
    replace (i + S (length l)) with (S i + length l) by lia.
    apply IH; [done |]. intros k y t Hy Ht.
    replace (S i + k) with (i + S k) in * by lia. by apply Hbody.
Qed.

Lemma for_each_preserves (I : St → Prop) (body : A → St → option St) l s s' :
  I s →
  (∀ x a a', x ∈ l → I a → body x a = Some a' → I a') →
  for_each body l s = Some s' → I s'.
Proof.
  revert s. induction l as [|x l IH]; intros s Hs Hbody; simpl.
  - by intros [= <-].
  - destruct (body x s) as [a|] eqn:Ha; [simpl | done].
    apply IH; [eapply Hbody; [left | done | done] |].
    intros y ????. eapply Hbody; [by right | done..].
Qed.

Lemma for_each_app (body : A → St → option St) l1 l2 s :
  for_each body (l1 ++ l2) s = for_each body l1 s ≫= for_each body l2.
Proof.
  revert s. induction l1 as [|x l1 IH]; intros s; simpl; [done |].
  destruct (body x s); simpl; [apply IH | done].
Qed.

Lemma for_each_ext (body1 body2 : A → St → option St) l s :
  (∀ x s, body1 x s = body2 x s) → for_each body1 l s = for_each body2 l s.
Proof.
  intros Hext. revert s. induction l as [|x l IH]; intros s; simpl; [done |].
  rewrite Hext. destruct (body2 x s); simpl; auto.
Qed.

Lemma for_each_indexed_ext (body1 body2 : nat → A → St → option St) l i s :
  (∀ i x s, body1 i x s = body2 i x s) →
  for_each_indexed body1 i l s = for_each_indexed body2 i l s.
Proof.
  intros Hext. revert i s. induction l as [|x l IH]; intros i s; simpl; [done |].
  rewrite Hext. destruct (body2 i x s); simpl; auto.
Qed.

(** Two runs of a loop over the same sequence, in related states. *)
Lemma for_each_rel {St'} (R : St → St' → Prop)
    (body : A → St → option St) (body' : A → St' → option St') l s t s' t' :
  R s t →
  (∀ x a b a' b', x ∈ l → R a b → body x a = Some a' → body' x b = Some b' → R a' b') →
  for_each body l s = Some s' → for_each body' l t = Some t' → R s' t'.
Proof.
  revert s t. induction l as [|x l IH]; intros s t HR Hbody; simpl.
  - by intros [= <-] [= <-].
  - destruct (body x s) as [a'|] eqn:Ha; [simpl | done].
    destruct (body' x t) as [b'|] eqn:Hb; [simpl | done].
    apply IH.
    + eapply Hbody; eauto. left.
    + intros y ?????. apply Hbody. by right.
Qed.

Lemma for_each_indexed_rel {St'} (R : St → St' → Prop)
    (body : nat → A → St → option St) (body' : nat → A → St' → option St')
    l i s t s' t' :
  R s t →
  (∀ k x a b a' b', l !! k = Some x → R a b →
     body (i + k) x a = Some a' → body' (i + k) x b = Some b' → R a' b') →
  for_each_indexed body i l s = Some s' →
  for_each_indexed body' i l t = Some t' → R s' t'.
Proof.
  revert i s t. induction l as [|x l IH]; intros i s t HR Hbody; simpl.
  - by intros [= <-] [= <-].
  - destruct (body i x s) as [a'|] eqn:Ha; [simpl | done].
    destruct (body' i x t) as [b'|] eqn:Hb; [simpl | done].
    apply IH.
    + apply (Hbody 0 x s t); rewrite ?Nat.add_0_r; done.
    + intros k y ???? Hy. replace (S i + k) with (i + S k) by lia. by apply Hbody.
Qed.

End loops.

Lemma elem_of_ascending {A} (key : A → N) (l : list A) x :
  x ∈ ascending key l ↔ x ∈ l.
Proof. unfold ascending. by rewrite merge_sort_Permutation. Qed.

Lemma elem_of_std_set_iter (s : gset uuid_u) x : x ∈ std_set_iter s ↔ x ∈ s.
Proof. unfold std_set_iter. by rewrite elem_of_ascending, elem_of_elements. Qed.

Lemma elem_of_std_map_keys {V} (m : gmap uuid_u V) x :
  x ∈ std_map_keys m ↔ is_Some (m !! x).
Proof. unfold std_map_keys. by rewrite elem_of_std_set_iter, elem_of_dom. Qed.

(** ** [std::map::insert] and the blueprint's map *)

Section map_facts.
Context {region_t : Type} `{Countable region_t}.
Implicit Types (m : gmap peer_id_t (gmap region_t blueprint_role_t)).
Implicit Types (roles : gmap region_t blueprint_role_t).
Implicit Types (bp : blueprint_t (region_t := region_t)).

Lemma lookup_std_map_insert roles r r' x :
  std_map_insert r x roles !! r' =
    if decide (r = r') then Some (default x (roles !! r)) else roles !! r'.
Proof.
  unfold std_map_insert. destruct (roles !! r) as [y|] eqn:Hr; simpl.
  - case_decide; by subst.
  - by rewrite lookup_insert.
Qed.

Lemma std_map_insert_idemp roles r x :
  std_map_insert r x (std_map_insert r x roles) = std_map_insert r x roles.
Proof.
  apply map_eq. intros r'. rewrite !lookup_std_map_insert.
  case_decide; [|done]. rewrite decide_True by done. done.
Qed.

Lemma lookup_with_peer m p q :
  with_peer p m !! q = if decide (p = q) then Some (default ∅ (m !! p)) else m !! q.
Proof.
  unfold with_peer. destruct (m !! p) as [y|] eqn:Hp; simpl.
  - case_decide; by subst.
  - by rewrite lookup_insert.
Qed.

Lemma lookup_put_role m p r x q :
  put_role p r x m !! q =
    if decide (p = q) then Some (std_map_insert r x (default ∅ (m !! p))) else m !! q.
Proof.
  unfold put_role. rewrite lookup_alter.
  destruct (decide (p = q)); rewrite lookup_with_peer.
  - by rewrite decide_True.
  - by rewrite decide_False.
Qed.

Lemma lookup_fill_nothing m r q :
  fill_nothing r m !! q = std_map_insert r blueprint_role_nothing <$> m !! q.
Proof. unfold fill_nothing. by rewrite lookup_fmap. Qed.

Lemma add_peer_if_new_eq p bp :
  add_peer_if_new p bp = Some {| peers_roles := with_peer p (peers_roles bp) |}.
Proof.
  unfold add_peer_if_new, add_peer, with_peer.
  destruct bp as [m]; simpl. by destruct (m !! p).
Qed.

Lemma add_role_eq p r x m :
  add_role p r x {| peers_roles := with_peer p m |} =
    Some {| peers_roles := put_role p r x m |}.
Proof.
  unfold add_role, put_role; simpl. rewrite lookup_with_peer, decide_True by done.
  simpl. do 2 f_equal. apply map_eq. intros q.
  rewrite lookup_insert, lookup_alter.
  case_decide; subst; rewrite lookup_with_peer; [by rewrite decide_True | by rewrite decide_False].
Qed.

Lemma put_nothing_eq r p bp :
  put_nothing r p bp =
    Some {| peers_roles := alter (std_map_insert r blueprint_role_nothing) p (peers_roles bp) |}.
Proof.
  unfold put_nothing, add_role. destruct bp as [m]; simpl.
  destruct (m !! p) as [roles|] eqn:Hp; simpl.
  - destruct (roles !! r) as [y|] eqn:Hr; simpl; do 2 f_equal; apply map_eq; intros q;
      rewrite lookup_alter, ?lookup_insert; case_decide; subst; rewrite ?Hp; simpl; try done.
    f_equal. unfold std_map_insert. by rewrite Hr.
  - do 2 f_equal. apply map_eq; intros q. rewrite lookup_alter.
    case_decide; subst; rewrite ?Hp; done.
Qed.

Lemma for_each_put_nothing r (l : list peer_id_t) bp :
  ∃ bp', for_each (put_nothing r) l bp = Some bp' ∧
    ∀ q, peers_roles bp' !! q =
      if decide (q ∈ l) then std_map_insert r blueprint_role_nothing <$> peers_roles bp !! q
      else peers_roles bp !! q.
Proof.
  revert bp. induction l as [|p l IH]; intros bp; simpl.
  - exists bp. split; [done |]. intros q.
    destruct (decide (q ∈ [])) as [Hq|]; [by apply elem_of_nil in Hq | done].
  - rewrite put_nothing_eq. simpl.
    destruct (IH {| peers_roles :=
        alter (std_map_insert r blueprint_role_nothing) p (peers_roles bp) |})
      as (bp' & -> & Hbp').
    exists bp'. split; [done |]. intros q. rewrite Hbp'. simpl.
    rewrite lookup_alter.
    destruct (decide (q ∈ l)) as [Hq|Hq], (decide (p = q)) as [->|Hpq].
    + rewrite (decide_True (P := q ∈ q :: l)) by left.
      destruct (peers_roles bp !! q); simpl; [|done].
      by rewrite std_map_insert_idemp.
    + rewrite (decide_True (P := q ∈ p :: l)) by (by right). done.
    + rewrite (decide_True (P := q ∈ q :: l)) by left. done.
    + rewrite (decide_False (P := q ∈ p :: l)); [done |].
      rewrite elem_of_cons. intros [?|?]; congruence.
Qed.

End map_facts.

Section more_loops.
Context {A St : Type}.

(** A loop whose every round establishes a fact about its element that
    later rounds keep. *)
Lemma for_each_establish (R : relation St) `{!PreOrder R}
    (I : St → Prop) (Q : A → St → Prop) (body : A → St → option St) l s :
  I s →
  (∀ x s s', Q x s → R s s' → Q x s') →
  (∀ x s, x ∈ l → I s → ∃ s', body x s = Some s' ∧ I s' ∧ R s s' ∧ Q x s') →
  ∃ s', for_each body l s = Some s' ∧ I s' ∧ R s s' ∧ ∀ x, x ∈ l → Q x s'.
Proof.
  intros Hs Hstable. revert s Hs. induction l as [|x l IH]; intros s Hs Hbody; simpl.
  - exists s. split_and!; [done.. |]. intros x Hx. by apply elem_of_nil in Hx.
  - destruct (Hbody x s) as (s1 & -> & Hs1 & HR1 & HQ1); [left | done |]. simpl.
    destruct (IH s1 Hs1) as (s' & -> & Hs' & HR' & HQ').
    { intros y t Hy. apply Hbody. by right. }
    exists s'. split_and!; [done | done | by etrans |].
    intros y [->|Hy]%elem_of_cons; eauto.
Qed.

End more_loops.

Section role_facts.
Context {region_t : Type} `{Countable region_t}.
Implicit Types (m : gmap peer_id_t (gmap region_t blueprint_role_t)).
Implicit Types (roles : gmap region_t blueprint_role_t).
Implicit Types (bp : blueprint_t (region_t := region_t)).

#[global] Instance roles_le_preorder : PreOrder (roles_le (region_t := region_t)).
Proof.
  split.
  - intros m. split; [done |]. eauto.
  - intros m1 m2 m3 [Hd12 H12] [Hd23 H23]. split; [set_solver |].
    intros p roles r x Hp Hr.
    destruct (H12 _ _ _ _ Hp Hr) as (roles' & Hp' & Hr'). eauto.
Qed.

Lemma roles_le_with_peer m p : roles_le m (with_peer p m).
Proof.
  split.
  - intros q. rewrite !elem_of_dom, lookup_with_peer. intros Hq.
    case_decide; subst; eauto.
  - intros q roles r x Hq Hr. rewrite lookup_with_peer.
    case_decide; subst; [rewrite Hq |]; eauto.
Qed.

Lemma roles_le_put_role m p r x : roles_le m (put_role p r x m).
Proof.
  split.
  - intros q. rewrite !elem_of_dom, lookup_put_role. intros Hq.
    case_decide; subst; eauto.
  - intros q roles r' y Hq Hr. rewrite lookup_put_role.
    case_decide; subst; [rewrite Hq |]; eauto.
    eexists; split; [done |]. simpl. rewrite lookup_std_map_insert.
    case_decide; subst; [by rewrite Hr | done].
Qed.

Lemma roles_le_fill_nothing m r : roles_le m (fill_nothing r m).
Proof.
  split.
  - intros q. rewrite !elem_of_dom, lookup_fill_nothing. intros [? ->]. by eexists.
  - intros q roles r' y Hq Hr. rewrite lookup_fill_nothing, Hq. simpl.
    eexists; split; [done |]. rewrite lookup_std_map_insert.
    case_decide; subst; [by rewrite Hr | done].
Qed.

Lemma one_primary_with_peer m p : one_primary m → one_primary (with_peer p m).
Proof.
  intros Hm p1 p2 roles1 roles2 r. rewrite !lookup_with_peer.
  assert (∀ q roles,
            (if decide (p = q) then Some (default ∅ (m !! p)) else m !! q) = Some roles →
            roles !! r = Some blueprint_role_primary → m !! q = Some roles) as Hold.
  { intros q roles Hq Hr. case_decide; simplify_eq; [|done].
    destruct (m !! q) as [old|] eqn:Hq; simpl in *; [done |].
    by rewrite lookup_empty in Hr. }
  intros H1 H2 Hr1 Hr2. eauto.
Qed.

(** Recording a role that is not primary makes no new primary. *)
Lemma one_primary_put_role m p r x :
  x ≠ blueprint_role_primary → one_primary m → one_primary (put_role p r x m).
Proof.
  intros Hx Hm p1 p2 roles1 roles2 r'. rewrite !lookup_put_role.
  assert (∀ q roles, (if decide (p = q)
              then Some (std_map_insert r x (default ∅ (m !! p))) else m !! q) = Some roles →
            roles !! r' = Some blueprint_role_primary →
            ∃ old, m !! q = Some old ∧ old !! r' = Some blueprint_role_primary) as Hold.
  { intros q roles Hq Hr. case_decide; simplify_eq; [|eauto].
    rewrite lookup_std_map_insert in Hr.
    destruct (m !! q) as [old|] eqn:Hq; simpl in *.
    - case_decide; simplify_eq; [|eauto].
      destruct (old !! r') eqn:?; simplify_eq/=; eauto.
    - rewrite !lookup_empty in Hr. case_decide; simplify_eq/=. }
  intros H1 H2 Hr1 Hr2.
  destruct (Hold _ _ H1 Hr1) as (? & ? & ?), (Hold _ _ H2 Hr2) as (? & ? & ?). eauto.
Qed.

(** Recording a primary for a region that nobody has a role for. *)
Lemma one_primary_put_primary m p r :
  (∀ q roles, m !! q = Some roles → roles !! r = None) →
  one_primary m → one_primary (put_role p r blueprint_role_primary m).
Proof.
  intros Hfree Hm p1 p2 roles1 roles2 r'. rewrite !lookup_put_role.
  assert (∀ q roles, (if decide (p = q)
              then Some (std_map_insert r blueprint_role_primary (default ∅ (m !! p)))
              else m !! q) = Some roles →
            roles !! r' = Some blueprint_role_primary →
            (r' = r ∧ q = p) ∨
            (r' ≠ r ∧ ∃ old, m !! q = Some old ∧ old !! r' = Some blueprint_role_primary))
    as Hold.
  { intros q roles Hq Hr. case_decide; simplify_eq.
    - rewrite lookup_std_map_insert in Hr. case_decide; simplify_eq; [by left |].
      right. split; [done |].
      destruct (m !! q) as [old|] eqn:Hq; simpl in *; [eauto |].
      by rewrite lookup_empty in Hr.
    - right. split; [|eauto]. intros ->. by rewrite (Hfree _ _ Hq) in Hr. }
  intros H1 H2 Hr1 Hr2.
  destruct (Hold _ _ H1 Hr1) as [[-> ->]|[? (? & ? & ?)]],
           (Hold _ _ H2 Hr2) as [[? ->]|[? (? & ? & ?)]]; try done. eauto.
Qed.

Lemma one_primary_fill_nothing m r : one_primary m → one_primary (fill_nothing r m).
Proof.
  intros Hm p1 p2 roles1 roles2 r'. rewrite !lookup_fill_nothing.
  assert (∀ q roles,
            std_map_insert r blueprint_role_nothing <$> m !! q = Some roles →
            roles !! r' = Some blueprint_role_primary →
            ∃ old, m !! q = Some old ∧ old !! r' = Some blueprint_role_primary) as Hold.
  { intros q roles Hq Hr. destruct (m !! q) as [old|]; simplify_eq/=.
    rewrite lookup_std_map_insert in Hr. case_decide; simplify_eq; [|eauto].
    destruct (old !! r') eqn:?; simplify_eq/=; eauto. }
  intros H1 H2 Hr1 Hr2.
  destruct (Hold _ _ H1 Hr1) as (? & ? & ?), (Hold _ _ H2 Hr2) as (? & ? & ?). eauto.
Qed.

Lemma roles_within_with_peer allowed regions m p :
  roles_within allowed regions m → roles_within allowed regions (with_peer p m).
Proof.
  intros Hm q roles r x. rewrite lookup_with_peer. intros Hq Hr.
  case_decide; simplify_eq; [|eauto].
  destruct (m !! q) as [old|] eqn:Hq; simpl in *; [eauto |].
  by rewrite lookup_empty in Hr.
Qed.

Lemma roles_within_put_role (allowed : blueprint_role_t → Prop)
    (regions : region_t → Prop) m p r x :
  allowed x → regions r →
  roles_within allowed regions m → roles_within allowed regions (put_role p r x m).
Proof.
  intros Hx Hr Hm q roles r' y. rewrite lookup_put_role. intros Hq Hy.
  case_decide; simplify_eq; [|eauto].
  rewrite lookup_std_map_insert in Hy.
  destruct (m !! q) as [old|] eqn:Hq; simpl in *.
  - case_decide; simplify_eq; [|eauto].
    destruct (old !! r') eqn:?; simplify_eq/=; eauto.
  - rewrite !lookup_empty in Hy. case_decide; simplify_eq/=. eauto.
Qed.

Lemma roles_within_weaken (allowed allowed' : blueprint_role_t → Prop)
    (regions regions' : region_t → Prop) m :
  (∀ x, allowed x → allowed' x) → (∀ r, regions r → regions' r) →
  roles_within allowed regions m → roles_within allowed' regions' m.
Proof. intros Ha Hr Hm q roles r x Hq Hx. destruct (Hm _ _ _ _ Hq Hx). eauto. Qed.

Lemma role_of_put_role bp p r x q r' :
  role_of {| peers_roles := put_role p r x (peers_roles bp) |} q r' =
    if decide (p = q ∧ r = r') then Some (default x (role_of bp p r)) else role_of bp q r'.
Proof.
  unfold role_of. simpl. rewrite lookup_put_role.
  destruct (decide (p = q)) as [->|]; simpl.
  - rewrite lookup_std_map_insert.
    destruct (decide (r = r')) as [->|].
    + rewrite decide_True by done. by destruct (peers_roles bp !! q).
    + rewrite decide_False by (by intros [_ ?]).
      destruct (peers_roles bp !! q); simpl; [done | by rewrite lookup_empty].
  - rewrite decide_False by (by intros [? _]). done.
Qed.

Lemma role_of_Some bp p r x :
  role_of bp p r = Some x ↔ ∃ roles, peers_roles bp !! p = Some roles ∧ roles !! r = Some x.
Proof.
  unfold role_of. destruct (peers_roles bp !! p) as [roles|]; simpl.
  - split; [by eauto |]. by intros (? & [= <-] & ?).
  - split; [done |]. by intros (? & ? & ?).
Qed.

Lemma roles_le_role_of bp (bp' : blueprint_t (region_t := region_t)) p r x :
  roles_le (peers_roles bp) (peers_roles bp') →
  role_of bp p r = Some x → role_of bp' p r = Some x.
Proof.
  intros [_ Hle]. rewrite !role_of_Some. intros (roles & Hp & Hr). eauto.
Qed.

End role_facts.

(** ** The translator and the loops of [construct_blueprint] *)

Section builder_facts.
Context {key_range_t region_t : Type} `{Countable region_t}.
Context (hash_region_t : key_range_t → region_t) (uuid_source : nat → uuid_u).
Context (info : table_replication_info_t (key_range_t := key_range_t)).
Context (nc : server_name_client_t).
Implicit Types (b : builder_t (region_t := region_t)).
Implicit Types (t : blueprint_id_translator_t) (w : world_t).

Lemma server_id_to_peer_id_spec server t w p t' w' :
  server_id_to_peer_id uuid_source server t w = (p, t', w') →
  server_id_to_peer_id_map t' !! server = Some p ∧
  server_id_to_peer_id_map t ⊆ server_id_to_peer_id_map t' ∧
  map_reads w' = map_reads w ∧
  (server_id_to_peer_id_map t !! server = Some p ∨
   server_id_to_peer_id_map t !! server = None ∧ p = PeerId (uuid_source (uuids_drawn w))).
Proof.
  unfold server_id_to_peer_id.
  destruct (server_id_to_peer_id_map t !! server) as [q|] eqn:Hs; simpl.
  - intros [= <- <- <-]. eauto.
  - intros [= <- <- <-]. simpl. rewrite lookup_insert_eq.
    split_and!; [done | by apply insert_subseteq | done | by right].
Qed.

Lemma director_peer_spec shard t w p t' w' :
  director_peer uuid_source nc shard t w = (p, t', w') →
  server_id_to_peer_id_map t ⊆ server_id_to_peer_id_map t' ∧
  map_reads w' = map_reads w ∧
  (is_Some (get_name_for_server_id nc (director shard)) →
     server_id_to_peer_id_map t' !! director shard = Some p) ∧
  (get_name_for_server_id nc (director shard) = None → ∃ k, p = PeerId (uuid_source k)).
Proof.
  unfold director_peer.
  destruct (get_name_for_server_id nc (director shard)) as [name|] eqn:Hname; simpl.
  - intros (? & ? & ? & _)%server_id_to_peer_id_spec.
    split_and!; [done | done | done | done].
  - intros [= <- <- <-]. split_and!; [done | done | by intros [] | eauto].
Qed.

Lemma put_primary_eq i shard b r :
  shard_region hash_region_t info i = Some r →
  put_primary hash_region_t uuid_source nc info i shard b =
    let '(peer, t, w) := director_peer uuid_source nc shard (trans b) (world b) in
    Some {| trans := t;
            blueprint := {| peers_roles :=
              put_role peer r blueprint_role_primary (peers_roles (blueprint b)) |};
            world := w |}.
Proof.
  intros Hr. unfold put_primary, director_peer.
  destruct (match get_name_for_server_id nc (director shard) with
            | Some _ => _ | None => _ end) as [[peer t] w].
  rewrite add_peer_if_new_eq. simpl. rewrite Hr. simpl.
  by rewrite add_role_eq.
Qed.

Lemma put_secondary_eq i shard server b r :
  shard_region hash_region_t info i = Some r →
  put_secondary hash_region_t uuid_source nc info i shard server b =
    match get_name_for_server_id nc server with
    | None => Some b
    | Some _ =>
        let '(peer, t, w) := server_id_to_peer_id uuid_source server (trans b) (world b) in
        Some {| trans := t;
                blueprint := {| peers_roles :=
                  if decide (server ≠ director shard)
                  then put_role peer r blueprint_role_secondary (peers_roles (blueprint b))
                  else with_peer peer (peers_roles (blueprint b)) |};
                world := w |}
    end.
Proof.
  intros Hr. unfold put_secondary.
  destruct (get_name_for_server_id nc server); [|done].
  destruct (server_id_to_peer_id _ _ _ _) as [[peer t] w].
  rewrite add_peer_if_new_eq. simpl. case_decide; simpl; [|done].
  rewrite Hr. simpl. by rewrite add_role_eq.
Qed.

Lemma put_known_peer_eq server b :
  put_known_peer uuid_source server b =
    let '(peer, t, w) := server_id_to_peer_id uuid_source server (trans b) (world b) in
    Some {| trans := t;
            blueprint := {| peers_roles := with_peer peer (peers_roles (blueprint b)) |};
            world := w |}.
Proof.
  unfold put_known_peer. destruct (server_id_to_peer_id _ _ _ _) as [[peer t] w].
  by rewrite add_peer_if_new_eq.
Qed.

Lemma put_nothings_eq i shard (bp : blueprint_t (region_t := region_t)) r :
  shard_region hash_region_t info i = Some r →
  put_nothings hash_region_t info i shard bp =
    Some {| peers_roles := fill_nothing r (peers_roles bp) |}.
Proof.
  intros Hr. unfold put_nothings. rewrite Hr. simpl.
  destruct (for_each_put_nothing r
              (ascending peer_uuid (elements (dom (peers_roles bp)))) bp)
    as (bp' & -> & Hbp').
  f_equal. destruct bp' as [m']. f_equal. simpl in *.
  apply map_eq. intros q. rewrite Hbp', lookup_fill_nothing.
  case_decide as Hq; [done |].
  rewrite elem_of_ascending, elem_of_elements, not_elem_of_dom in Hq.
  by rewrite Hq.
Qed.

#[global] Instance builder_le_preorder : PreOrder (builder_le (region_t := region_t)).
Proof.
  split.
  - intros b. by split_and!.
  - intros b1 b2 b3 (? & ? & ?) (? & ? & ?).
    split_and!; [by etrans | by etrans | congruence].
Qed.

Lemma director_done_le b b' i :
  builder_le b b' →
  director_done hash_region_t uuid_source info nc b i →
  director_done hash_region_t uuid_source info nc b' i.
Proof.
  intros (Ht & Hm & _) Hdone shard r Hshard Hr.
  destruct (Hdone shard r Hshard Hr) as (dpeer & Hrole & Hnamed & Hremoved).
  exists dpeer. split_and!; [by eapply roles_le_role_of | | done].
  intros Hname. eapply lookup_weaken; eauto.
Qed.

Lemma replica_done_le b b' i server :
  builder_le b b' →
  replica_done hash_region_t info nc b i server →
  replica_done hash_region_t info nc b' i server.
Proof.
  intros (Ht & Hm & _) Hdone r Hr Hname.
  destruct (Hdone r Hr Hname) as (peer & x & Hpeer & Hrole & Hx).
  exists peer, x. split_and!; [by eapply lookup_weaken | by eapply roles_le_role_of | done].
Qed.

End builder_facts.

Section construct_blueprint_correct.
Context {key_range_t region_t : Type} `{Countable region_t}.
Context (hash_region_t : key_range_t → region_t) (uuid_source : nat → uuid_u).
Context (info : table_replication_info_t (key_range_t := key_range_t)).
Context (nc : server_name_client_t).
(** The precondition that [construct_blueprint] asserts. *)
Hypothesis shards_match :
  length (shards (config info)) = num_shards (shard_scheme info).
(** The scheme is a partition: no two shards have the same range. *)
Hypothesis ranges_distinct :
  NoDup (hash_region_t <$> shard_ranges (shard_scheme info)).

Implicit Types (b : builder_t (region_t := region_t)).
Implicit Types (snap : gmap server_id_t peer_id_t).

Local Abbreviation region_at := (shard_region hash_region_t info).
Local Abbreviation dir_done := (director_done hash_region_t uuid_source info nc).
Local Abbreviation rep_done := (replica_done hash_region_t info nc).
Local Abbreviation inv := (builder_inv hash_region_t info).
Local Abbreviation inv_final := (builder_final hash_region_t info).

Lemma shard_region_lookup i :
  region_at i = (hash_region_t <$> shard_ranges (shard_scheme info)) !! i.
Proof. unfold shard_region, get_shard_range. by rewrite list_lookup_fmap. Qed.

Lemma shard_has_region i shard :
  shards (config info) !! i = Some shard → ∃ r, region_at i = Some r.
Proof using Type + shards_match.
  intros Hi%lookup_lt_Some. rewrite shards_match in Hi. unfold num_shards in Hi.
  destruct (lookup_lt_is_Some_2 (shard_ranges (shard_scheme info)) i Hi) as [kr Hkr].
  exists (hash_region_t kr). unfold shard_region, get_shard_range. by rewrite Hkr.
Qed.

Lemma region_has_shard i r :
  region_at i = Some r → i < length (shards (config info)).
Proof using Type + shards_match.
  rewrite shard_region_lookup. intros Hi%lookup_lt_Some.
  rewrite length_fmap in Hi. by rewrite shards_match.
Qed.

Lemma shard_region_inj i j r : region_at i = Some r → region_at j = Some r → i = j.
Proof using All.
  rewrite !shard_region_lookup. by apply NoDup_lookup.
Qed.

(** *** "Put the primaries in the blueprint" *)
Lemma put_primaries_spec snap b0 :
  server_id_to_peer_id_map (trans b0) = snap →
  peers_roles (blueprint b0) = ∅ →
  ∃ b1, for_each_indexed (put_primary hash_region_t uuid_source nc info) 0
          (shards (config info)) b0 = Some b1 ∧
    inv snap b1 ∧ builder_le b0 b1 ∧ ∀ i, dir_done b1 i.
Proof using All.
  intros Ht0 Hsnap.
  destruct (for_each_indexed_inv
    (λ i b, inv snap b ∧ builder_le b0 b ∧
            roles_within (λ x, x = blueprint_role_primary)
              (is_shard_region_below hash_region_t info i) (peers_roles (blueprint b)) ∧
            ∀ j, j < i → dir_done b j)
    (put_primary hash_region_t uuid_source nc info) (shards (config info)) 0 b0)
    as (b1 & Hrun & Hinv & Hle & _ & Hdone).
  - split_and!.
    + split_and!; [by rewrite Ht0 | |]; rewrite Hsnap; by intros ??????; simplify_map_eq.
    + done.
    + rewrite Hsnap. by intros ??????; simplify_map_eq.
    + lia.
  - intros k shard b Hshard ((Hsnapb & Hone & Hwithin) & Hle & Hbelow & Hdone). simpl in *.
    destruct (shard_has_region _ _ Hshard) as [r Hr].
    rewrite (put_primary_eq _ _ _ _ _ _ _ r Hr).
    destruct (director_peer _ _ _ _ _) as [[peer t] w] eqn:Hpeer.
    apply director_peer_spec in Hpeer as (Htrans & Hreads & Hnamed & Hremoved).
    eexists. split; [done |].
    assert (∀ q roles, peers_roles (blueprint b) !! q = Some roles → roles !! r = None)
      as Hfree.
    { intros q roles Hq. destruct (roles !! r) as [x|] eqn:Hx; [|done].
      destruct (Hbelow _ _ _ _ Hq Hx) as (_ & j & Hj & Hrj).
      pose proof (shard_region_inj _ _ _ Hr Hrj). lia. }
    set (b' := {| trans := t; blueprint := _; world := w |}).
    assert (builder_le b b') as Hbb'.
    { split_and!; [done | apply roles_le_put_role | done]. }
    split_and!.
    + split_and!; simpl.
      * by etrans.
      * by apply one_primary_put_primary.
      * apply roles_within_put_role; [done | by exists k | done].
    + by etrans.
    + simpl. apply roles_within_put_role; [done | exists k; split; [lia | done] |].
      eapply roles_within_weaken; [| |done]; [done |].
      intros r' (j & ? & ?). exists j. split; [lia | done].
    + intros j Hj. destruct (decide (j = k)) as [->|].
      * intros shard' r' Hshard' Hr'. simplify_eq. exists peer.
        split_and!; [|done..]. unfold b'. simpl.
        rewrite role_of_put_role, decide_True by done.
        replace (role_of (blueprint b) peer r) with (@None blueprint_role_t); [done |].
        symmetry. unfold role_of.
        destruct (peers_roles (blueprint b) !! peer) as [roles|] eqn:Hq; simpl; eauto.
      * eapply director_done_le; [done |]. apply Hdone. lia.
  - simpl in *. exists b1. split_and!; [done..|].
    intros i. destruct (decide (i < length (shards (config info)))); [by apply Hdone |].
    intros shard r Hshard%lookup_lt_Some. lia.
Qed.

(** *** "Put the secondaries in the blueprint" *)
Lemma put_secondary_spec snap i shard server b :
  shards (config info) !! i = Some shard →
  inv snap b → (∀ j, dir_done b j) →
  ∃ b', put_secondary hash_region_t uuid_source nc info i shard server b = Some b' ∧
    inv snap b' ∧ builder_le b b' ∧ rep_done b' i server.
Proof using All.
  intros Hshard (Hsnap & Hone & Hwithin) Hdir.
  destruct (shard_has_region _ _ Hshard) as [r Hr].
  rewrite (put_secondary_eq _ _ _ _ _ _ _ _ r Hr).
  destruct (get_name_for_server_id nc server) as [name|] eqn:Hname.
  2:{ exists b. split_and!; [done | done | done |]. intros r' _ [? Hn]. by rewrite Hname in Hn. }
  destruct (server_id_to_peer_id _ _ _ _) as [[peer t] w] eqn:Hpeer.
  apply server_id_to_peer_id_spec in Hpeer as (Hlook & Htrans & Hreads & _).
  eexists. split; [done |].
  set (b' := {| trans := t; blueprint := _; world := w |}).
  assert (builder_le b b') as Hbb'.
  { split_and!; [done | | done]. simpl.
    case_decide; [apply roles_le_put_role | apply roles_le_with_peer]. }
  split_and!; [| done |].
  - split_and!; simpl.
    + by etrans.
    + case_decide; [by apply one_primary_put_role | by apply one_primary_with_peer].
    + case_decide; [|by apply roles_within_with_peer].
      apply roles_within_put_role; [done | by exists i | done].
  - intros r' Hr' _. simplify_eq. unfold b'. simpl.
    destruct (decide (server ≠ director shard)) as [Hne|Heq].
    + exists peer. rewrite role_of_put_role, decide_True by done.
      destruct (role_of (blueprint b) peer r) as [x|] eqn:Hx; simpl.
      * exists x. split_and!; [done | done |].
        apply role_of_Some in Hx as (roles & Hq & Hx).
        by destruct (Hwithin _ _ _ _ Hq Hx).
      * by exists blueprint_role_secondary.
    + apply dec_stable in Heq. subst server.
      destruct (Hdir i shard r Hshard Hr) as (dpeer & Hrole & Hnamed & _).
      assert (peer = dpeer) as ->.
      { pose proof (lookup_weaken _ _ _ _ (Hnamed (mk_is_Some _ _ Hname)) Htrans).
        congruence. }
      exists dpeer, blueprint_role_primary. split_and!; [done | | done].
      eapply roles_le_role_of; [|done]. apply roles_le_with_peer.
Qed.

Lemma put_secondaries_spec snap b1 :
  inv snap b1 → (∀ j, dir_done b1 j) →
  ∃ b2, for_each_indexed (put_secondaries hash_region_t uuid_source nc info) 0
          (shards (config info)) b1 = Some b2 ∧
    inv snap b2 ∧ builder_le b1 b2 ∧ (∀ j, dir_done b2 j) ∧
    ∀ j shard server, shards (config info) !! j = Some shard →
      server ∈ replicas shard → rep_done b2 j server.
Proof using All.
  intros Hinv1 Hdir1.
  destruct (for_each_indexed_inv
    (λ i b, inv snap b ∧ builder_le b1 b ∧ (∀ j, dir_done b j) ∧
            ∀ j shard server, j < i → shards (config info) !! j = Some shard →
              server ∈ replicas shard → rep_done b j server)
    (put_secondaries hash_region_t uuid_source nc info) (shards (config info)) 0 b1)
    as (b2 & Hrun & Hinv & Hle & Hdir & Hrep).
  - split_and!; [done | done | done |]. intros; lia.
  - intros k shard b Hshard (Hinv & Hle & Hdir & Hrep). simpl in *.
    unfold put_secondaries.
    destruct (for_each_establish builder_le
      (λ b, inv snap b ∧ ∀ j, dir_done b j)
      (λ server b, rep_done b k server)
      (put_secondary hash_region_t uuid_source nc info k shard)
      (std_set_iter (replicas shard)) b)
      as (b' & -> & (Hinv' & Hdir') & Hle' & Hrep').
    + done.
    + intros server a a' ??. by eapply replica_done_le.
    + intros server a _ (Hinva & Hdira).
      destruct (put_secondary_spec snap k shard server a) as (a' & -> & ? & ? & ?);
        [done..|].
      exists a'. split_and!; [done | done | | done | done].
      intros j. by eapply director_done_le.
    + exists b'. split_and!; [done | done | by etrans | done |].
      intros j shard' server Hj Hshard' Hserver.
      destruct (decide (j = k)) as [->|].
      * simplify_eq. apply Hrep'. by apply elem_of_std_set_iter.
      * eapply replica_done_le; [done |]. eapply Hrep; [|done..]. lia.
  - simpl in *. exists b2. split_and!; [done..|].
    intros j shard server Hshard. eapply Hrep; [|done]. by eapply lookup_lt_Some.
Qed.

(** *** "Every known peer appears in the blueprint" *)
Lemma put_known_peers_spec snap (keys : list server_id_t) b :
  inv snap b →
  ∃ b3, for_each (put_known_peer uuid_source) keys b = Some b3 ∧
    inv snap b3 ∧ builder_le b b3 ∧
    ∀ server p, server ∈ keys → snap !! server = Some p →
      is_Some (peers_roles (blueprint b3) !! p).
Proof.
  intros Hinv.
  destruct (for_each_establish builder_le (inv snap)
    (λ server b, ∀ p, snap !! server = Some p → is_Some (peers_roles (blueprint b) !! p))
    (put_known_peer uuid_source) keys b) as (b3 & Hrun & Hinv3 & Hle & Hknown).
  - done.
  - intros server a a' Ha (_ & [Hdom _] & _) p Hp.
    apply elem_of_dom, Hdom, elem_of_dom. eauto.
  - intros server a _ (Hsnap & Hone & Hwithin). rewrite put_known_peer_eq.
    destruct (server_id_to_peer_id _ _ _ _) as [[peer t] w] eqn:Hpeer.
    apply server_id_to_peer_id_spec in Hpeer as (Hlook & Htrans & Hreads & _).
    eexists. split; [done |]. split_and!.
    + split_and!; simpl;
        [by etrans | by apply one_primary_with_peer | by apply roles_within_with_peer].
    + split_and!; [done | apply roles_le_with_peer | done].
    + intros p Hp. simpl.
      assert (peer = p) as ->.
      { pose proof (lookup_weaken _ _ _ _ Hp Hsnap) as Hp'.
        pose proof (lookup_weaken _ _ _ _ Hp' Htrans). congruence. }
      rewrite lookup_with_peer, decide_True by done. by eexists.
  - exists b3. split_and!; [done..|]. intros server p ??. by eapply Hknown.
Qed.

(** *** "If a peer's role isn't primary or secondary, make it nothing" *)
Lemma roles_within_fill_nothing (regions : region_t → Prop) r
    (m : gmap peer_id_t (gmap region_t blueprint_role_t)) :
  regions r →
  roles_within (λ _, True) regions m → roles_within (λ _, True) regions (fill_nothing r m).
Proof.
  intros Hr Hm q roles r' x. rewrite lookup_fill_nothing. intros Hq Hx.
  destruct (m !! q) as [old|] eqn:Hold; simplify_eq/=.
  rewrite lookup_std_map_insert in Hx. case_decide; simplify_eq; [done |].
  destruct (Hm _ _ _ _ Hold Hx). done.
Qed.

Lemma put_nothings_spec (bp3 : blueprint_t (region_t := region_t)) :
  one_primary (peers_roles bp3) →
  roles_within (λ _, True) (is_shard_region hash_region_t info) (peers_roles bp3) →
  ∃ bp4, for_each_indexed (put_nothings hash_region_t info) 0
           (shards (config info)) bp3 = Some bp4 ∧
    roles_le (peers_roles bp3) (peers_roles bp4) ∧
    one_primary (peers_roles bp4) ∧
    ∀ p roles, peers_roles bp4 !! p = Some roles →
      ∀ r, is_Some (roles !! r) ↔ is_shard_region hash_region_t info r.
Proof using All.
  intros Hone Hwithin.
  destruct (for_each_indexed_inv
    (λ i (bp : blueprint_t (region_t := region_t)),
       roles_le (peers_roles bp3) (peers_roles bp) ∧ one_primary (peers_roles bp) ∧
       roles_within (λ _, True) (is_shard_region hash_region_t info) (peers_roles bp) ∧
       ∀ p roles j r, peers_roles bp !! p = Some roles → j < i → region_at j = Some r →
         is_Some (roles !! r))
    (put_nothings hash_region_t info) (shards (config info)) 0 bp3)
    as (bp4 & Hrun & Hle & Hone4 & Hwithin4 & Hcov).
  - split_and!; [done | done | done |]. intros; lia.
  - intros k shard bp Hshard (Hle & Honek & Hwithink & Hcov). simpl in *.
    destruct (shard_has_region _ _ Hshard) as [r Hr].
    rewrite (put_nothings_eq _ _ _ _ _ r Hr).
    eexists. split; [done |]. simpl. split_and!.
    + etrans; [done |]. apply roles_le_fill_nothing.
    + by apply one_primary_fill_nothing.
    + apply roles_within_fill_nothing; [by exists k | done].
    + intros p roles j r'. rewrite lookup_fill_nothing. intros Hp Hj Hr'.
      destruct (peers_roles bp !! p) as [old|] eqn:Hold; simplify_eq/=.
      rewrite lookup_std_map_insert. case_decide; [by eexists |].
      eapply Hcov; [done | | done].
      destruct (decide (j = k)) as [->|]; [congruence | lia].
  - simpl in *. exists bp4. split_and!; [done..|].
    intros p roles Hp r. split.
    + intros [x Hx]. by destruct (Hwithin4 _ _ _ _ Hp Hx).
    + intros [j Hj]. eapply Hcov; [done | | done]. by eapply region_has_shard.
Qed.

(** *** The whole call *)
Lemma construct_blueprint_locals_spec w :
  ∃ b, construct_blueprint_locals hash_region_t uuid_source info nc w = Some b ∧
    construct_blueprint hash_region_t uuid_source info nc w =
      Some (blueprint b, world b) ∧
    inv_final (server_id_to_peer_id_map_at nc (map_reads w)) b ∧
    map_reads (world b) = 2 + map_reads w ∧
    (∀ j, dir_done b j) ∧
    (∀ j shard server, shards (config info) !! j = Some shard →
       server ∈ replicas shard → rep_done b j server) ∧
    (∀ server p,
       is_Some (server_id_to_peer_id_map_at nc (S (map_reads w)) !! server) →
       server_id_to_peer_id_map_at nc (map_reads w) !! server = Some p →
       is_Some (peers_roles (blueprint b) !! p)).
Proof using All.
  unfold construct_blueprint, construct_blueprint_locals, blueprint_id_translator_new.
  simpl. set (snap := server_id_to_peer_id_map_at nc (map_reads w)).
  set (b0 := {| trans := _; blueprint := _; world := _ |}).
  destruct (put_primaries_spec snap b0) as (b1 & -> & Hinv1 & Hle1 & Hdir1); [done.. |].
  simpl.
  destruct (put_secondaries_spec snap b1) as (b2 & -> & Hinv2 & Hle2 & Hdir2 & Hrep2);
    [done.. |].
  simpl. set (b2' := {| trans := trans b2; blueprint := blueprint b2; world := _ |}).
  destruct (put_known_peers_spec snap
    (std_map_keys (server_id_to_peer_id_map_at nc (map_reads (world b2)))) b2')
    as (b3 & -> & (Hsnap3 & Hone3 & Hwithin3) & Hle3 & Hknown); [done |].
  simpl.
  destruct (put_nothings_spec (blueprint b3)) as (bp4 & -> & Hle4 & Hone4 & Hcov4).
  { done. }
  { eapply roles_within_weaken; [| |done]; done. }
  simpl. set (b4 := {| trans := trans b3; blueprint := bp4; world := world b3 |}).
  assert (builder_le b3 b4) as Hle34 by (by split_and!).
  assert (map_reads (world b2) = S (map_reads w)) as Hreads2.
  { destruct Hle1 as (_ & _ & Hr1), Hle2 as (_ & _ & Hr2). by rewrite <-Hr2, <-Hr1. }
  assert (guarantee_valid bp4 = Some ()) as ->.
  { unfold guarantee_valid. rewrite decide_True; [done |]. split.
    - intros p1 roles1 Hp1 p2 roles2 Hp2. apply set_eq. intros r.
      rewrite !elem_of_dom, (Hcov4 _ _ Hp1), (Hcov4 _ _ Hp2). done.
    - intros p1 roles1 Hp1 p2 roles2 Hp2 r x Hx -> Hr. by eapply Hone4. }
  simpl. exists b4. split_and!; [done | done | | | | |].
  - split_and!; [| done | done]. by destruct Hle3 as (? & _).
  - destruct Hle3 as (_ & _ & Hr3). simpl in *. by rewrite <-Hr3, Hreads2.
  - intros j. eapply director_done_le; [done |]. eapply director_done_le; [done |].
    exact (Hdir2 j).
  - intros j shard server Hshard Hserver.
    eapply replica_done_le; [done |]. eapply replica_done_le; [done |].
    exact (Hrep2 j shard server Hshard Hserver).
  - intros server p Hkey Hp. rewrite <-Hreads2 in Hkey.
    apply elem_of_dom. destruct Hle34 as (_ & [Hdom _] & _). apply Hdom, elem_of_dom.
    eapply Hknown; [by apply elem_of_std_map_keys | done].
Qed.

End construct_blueprint_correct.

(** ** Blueprint construction: the claims *)

Section blueprint_claims.
Context {key_range_t region_t : Type} `{Countable region_t}.
Context (hash_region_t : key_range_t → region_t) (uuid_source : nat → uuid_u).
Implicit Types (info : table_replication_info_t (key_range_t := key_range_t)).
Implicit Types (nc : server_name_client_t) (w : world_t).

(** C1: for a configuration with as many shard entries as the scheme has
    shards, a scheme whose ranges are pairwise distinct, and a topology
    snapshot that stays as it is during the call, [construct_blueprint]
    returns a blueprint in which (i) every peer has a role for every shard
    range, (ii) no range has two primaries, and (iii) every peer of the
    snapshot's server-to-peer map is present. *)
Theorem construct_blueprint_invariants info nc w :
  length (shards (config info)) = num_shards (shard_scheme info) →
  NoDup (hash_region_t <$> shard_ranges (shard_scheme info)) →
  server_id_to_peer_id_map_at nc (S (map_reads w)) =
    server_id_to_peer_id_map_at nc (map_reads w) →
  ∃ bp w', construct_blueprint hash_region_t uuid_source info nc w = Some (bp, w') ∧
    (∀ p i, is_Some (peers_roles bp !! p) → i < num_shards (shard_scheme info) →
       ∃ r, shard_region hash_region_t info i = Some r ∧ is_Some (role_of bp p r)) ∧
    (∀ r p1 p2, role_of bp p1 r = Some blueprint_role_primary →
       role_of bp p2 r = Some blueprint_role_primary → p1 = p2) ∧
    (∀ server p, server_id_to_peer_id_map_at nc (map_reads w) !! server = Some p →
       is_Some (peers_roles bp !! p)).
Proof.
  intros Hlen Hdistinct Hstable.
  destruct (construct_blueprint_locals_spec hash_region_t uuid_source info nc
              Hlen Hdistinct w)
    as (b & _ & Hrun & (_ & Hone & Hcov) & _ & _ & _ & Hknown).
  exists (blueprint b), (world b). split_and!; [done | | |].
  - intros p i [roles Hp] Hi.
    destruct (lookup_lt_is_Some_2 (shard_ranges (shard_scheme info)) i Hi) as [kr Hkr].
    exists (hash_region_t kr).
    assert (shard_region hash_region_t info i = Some (hash_region_t kr)) as Hr.
    { unfold shard_region, get_shard_range. by rewrite Hkr. }
    split; [done |]. unfold role_of. rewrite Hp. simpl.
    apply (Hcov _ _ Hp). by exists i.
  - intros r p1 p2 (roles1 & ? & ?)%role_of_Some (roles2 & ? & ?)%role_of_Some.
    by eapply Hone.
  - intros server p Hp. eapply Hknown; [|done]. rewrite Hstable. by eexists.
Qed.

(** C5: in the blueprint that comes out, every replica of a shard that was
    not permanently removed has its resolved peer registered, and that
    peer is recorded as secondary for the shard's range, except when it
    is the director's resolved peer, which stays primary. *)
Theorem secondaries_recorded info nc w :
  length (shards (config info)) = num_shards (shard_scheme info) →
  NoDup (hash_region_t <$> shard_ranges (shard_scheme info)) →
  ∃ b, construct_blueprint_locals hash_region_t uuid_source info nc w = Some b ∧
    construct_blueprint hash_region_t uuid_source info nc w =
      Some (blueprint b, world b) ∧
    ∀ i shard region,
      shards (config info) !! i = Some shard →
      shard_region hash_region_t info i = Some region →
      ∃ director_peer,
        role_of (blueprint b) director_peer region = Some blueprint_role_primary ∧
        (is_Some (get_name_for_server_id nc (director shard)) →
           server_id_to_peer_id_map (trans b) !! director shard = Some director_peer) ∧
        (get_name_for_server_id nc (director shard) = None →
           ∃ k, director_peer = PeerId (uuid_source k)) ∧
        ∀ server, server ∈ replicas shard →
          is_Some (get_name_for_server_id nc server) →
          ∃ peer,
            server_id_to_peer_id_map (trans b) !! server = Some peer ∧
            is_Some (peers_roles (blueprint b) !! peer) ∧
            role_of (blueprint b) peer region =
              Some (if decide (peer = director_peer)
                    then blueprint_role_primary else blueprint_role_secondary).
Proof.
  intros Hlen Hdistinct.
  destruct (construct_blueprint_locals_spec hash_region_t uuid_source info nc
              Hlen Hdistinct w)
    as (b & Hlocals & Hrun & (_ & Hone & _) & _ & Hdir & Hrep & _).
  exists b. split_and!; [done | done |].
  intros i shard region Hshard Hregion.
  destruct (Hdir i shard region Hshard Hregion) as (dpeer & Hprimary & Hnamed & Hremoved).
  exists dpeer. split_and!; [done | done | done |].
  intros server Hserver Hname.
  destruct (Hrep i shard server Hshard Hserver region Hregion Hname)
    as (peer & x & Hpeer & Hrole & Hx).
  exists peer. split_and!; [done | |].
  - apply role_of_Some in Hrole as (roles & -> & _). by eexists.
  - case_decide as Hdp; [subst; congruence |].
    destruct x; [| done | done].
    destruct Hdp.
    apply role_of_Some in Hrole as (roles1 & ? & ?).
    apply role_of_Some in Hprimary as (roles2 & ? & ?).
    by eapply Hone.
Qed.

End blueprint_claims.

(** ** The handle's cell and predicates: the claims *)

Section handle_claims.
Context {region_t : Type} `{Countable region_t}.
Implicit Types (this : watchable_and_reactor_t (region_t := region_t)).

(** C6: pushing a plan into a handle's blueprint cell leaves the cell as it
    is, with no notification, when the plan equals the one held; otherwise
    the cell holds the new plan and one notification has fired. *)
Theorem set_blueprint_effect (new_plan : blueprint_t (region_t := region_t))
    (cell : watchable_variable_t (blueprint_t (region_t := region_t))) :
  apply_atomic_op (op_closure_apply new_plan) cell =
    if decide (value cell = new_plan) then cell
    else {| value := new_plan; publications := S (publications cell) |}.
Proof.
  destruct cell as [held n]. unfold apply_atomic_op, op_closure_apply. simpl.
  case_bool_decide as Hne; case_decide as Heq; congruence.
Qed.

(** C10: the empty ack set is refused and every set with a peer in it is
    accepted, whatever the handle holds; every peer gets hard durability. *)
Theorem ack_set_acceptable_when_nonempty this (peer : peer_id_t) (acks : gset peer_id_t) :
  is_acceptable_ack_set this ∅ = false ∧
  is_acceptable_ack_set this ({[ peer ]} ∪ acks) = true ∧
  get_write_durability this peer = write_durability_HARD.
Proof.
  unfold is_acceptable_ack_set. split_and!; [| | done].
  - by rewrite bool_decide_eq_true_2.
  - rewrite bool_decide_eq_false_2; [done |]. set_solver.
Qed.

End handle_claims.

(** ** Reads of the live server-to-peer map *)

Section reads.
Context {key_range_t region_t : Type} `{Countable region_t}.
Context (hash_region_t : key_range_t → region_t) (uuid_source : nat → uuid_u).
Implicit Types (info : table_replication_info_t (key_range_t := key_range_t)).
Implicit Types (nc : server_name_client_t) (w : world_t).
Implicit Types (b : builder_t (region_t := region_t)).

Lemma for_each_keeps {A St B} (f : St → B) (body : A → St → option St) l s s' :
  (∀ x a a', body x a = Some a' → f a' = f a) →
  for_each body l s = Some s' → f s' = f s.
Proof.
  intros Hbody. revert s. induction l as [|x l IH]; intros s; simpl.
  - by intros [= <-].
  - destruct (body x s) as [a|] eqn:Ha; [simpl | done].
    intros Hrun. rewrite (IH _ Hrun). eauto.
Qed.

Lemma for_each_indexed_keeps {A St B} (f : St → B) (body : nat → A → St → option St)
    l i s s' :
  (∀ k x a a', body k x a = Some a' → f a' = f a) →
  for_each_indexed body i l s = Some s' → f s' = f s.
Proof.
  intros Hbody. revert i s. induction l as [|x l IH]; intros i s; simpl.
  - by intros [= <-].
  - destruct (body i x s) as [a|] eqn:Ha; [simpl | done].
    intros Hrun. rewrite (IH _ _ Hrun). eauto.
Qed.

Lemma server_id_to_peer_id_reads server t w :
  map_reads (server_id_to_peer_id uuid_source server t w).2 = map_reads w.
Proof.
  unfold server_id_to_peer_id. by destruct (server_id_to_peer_id_map t !! server).
Qed.

Lemma put_primary_reads nc info i shard b b' :
  put_primary hash_region_t uuid_source nc info i shard b = Some b' →
  map_reads (world b') = map_reads (world b).
Proof.
  unfold put_primary.
  pose proof (server_id_to_peer_id_reads (director shard) (trans b) (world b)) as Hreads.
  destruct (get_name_for_server_id nc (director shard));
    [destruct (server_id_to_peer_id _ _ _ _) as [[peer t] w] | simpl];
    intros Hrun; repeat (apply bind_Some in Hrun as (? & _ & Hrun)); by simplify_eq/=.
Qed.

Lemma put_secondary_reads nc info i shard server b b' :
  put_secondary hash_region_t uuid_source nc info i shard server b = Some b' →
  map_reads (world b') = map_reads (world b).
Proof.
  unfold put_secondary.
  pose proof (server_id_to_peer_id_reads server (trans b) (world b)) as Hreads.
  destruct (get_name_for_server_id nc server); [|by intros [= <-]].
  destruct (server_id_to_peer_id _ _ _ _) as [[peer t] w].
  intros Hrun; repeat (apply bind_Some in Hrun as (? & _ & Hrun)); by simplify_eq/=.
Qed.

Lemma put_known_peer_reads server b b' :
  put_known_peer uuid_source server b = Some b' →
  map_reads (world b') = map_reads (world b).
Proof.
  unfold put_known_peer.
  pose proof (server_id_to_peer_id_reads server (trans b) (world b)) as Hreads.
  destruct (server_id_to_peer_id _ _ _ _) as [[peer t] w].
  intros Hrun; repeat (apply bind_Some in Hrun as (? & _ & Hrun)); by simplify_eq/=.
Qed.

(** The read that follows the two loops over the shards is the second. *)
Lemma secondaries_reads nc info b0 b1 b2 :
  for_each_indexed (put_primary hash_region_t uuid_source nc info) 0
    (shards (config info)) b0 = Some b1 →
  for_each_indexed (put_secondaries hash_region_t uuid_source nc info) 0
    (shards (config info)) b1 = Some b2 →
  map_reads (world b2) = map_reads (world b0).
Proof.
  intros Hrun1 Hrun2.
  rewrite <-(for_each_indexed_keeps (λ b, map_reads (world b)) _ _ _ _ _
               (λ k x a a', put_primary_reads nc info k x a a') Hrun1).
  apply (for_each_indexed_keeps (λ b, map_reads (world b)) _ _ _ _ _) in Hrun2; [done |].
  intros k shard a a' Ha. unfold put_secondaries in Ha.
  apply (for_each_keeps (λ b, map_reads (world b))) in Ha; [done |].
  intros server c c'. apply put_secondary_reads.
Qed.

Lemma construct_blueprint_locals_reads nc info w b :
  construct_blueprint_locals hash_region_t uuid_source info nc w = Some b →
  map_reads (world b) = 2 + map_reads w.
Proof.
  unfold construct_blueprint_locals, blueprint_id_translator_new. simpl.
  intros Hrun.
  apply bind_Some in Hrun as (b1 & Hrun1 & Hrun).
  apply bind_Some in Hrun as (b2 & Hrun2 & Hrun).
  pose proof (secondaries_reads _ _ _ _ _ Hrun1 Hrun2) as Hreads2. simpl in Hreads2.
  apply bind_Some in Hrun as (b3 & Hrun3 & Hrun).
  apply bind_Some in Hrun as (bp4 & Hrun4 & Hrun). simplify_eq/=.
  apply (for_each_keeps (λ b, map_reads (world b))) in Hrun3;
    [| intros ???; apply put_known_peer_reads].
  simpl in Hrun3. lia.
Qed.

(** C4, as the code has it: every resolution goes through the translator,
    whose map is the one snapshot read at the start of the call; the call
    reads the live map a second time, after the secondaries are in, and
    takes from that read only which servers to register.  So two name
    clients that agree on the names, on the first read and on the servers
    of the second read give the same result, and a call that returns has
    read the live map exactly twice. *)
Theorem construct_blueprint_reads info nc nc' w :
  (∀ server, get_name_for_server_id nc server = get_name_for_server_id nc' server) →
  server_id_to_peer_id_map_at nc (map_reads w) =
    server_id_to_peer_id_map_at nc' (map_reads w) →
  dom (server_id_to_peer_id_map_at nc (S (map_reads w))) =
    dom (server_id_to_peer_id_map_at nc' (S (map_reads w))) →
  construct_blueprint hash_region_t uuid_source info nc w =
    construct_blueprint hash_region_t uuid_source info nc' w ∧
  ∀ bp w', construct_blueprint hash_region_t uuid_source info nc w = Some (bp, w') →
    map_reads w' = 2 + map_reads w.
Proof.
  intros Hnames Hfirst Hsecond. split.
  - unfold construct_blueprint. f_equal.
    unfold construct_blueprint_locals, blueprint_id_translator_new. simpl.
    rewrite <-Hfirst.
    rewrite (for_each_indexed_ext (put_primary hash_region_t uuid_source nc' info)
               (put_primary hash_region_t uuid_source nc info)).
    2:{ intros i shard b. unfold put_primary. by rewrite Hnames. }
    destruct (for_each_indexed (put_primary _ _ nc info) _ _ _) as [b1|] eqn:Hrun1;
      [simpl | done].
    rewrite (for_each_indexed_ext (put_secondaries hash_region_t uuid_source nc' info)
               (put_secondaries hash_region_t uuid_source nc info)).
    2:{ intros i shard b. unfold put_secondaries. apply for_each_ext.
        intros server a. unfold put_secondary. by rewrite Hnames. }
    destruct (for_each_indexed (put_secondaries _ _ nc info) _ _ _) as [b2|] eqn:Hrun2;
      [simpl | done].
    rewrite (secondaries_reads _ _ _ _ _ Hrun1 Hrun2). simpl.
    unfold std_map_keys.
    pose proof (f_equal std_set_iter Hsecond) as Hkeys.
    f_equal. f_equal. exact Hkeys.
  - intros bp w' Hrun. unfold construct_blueprint in Hrun.
    apply bind_Some in Hrun as (b & Hlocals & Hrun).
    apply bind_Some in Hrun as (? & _ & ?). simplify_eq/=.
    by eapply construct_blueprint_locals_reads.
Qed.

End reads.

(** ** Two calls with the same configuration and topology *)

Section two_calls_facts.
Context {key_range_t region_t : Type} `{Countable region_t}.
Context (hash_region_t : key_range_t → region_t) (uuid_source : nat → uuid_u).
Context (info : table_replication_info_t (key_range_t := key_range_t)).
Context (nc : server_name_client_t).
Context (snap : gmap server_id_t peer_id_t).
(** Placeholders are fresh: no generated uuid is a live peer's. *)
Hypothesis placeholders_fresh : ∀ k, ¬ live_peer snap (PeerId (uuid_source k)).
Hypothesis shards_match :
  length (shards (config info)) = num_shards (shard_scheme info).

Implicit Types (b : builder_t (region_t := region_t)).
Implicit Types (m : gmap peer_id_t (gmap region_t blueprint_role_t)).
Implicit Types (t : blueprint_id_translator_t) (w : world_t).

Lemma server_id_to_peer_id_live server t w p t' w' :
  translator_ok snap t →
  server_id_to_peer_id uuid_source server t w = (p, t', w') →
  translator_ok snap t' ∧
  (snap !! server = Some p ∨ snap !! server = None ∧ ¬ live_peer snap p).
Proof using placeholders_fresh.
  intros [Hsnap Hother]. unfold server_id_to_peer_id.
  destruct (server_id_to_peer_id_map t !! server) as [q|] eqn:Hq.
  - intros [= <- <- <-]. split; [done |].
    destruct (snap !! server) as [p|] eqn:Hp.
    + left. pose proof (lookup_weaken _ _ _ _ Hp Hsnap). congruence.
    + right. eauto.
  - simpl. intros [= <- <- <-].
    assert (snap !! server = None) as Hp.
    { destruct (snap !! server) as [p|] eqn:Hp; [|done].
      pose proof (lookup_weaken _ _ _ _ Hp Hsnap). congruence. }
    split; [|by right]. split; simpl.
    + etrans; [done |]. by apply insert_subseteq.
    + intros server' q Hnone. rewrite lookup_insert. case_decide; [|by eauto].
      by intros [= <-].
Qed.

Lemma director_peer_live shard t w p t' w' :
  translator_ok snap t →
  director_peer uuid_source nc shard t w = (p, t', w') →
  translator_ok snap t' ∧
  (snap !! director shard = Some p ∧ is_Some (get_name_for_server_id nc (director shard))
   ∨ ¬ live_peer snap p).
Proof using placeholders_fresh.
  intros Ht. unfold director_peer.
  destruct (get_name_for_server_id nc (director shard)) as [name|]; simpl.
  - intros Hp. apply server_id_to_peer_id_live in Hp as [Ht' [?|[_ ?]]]; [| | done].
    + split; [done |]. left. eauto.
    + split; [done |]. by right.
  - intros [= <- <- <-]. split; [done |]. right. apply placeholders_fresh.
Qed.

(** The same step on a live peer, or steps on two peers that are not live. *)
Lemma agree_put_role m m' p p' r x :
  p = p' ∨ ¬ live_peer snap p ∧ ¬ live_peer snap p' →
  agree_on_live snap m m' →
  agree_on_live snap (put_role p r x m) (put_role p' r x m').
Proof.
  intros Hp Hagree q Hq. rewrite !lookup_put_role.
  destruct Hp as [<-|[Hp Hp']].
  - case_decide; [subst; by rewrite (Hagree _ Hq) | by apply Hagree].
  - rewrite !decide_False by congruence. by apply Hagree.
Qed.

Lemma agree_with_peer m m' p p' :
  p = p' ∨ ¬ live_peer snap p ∧ ¬ live_peer snap p' →
  agree_on_live snap m m' →
  agree_on_live snap (with_peer p m) (with_peer p' m').
Proof.
  intros Hp Hagree q Hq. rewrite !lookup_with_peer.
  destruct Hp as [<-|[Hp Hp']].
  - case_decide; [subst; by rewrite (Hagree _ Hq) | by apply Hagree].
  - rewrite !decide_False by congruence. by apply Hagree.
Qed.

Lemma agree_fill_nothing m m' r :
  agree_on_live snap m m' →
  agree_on_live snap (fill_nothing r m) (fill_nothing r m').
Proof. intros Hagree q Hq. by rewrite !lookup_fill_nothing, (Hagree _ Hq). Qed.

Lemma put_primary_agree i shard a b a' b' :
  shards (config info) !! i = Some shard →
  builders_agree snap a b →
  put_primary hash_region_t uuid_source nc info i shard a = Some a' →
  put_primary hash_region_t uuid_source nc info i shard b = Some b' →
  builders_agree snap a' b'.
Proof using All.
  intros Hshard (Hta & Htb & Hagree).
  destruct (shard_has_region hash_region_t info shards_match _ _ Hshard) as [r Hr].
  rewrite !(put_primary_eq _ _ _ _ _ _ _ r Hr).
  destruct (director_peer _ _ _ (trans a) _) as [[pa ta] wa] eqn:Hpa.
  destruct (director_peer _ _ _ (trans b) _) as [[pb tb] wb] eqn:Hpb.
  pose proof Hpa as Hpa'. pose proof Hpb as Hpb'.
  apply director_peer_live in Hpa as [Hta' Hpa]; [|done].
  apply director_peer_live in Hpb as [Htb' Hpb]; [|done].
  intros [= <-] [= <-]. split_and!; [done | done |]. simpl.
  apply agree_put_role; [|done].
  unfold director_peer in Hpa', Hpb'.
  destruct Hpa as [[Hpa Hna]|Hpa], Hpb as [[Hpb Hnb]|Hpb].
  - left. congruence.
  - exfalso. destruct Hna as [name Hname]. rewrite Hname in Hpb'.
    apply server_id_to_peer_id_live in Hpb' as [_ [?|[? _]]]; [| congruence | done].
    apply Hpb. by eexists.
  - exfalso. destruct Hnb as [name Hname]. rewrite Hname in Hpa'.
    apply server_id_to_peer_id_live in Hpa' as [_ [?|[? _]]]; [| congruence | done].
    apply Hpa. by eexists.
  - by right.
Qed.

Lemma put_secondary_agree i shard server a b a' b' :
  shards (config info) !! i = Some shard →
  builders_agree snap a b →
  put_secondary hash_region_t uuid_source nc info i shard server a = Some a' →
  put_secondary hash_region_t uuid_source nc info i shard server b = Some b' →
  builders_agree snap a' b'.
Proof using All.
  intros Hshard (Hta & Htb & Hagree).
  destruct (shard_has_region hash_region_t info shards_match _ _ Hshard) as [r Hr].
  rewrite !(put_secondary_eq _ _ _ _ _ _ _ _ r Hr).
  destruct (get_name_for_server_id nc server).
  2:{ intros [= <-] [= <-]. by split_and!. }
  destruct (server_id_to_peer_id _ _ (trans a) _) as [[pa ta] wa] eqn:Hpa.
  destruct (server_id_to_peer_id _ _ (trans b) _) as [[pb tb] wb] eqn:Hpb.
  apply server_id_to_peer_id_live in Hpa as [Hta' Hpa]; [|done].
  apply server_id_to_peer_id_live in Hpb as [Htb' Hpb]; [|done].
  intros [= <-] [= <-]. split_and!; [done | done |]. simpl.
  assert (pa = pb ∨ ¬ live_peer snap pa ∧ ¬ live_peer snap pb) as Hp.
  { destruct Hpa as [Hpa|[Hna Hpa]], Hpb as [Hpb|[Hnb Hpb]];
      [left | | | right]; congruence || done. }
  case_decide; [by apply agree_put_role | by apply agree_with_peer].
Qed.

Lemma put_known_peer_agree server a b a' b' :
  builders_agree snap a b →
  put_known_peer uuid_source server a = Some a' →
  put_known_peer uuid_source server b = Some b' →
  builders_agree snap a' b'.
Proof using placeholders_fresh.
  intros (Hta & Htb & Hagree). rewrite !put_known_peer_eq.
  destruct (server_id_to_peer_id _ _ (trans a) _) as [[pa ta] wa] eqn:Hpa.
  destruct (server_id_to_peer_id _ _ (trans b) _) as [[pb tb] wb] eqn:Hpb.
  apply server_id_to_peer_id_live in Hpa as [Hta' Hpa]; [|done].
  apply server_id_to_peer_id_live in Hpb as [Htb' Hpb]; [|done].
  intros [= <-] [= <-]. split_and!; [done | done |]. simpl.
  apply agree_with_peer; [|done].
  destruct Hpa as [Hpa|[Hna Hpa]], Hpb as [Hpb|[Hnb Hpb]];
    [left | | | right]; congruence || done.
Qed.

(** Two calls that see the snapshot [snap] at both of their reads. *)
Lemma construct_blueprint_locals_agree w w' b b' :
  server_id_to_peer_id_map_at nc (map_reads w) = snap →
  server_id_to_peer_id_map_at nc (S (map_reads w)) = snap →
  server_id_to_peer_id_map_at nc (map_reads w') = snap →
  server_id_to_peer_id_map_at nc (S (map_reads w')) = snap →
  construct_blueprint_locals hash_region_t uuid_source info nc w = Some b →
  construct_blueprint_locals hash_region_t uuid_source info nc w' = Some b' →
  agree_on_live snap (peers_roles (blueprint b)) (peers_roles (blueprint b')).
Proof using All.
  intros Hw0 Hw1 Hw0' Hw1'.
  unfold construct_blueprint_locals, blueprint_id_translator_new. simpl.
  rewrite Hw0, Hw0'. intros Hrun Hrun'.
  apply bind_Some in Hrun as (b1 & Hrun1 & Hrun).
  apply bind_Some in Hrun as (b2 & Hrun2 & Hrun).
  apply bind_Some in Hrun' as (b1' & Hrun1' & Hrun').
  apply bind_Some in Hrun' as (b2' & Hrun2' & Hrun').
  rewrite (secondaries_reads _ _ _ _ _ _ _ Hrun1 Hrun2) in Hrun.
  rewrite (secondaries_reads _ _ _ _ _ _ _ Hrun1' Hrun2') in Hrun'.
  simpl in Hrun, Hrun'. rewrite Hw1 in Hrun. rewrite Hw1' in Hrun'.
  clear Hw0 Hw1 Hw0' Hw1'.
  apply bind_Some in Hrun as (b3 & Hrun3 & Hrun).
  apply bind_Some in Hrun as (bp4 & Hrun4 & Hrun).
  apply bind_Some in Hrun' as (b3' & Hrun3' & Hrun').
  apply bind_Some in Hrun' as (bp4' & Hrun4' & Hrun'). simplify_eq/=.
  assert (translator_ok snap {| server_id_to_peer_id_map := snap |}) as Ht0.
  { split; [done |]. simpl. intros ?? Hnone Hsome. congruence. }
  assert (builders_agree snap b1 b1') as H1.
  { eapply (for_each_indexed_rel (builders_agree snap)); [| | exact Hrun1 | exact Hrun1'].
    - by split_and!.
    - intros k shard a c a' c' Hshard. by apply put_primary_agree. }
  assert (builders_agree snap b2 b2') as H2.
  { eapply (for_each_indexed_rel (builders_agree snap)); [| | exact Hrun2 | exact Hrun2'].
    - done.
    - intros k shard a c a' c' Hshard Hac. unfold put_secondaries.
      apply for_each_rel; [done |]. intros server ???? _. by apply put_secondary_agree. }
  assert (builders_agree snap b3 b3') as (_ & _ & H3).
  { eapply (for_each_rel (builders_agree snap)); [| | exact Hrun3 | exact Hrun3'].
    - done.
    - intros server ???? _. by apply put_known_peer_agree. }
  eapply (for_each_indexed_rel
            (λ bp bp' : blueprint_t (region_t := region_t),
               agree_on_live snap (peers_roles bp) (peers_roles bp')));
    [| | exact Hrun4 | exact Hrun4'].
  - done.
  - intros k shard a c a' c' Hshard Hac. simpl.
    destruct (shard_has_region hash_region_t info shards_match _ _ Hshard) as [r Hr].
    rewrite !(put_nothings_eq _ _ _ _ _ r Hr). intros [= <-] [= <-]. simpl.
    by apply agree_fill_nothing.
Qed.

End two_calls_facts.

Section two_calls_claim.
Context {key_range_t region_t : Type} `{Countable region_t}.
Context (hash_region_t : key_range_t → region_t) (uuid_source : nat → uuid_u).

(** C9: two calls of [construct_blueprint] with the same configuration, made
    while the name client's topology stays as it is, in whatever state of
    the uuid generator, both return, and every peer with a live identity
    (a peer of the server-to-peer map) is present in both blueprints with
    the same role for every range.  Generated uuids are taken to be fresh:
    none is a live peer's. *)
Theorem construct_blueprint_twice
    (info : table_replication_info_t (key_range_t := key_range_t))
    (nc : server_name_client_t) (w w' : world_t) :
  length (shards (config info)) = num_shards (shard_scheme info) →
  NoDup (hash_region_t <$> shard_ranges (shard_scheme info)) →
  (∀ k, server_id_to_peer_id_map_at nc k = server_id_to_peer_id_map_at nc 0) →
  (∀ k server,
     server_id_to_peer_id_map_at nc 0 !! server ≠ Some (PeerId (uuid_source k))) →
  ∃ bp1 w1 bp2 w2,
    construct_blueprint hash_region_t uuid_source info nc w = Some (bp1, w1) ∧
    construct_blueprint hash_region_t uuid_source info nc w' = Some (bp2, w2) ∧
    ∀ server p, server_id_to_peer_id_map_at nc 0 !! server = Some p →
      is_Some (peers_roles bp1 !! p) ∧ is_Some (peers_roles bp2 !! p) ∧
      ∀ r, role_of bp1 p r = role_of bp2 p r.
Proof.
  intros Hlen Hdistinct Hstable Hfresh.
  destruct (construct_blueprint_locals_spec hash_region_t uuid_source info nc
              Hlen Hdistinct w)
    as (b1 & Hlocals1 & Hrun1 & _ & _ & _ & _ & Hknown1).
  destruct (construct_blueprint_locals_spec hash_region_t uuid_source info nc
              Hlen Hdistinct w')
    as (b2 & Hlocals2 & Hrun2 & _ & _ & _ & _ & Hknown2).
  exists (blueprint b1), (world b1), (blueprint b2), (world b2).
  split_and!; [done | done |].
  intros server p Hp.
  assert (agree_on_live (server_id_to_peer_id_map_at nc 0)
            (peers_roles (blueprint b1)) (peers_roles (blueprint b2))) as Hagree.
  { eapply (construct_blueprint_locals_agree hash_region_t uuid_source info nc
              (server_id_to_peer_id_map_at nc 0)); [| done | | | | | done | done];
      [| by apply Hstable..].
    intros k [server' Hlive]. by eapply Hfresh. }
  split_and!.
  - apply (Hknown1 server); rewrite Hstable; [by eexists | done].
  - apply (Hknown2 server); rewrite Hstable; [by eexists | done].
  - intros r. unfold role_of. rewrite (Hagree p); [done |]. by exists server.
Qed.

End two_calls_claim.

(** ** The driver: steps and their effects *)

Lemma snoc_split {A} (tr before after : list A) e x :
  tr ++ [e] = before ++ x :: after →
  (∃ after', tr = before ++ x :: after' ∧ after = after' ++ [e]) ∨
  (before = tr ∧ x = e ∧ after = []).
Proof.
  destruct (decide (after = [])) as [->|Hne].
  - intros Heq. apply app_inj_2 in Heq as [-> [= ->]]; [by right | done].
  - destruct (exists_last Hne) as (after' & y & ->).
    rewrite app_comm_cons, app_assoc.
    intros Heq. apply app_inj_2 in Heq as [-> [= ->]]; [|done]. left. eauto.
Qed.

Lemma all_before_snoc {A} (Q : A → Prop) (req : list A) tr e :
  (∀ before x after, tr = before ++ x :: after → Q x → req ⊆ before) →
  (Q e → req ⊆ tr) →
  ∀ before x after, tr ++ [e] = before ++ x :: after → Q x → req ⊆ before.
Proof.
  intros Hold Hnew before x after [(after' & -> & _)|(-> & -> & _)]%snoc_split; eauto.
Qed.

Lemma one_before_snoc {A} (Q : A → Prop) (y : A) tr e :
  (∀ before x after, tr = before ++ x :: after → Q x → y ∈ before) →
  (Q e → y ∈ tr) →
  ∀ before x after, tr ++ [e] = before ++ x :: after → Q x → y ∈ before.
Proof.
  intros Hold Hnew before x after [(after' & -> & _)|(-> & -> & _)]%snoc_split; eauto.
Qed.

Lemma teardown_trace_snoc h tr e :
  teardown_trace h (tr ++ [e]) =
    teardown_trace h tr ++ (if is_teardown h e then [e] else []).
Proof.
  unfold teardown_trace. rewrite filter_app. f_equal.
  rewrite filter_cons, filter_nil. by destruct (is_teardown h e).
Qed.

Lemma elem_of_resumed (pre post : list coro_t) (c : coro_t) (c' : option coro_t) x :
  x ∈ pre ++ option_list c' ++ post → x ∈ pre ++ c :: post ∨ c' = Some x.
Proof.
  rewrite !elem_of_app, elem_of_cons. intros [?|[Hx|?]]; [by eauto | | by eauto].
  destruct c'; simpl in Hx; [|by apply elem_of_nil in Hx].
  apply list_elem_of_singleton in Hx as ->. by right.
Qed.

Lemma is_teardown_init_event h' h pc : is_teardown h' (init_event h pc) = false.
Proof. by destruct pc. Qed.

Lemma init_event_pulse h pc h' :
  init_event h pc = ev_initialized_pulse h' → pc = init_at_pulse ∧ h = h'.
Proof. destruct pc; by intros [= ->]. Qed.

Lemma init_next_done h pc c :
  init_next h pc = Some c →
  ∃ pc', c = run_initialize_reactor h pc' ∧
    init_done h pc' = init_done h pc ++ [init_event h pc].
Proof. destruct pc; intros [= <-]; by eexists. Qed.

Lemma is_teardown_delete_event h' h ns pc e :
  delete_event h ns pc = Some e →
  is_teardown h' e = bool_decide (h = h') ∧ pc ≠ del_at_wait ∧
  (∀ h0, e ≠ ev_initialized_pulse h0) ∧
  teardown_sequence h ns !! delete_progress pc = Some e.
Proof. destruct pc; intros [= <-]; by split_and!. Qed.

Lemma delete_next_progress h ns pc c :
  delete_next h ns pc = Some c →
  ∃ pc', c = run_delete_reactor_data h ns pc' ∧ pc' ≠ del_at_wait ∧
    pc ≠ del_at_destroy_svs ∧
    delete_progress pc' =
      delete_progress pc + length (option_list (delete_event h ns pc)).
Proof. destruct pc; intros [= <-]; eexists; by split_and!. Qed.

Lemma NoDup_std_map_keys {V} (m : gmap uuid_u V) : NoDup (std_map_keys m).
Proof.
  unfold std_map_keys, std_set_iter, ascending.
  rewrite merge_sort_Permutation. apply NoDup_elements.
Qed.

Lemma elem_of_deleting (cs : list coro_t) h :
  h ∈ deleting cs ↔ ∃ ns pc, run_delete_reactor_data h ns pc ∈ cs.
Proof.
  unfold deleting. rewrite list_elem_of_omap. split.
  - intros ([h' pc|h' ns pc] & Hc & [= <-]). eauto.
  - intros (ns & pc & Hc). eauto.
Qed.

Lemma deleting_app (l1 l2 : list coro_t) : deleting (l1 ++ l2) = deleting l1 ++ deleting l2.
Proof. apply omap_app. Qed.

Lemma deleting_init_next h pc : deleting (option_list (init_next h pc)) = [].
Proof. by destruct pc. Qed.

Lemma deleting_delete_next h ns pc :
  deleting (option_list (delete_next h ns pc)) =
    if decide (pc = del_at_destroy_svs) then [] else [h].
Proof. by destruct pc. Qed.

Lemma teardown_sequence_step h ns pc :
  take (delete_progress pc + length (option_list (delete_event h ns pc)))
       (teardown_sequence h ns) =
    take (delete_progress pc) (teardown_sequence h ns) ++
      option_list (delete_event h ns pc).
Proof. by destruct pc. Qed.

Lemma teardown_trace_delete_event h' tr h ns pc :
  teardown_trace h' (tr ++ option_list (delete_event h ns pc)) =
    teardown_trace h' tr ++
      (if decide (h = h') then option_list (delete_event h ns pc) else []).
Proof.
  destruct (delete_event h ns pc) as [e|] eqn:He; simpl.
  - rewrite teardown_trace_snoc.
    apply (is_teardown_delete_event h') in He as (-> & _).
    case_bool_decide; by case_decide.
  - rewrite !app_nil_r. case_decide; by rewrite app_nil_r.
Qed.

Section driver_steps.
Context {key_range_t region_t : Type} `{Countable region_t}.
Context (try_construct_blueprint :
  table_replication_info_t (key_range_t := key_range_t) → server_name_client_t →
  world_t → try_construct_t (region_t := region_t)).
Implicit Types (d : reactor_driver_t (region_t := region_t)).
Implicit Types (view : cluster_view_t (key_range_t := key_range_t)).

Local Abbreviation on_change_table := (on_change_table try_construct_blueprint).
Local Abbreviation on_change_loop := (on_change_loop try_construct_blueprint).
Local Abbreviation on_change := (on_change try_construct_blueprint).
Local Abbreviation step := (step try_construct_blueprint).
Local Abbreviation reachable := (reachable try_construct_blueprint).

(** The five ways through the body of the loop of [on_change]. *)
Lemma on_change_table_cases view ns meta d d' :
  on_change_table view ns meta d = Some d' →
  (∃ h, reactor_data d !! ns = Some h ∧
     is_deleted meta || we_were_permanently_removed view = true ∧
     d' = spawn_sometime (run_delete_reactor_data h ns del_at_wait)
            (set_reactor_data (delete ns) d)) ∨
  d' = d ∨
  (∃ w, d' = set_driver_world w d) ∨
  (∃ bp w, reactor_data d !! ns = None ∧
     d' = set_reactor_data (<[ns := next_handle d]>)
            (spawn_sometime (run_initialize_reactor (next_handle d) init_at_get_svs)
              (set_heap (<[next_handle d := new_watchable_and_reactor ns bp]>)
                (set_next_handle (S (next_handle d)) (set_driver_world w d))))) ∨
  (∃ bp w h, reactor_data d !! ns = Some h ∧
     d' = update_handle h (λ x,
            {| watchable := apply_atomic_op (op_closure_apply bp) (watchable x);
               reactor_has_been_initialized_ := reactor_has_been_initialized_ x;
               namespace_id_ := namespace_id_ x;
               stores_lifetimer_ := stores_lifetimer_ x; svs_ := svs_ x;
               reactor_ := reactor_ x;
               directory_exporter_ := directory_exporter_ x |})
            (set_driver_world w d)).
Proof.
  unfold on_change_table.
  destruct ((is_deleted meta || we_were_permanently_removed view)
            && bool_decide (is_Some (reactor_data d !! ns))) eqn:Hdetach.
  - apply andb_true_iff in Hdetach as [Hgone _].
    destruct (reactor_data d !! ns) as [h|] eqn:Hh; [|done]. simpl.
    intros [= <-]. left. eauto.
  - destruct meta as [|m]; simpl; [intros [= <-]; by right; left |].
    destruct (try_construct_blueprint _ _ _) as [bp w|w|]; [| | done].
    + cbv zeta. clear Hdetach.
      destruct (bool_decide (peers_roles bp !! get_me view = None)); simpl;
        [intros [= <-]; right; right; left; by eexists |].
      destruct (reactor_data d !! ns) as [h|] eqn:Hh; intros [= <-].
      * right; right; right; right. by exists bp, w, h.
      * right; right; right; left. exists bp, w. split; [done |].
        unfold set_reactor_data, std_map_insert. simpl. by rewrite Hh.
    + intros [= <-]. right; right; left. by eexists.
Qed.

(** C7: when the construction of a table's blueprint fails with a server
    name collision, the body of the loop of [on_change] leaves the map, the
    handles (with their blueprint cells), the spawned coroutines and the
    trace as they are, and the pass goes on with the remaining tables. *)
Theorem on_change_skips_name_collision view ns m rest d w :
  namespaces view !! ns = Some (existing m) →
  we_were_permanently_removed view = false ∨ reactor_data d !! ns = None →
  try_construct_blueprint (replication_info m) (server_name_client view) (driver_world d)
    = caught_server_name_collision w →
  ∃ d', on_change_table view ns (existing m) d = Some d' ∧
    reactor_data d' = reactor_data d ∧ heap d' = heap d ∧
    next_handle d' = next_handle d ∧ watchable_var d' = watchable_var d ∧
    coros d' = coros d ∧ trace d' = trace d ∧
    on_change_loop view (ns :: rest) d = on_change_loop view rest d'.
Proof.
  intros Hns Hattempt Hthrow. exists (set_driver_world w d).
  assert (on_change_table view ns (existing m) d = Some (set_driver_world w d)) as Hbody.
  { unfold on_change_table. simpl.
    replace (we_were_permanently_removed view
             && bool_decide (is_Some (reactor_data d !! ns))) with false.
    - by rewrite Hthrow.
    - destruct Hattempt as [Hhere|Hnone]; [by rewrite Hhere |]. rewrite Hnone.
      rewrite bool_decide_eq_false_2; [by rewrite andb_false_r | by intros [? ?]]. }
  split_and!; [done.. |].
  unfold on_change_loop. simpl. rewrite Hns. simpl.
  fold (on_change_table view ns (existing m) d). by rewrite Hbody.
Qed.

(** *** The statements of the coroutines *)

Lemma initialize_reactor_step_shape h pc d c' d' :
  initialize_reactor_step h pc d = Some (c', d') →
  c' = init_next h pc ∧
  reactor_data d' = reactor_data d ∧ next_handle d' = next_handle d ∧
  coros d' = coros d ∧ trace d' = trace d ++ [init_event h pc] ∧
  ∃ hd g, heap d !! h = Some hd ∧ heap d' = alter g h (heap d) ∧
    (∀ x, namespace_id_ (g x) = namespace_id_ x) ∧
    (∀ x, reactor_has_been_initialized_ (g x) =
            if decide (pc = init_at_pulse) then true
            else reactor_has_been_initialized_ x).
Proof.
  unfold initialize_reactor_step.
  destruct (heap d !! h) as [hd|] eqn:Hh; [simpl | done].
  destruct pc; intros [= <- <-]; (split_and!; [done.. |]);
    exists hd; eexists; (split_and!; [done | done | done | done]).
Qed.

Lemma delete_reactor_data_step_shape h ns pc d c' d' :
  delete_reactor_data_step h ns pc d = Some (c', d') →
  c' = delete_next h ns pc ∧
  reactor_data d' = reactor_data d ∧ next_handle d' = next_handle d ∧
  coros d' = coros d ∧
  ∃ ns_used g,
    trace d' = trace d ++ option_list (delete_event h ns_used pc) ∧
    heap d' = (if decide (pc = del_at_members) then delete h (heap d)
               else alter g h (heap d)) ∧
    (∀ x, namespace_id_ (g x) = namespace_id_ x) ∧
    (∀ x, reactor_has_been_initialized_ (g x) = reactor_has_been_initialized_ x) ∧
    if decide (pc = del_at_destroy_svs) then ns_used = ns
    else ∃ hd, heap d !! h = Some hd ∧ ns_used = namespace_id_ hd ∧
           (pc = del_at_wait → reactor_has_been_initialized_ hd = true).
Proof.
  unfold delete_reactor_data_step.
  destruct pc; simpl.
  6:{ intros [= <- <-]. split_and!; [done.. |]. exists ns, id.
      split_and!; [done | by rewrite alter_id | done | done | done]. }
  all: destruct (heap d !! h) as [hd|] eqn:Hh; [simpl | done].
  1: destruct (reactor_has_been_initialized_ hd) eqn:Hflag; [|done].
  all: intros [= <- <-]; (split_and!; [done.. |]).
  - exists (namespace_id_ hd), id. simpl. rewrite app_nil_r, alter_id by done.
    split_and!; [done.. |]. exists hd. by split_and!.
  - exists (namespace_id_ hd). eexists. simpl.
    split_and!; [done | done | | | exists hd; by split_and!]; done.
  - exists (namespace_id_ hd). eexists. simpl.
    split_and!; [done | done | | | exists hd; by split_and!]; done.
  - exists (namespace_id_ hd), id. simpl. rewrite alter_id by done.
    split_and!; [done.. |]. exists hd. by split_and!.
  - exists (namespace_id_ hd), id. simpl. split_and!; [done.. |]. exists hd. by split_and!.
Qed.

(** *** Schedules *)

Lemma do_action_step a d d' : do_action try_construct_blueprint a d = Some d' → step d d'.
Proof.
  destruct a as [view|n]; simpl.
  - by apply step_on_change.
  - intros Hrun. apply bind_Some in Hrun as (c & Hc & Hrun).
    apply bind_Some in Hrun as ([c' d1] & Hstep & [= <-]).
    eapply step_coro; [|done]. by rewrite take_drop_middle.
Qed.

Lemma run_schedule_steps acts d d' :
  run_schedule try_construct_blueprint acts d = Some d' → rtc step d d'.
Proof.
  unfold run_schedule. revert d. induction acts as [|a acts IH]; intros d; simpl.
  - by intros [= <-].
  - intros Hrun. apply bind_Some in Hrun as (d1 & Ha & Hrun).
    eapply rtc_l; [by eapply do_action_step | by apply IH].
Qed.

(** *** Initialization comes first *)

Lemma initialized_alter (f : watchable_and_reactor_t (region_t := region_t) → _)
    (hp : gmap handle_ptr watchable_and_reactor_t) h h0 hd0 :
  (∀ x, reactor_has_been_initialized_ (f x) = reactor_has_been_initialized_ x) →
  alter f h hp !! h0 = Some hd0 → reactor_has_been_initialized_ hd0 = true →
  ∃ hd, hp !! h0 = Some hd ∧ reactor_has_been_initialized_ hd = true.
Proof.
  intros Hf. rewrite lookup_alter. case_decide; [subst |by eauto].
  destruct (hp !! h0) as [hd|]; intros [= <-]. rewrite Hf. eauto.
Qed.

Lemma init_order_initial w : init_order_ok (initial_driver (region_t := region_t) w).
Proof.
  split_and!; simpl.
  - intros ?? Hh. by rewrite lookup_empty in Hh.
  - intros ??? Hc. by apply elem_of_nil in Hc.
  - intros ?? Hc. by apply elem_of_nil in Hc.
  - intros ? [|??] ? [=].
  - intros ?? [|??] ? [=].
Qed.

Lemma init_order_on_change_table view ns meta d d' :
  init_order_ok d → on_change_table view ns meta d = Some d' → init_order_ok d'.
Proof.
  intros (Hinit & Hdel & Hrun & Hpulse & Hteardown)
    [(h & Hh & _ & ->)|[->|[[w ->]|[(bp & w & Hnone & ->)|(bp & w & h & Hh & ->)]]]]
      %on_change_table_cases.
  - split_and!; simpl; [done | | | done | done].
    + intros h' ns' pc [?|Hnew%list_elem_of_singleton]%elem_of_app; [by eauto |].
      by intros []; simplify_eq.
    + intros h' pc [?|Hnew%list_elem_of_singleton]%elem_of_app; [by eauto | done].
  - by split_and!.
  - by split_and!.
  - split_and!; simpl; [| | | done | done].
    + intros h hd. rewrite lookup_insert. case_decide; [by intros [= <-] | by eauto].
    + intros h' ns' pc [?|Hnew%list_elem_of_singleton]%elem_of_app; [by eauto | done].
    + intros h' pc [?|Hnew%list_elem_of_singleton]%elem_of_app; [by eauto |].
      simplify_eq. simpl. apply list_subseteq_nil.
  - split_and!; simpl; [| done..].
    intros h0 hd0 Hlook Hflag.
    apply initialized_alter in Hlook as (hd & ? & ?); [by eauto | done | done].
Qed.

Lemma init_order_on_change view d d' :
  init_order_ok d → on_change view d = Some d' → init_order_ok d'.
Proof.
  intros Hd Hrun. unfold on_change, on_change_loop in Hrun.
  eapply (for_each_preserves init_order_ok); [exact Hd | | exact Hrun].
  intros k a a' _ Ha Hbody.
  apply bind_Some in Hbody as (meta & _ & Hbody). by eapply init_order_on_change_table.
Qed.

Lemma init_order_coro_step d pre c post c' d' :
  init_order_ok d → coros d = pre ++ c :: post → coro_step c d = Some (c', d') →
  init_order_ok (set_coros (pre ++ option_list c' ++ post) d').
Proof.
  intros (Hinit & Hdel & Hrun & Hpulse & Hteardown) Hcoros Hstep.
  assert (c ∈ coros d) as Hc by (rewrite Hcoros, elem_of_app; right; left).
  assert (∀ x, x ∈ pre ++ option_list c' ++ post → x ∈ coros d ∨ c' = Some x) as Hmem.
  { intros x Hx. rewrite Hcoros. by eapply elem_of_resumed. }
  destruct c as [h pc|h ns pc]; simpl in Hstep.
  - (* a statement of initialize_reactor *)
    apply initialize_reactor_step_shape in Hstep
      as (-> & _ & _ & _ & Htrace & hd & g & Hh & Hheap & _ & Hflag).
    assert (trace d ⊆ trace d') as Hsub by (rewrite Htrace; by apply list_subseteq_app_l).
    split_and!; simpl.
    + intros h0 hd0. rewrite Hheap, lookup_alter.
      destruct (decide (h = h0)) as [<-|]; [|by eauto].
      rewrite Hh. intros [= <-]. rewrite Hflag.
      destruct (decide (pc = init_at_pulse)) as [->|]; [|by eauto].
      intros _. rewrite Htrace. apply elem_of_app. right. left.
    + intros h' ns' pc' [?|Hnew]%Hmem ?; [by eauto |].
      by apply init_next_done in Hnew as (? & ? & _).
    + intros h' pc' [?|Hnew]%Hmem; [etrans; [by eapply Hrun | done] |].
      apply init_next_done in Hnew as (? & [= -> ->] & ->). rewrite Htrace.
      intros y [Hy|Hy]%elem_of_app; apply elem_of_app; [left | by right].
      by apply (Hrun _ _ Hc).
    + intros h' before after Heq. rewrite Htrace in Heq.
      eapply (all_before_snoc (λ x, x = ev_initialized_pulse h')); [| | exact Heq | done].
      * intros ??? Hold ->. by eapply Hpulse.
      * intros [-> ->]%init_event_pulse. exact (Hrun _ _ Hc).
    + intros h' e before after Heq. rewrite Htrace in Heq.
      eapply (one_before_snoc (λ x, is_teardown h' x = true)); [| | exact Heq].
      * intros ??? Hold ?. by eapply Hteardown.
      * by rewrite is_teardown_init_event.
  - (* a statement of delete_reactor_data *)
    apply delete_reactor_data_step_shape in Hstep
      as (-> & _ & _ & _ & ns_used & g & Htrace & Hheap & _ & Hflag & Hhandle).
    assert (trace d ⊆ trace d') as Hsub by (rewrite Htrace; by apply list_subseteq_app_l).
    split_and!; simpl.
    + intros h0 hd0 Hlook Hflag0. apply Hsub. rewrite Hheap in Hlook.
      destruct (decide (pc = del_at_members));
        [apply lookup_delete_Some in Hlook as [_ ?]; by eauto |].
      apply initialized_alter in Hlook as (? & ? & ?); [by eauto | done | done].
    + intros h' ns' pc' [?|Hnew]%Hmem ?; [by eauto |].
      apply delete_next_progress in Hnew as (? & [= -> -> ->] & _ & Hpc & _).
      apply Hsub. destruct (decide (pc = del_at_wait)) as [->|]; [|by eauto].
      rewrite decide_False in Hhandle by done.
      destruct Hhandle as (hd & ? & _ & ?). eauto.
    + intros h' pc' [?|Hnew]%Hmem; [etrans; [by eapply Hrun | done] |].
      by apply delete_next_progress in Hnew as (? & ? & _).
    + intros h' before after Heq. rewrite Htrace in Heq.
      destruct (delete_event h ns_used pc) as [e|] eqn:He; simpl in Heq;
        [|rewrite app_nil_r in Heq; by eapply Hpulse].
      eapply (all_before_snoc (λ x, x = ev_initialized_pulse h')); [| | exact Heq | done].
      * intros ??? Hold ->. by eapply Hpulse.
      * intros ->. apply (is_teardown_delete_event h') in He as (_ & _ & Hne & _).
        by destruct (Hne h').
    + intros h' e' before after Heq. rewrite Htrace in Heq.
      destruct (delete_event h ns_used pc) as [e|] eqn:He; simpl in Heq;
        [|rewrite app_nil_r in Heq; by eapply Hteardown].
      eapply (one_before_snoc (λ x, is_teardown h' x = true)); [| | exact Heq].
      * intros ??? Hold ?. by eapply Hteardown.
      * apply (is_teardown_delete_event h') in He as (-> & ? & _).
        intros <-%bool_decide_eq_true. by eapply Hdel.
Qed.

Lemma init_order_reachable d : reachable d → init_order_ok d.
Proof.
  intros [w Hrun].
  eapply (rtc_ind_r (λ d, init_order_ok d)); [| | exact Hrun].
  - apply init_order_initial.
  - intros d1 d2 _ Hstep IH.
    destruct Hstep as [d1 pre c post c' d1' Hcoros Hstep|view d1 d2 Hchange].
    + by eapply init_order_coro_step.
    + by eapply init_order_on_change.
Qed.

(** C3: in every state the driver can reach, whatever the schedule, each
    event of the teardown of a handle (export link, reactor, directory key,
    storage) has behind it the pulse that ends [initialize_reactor] for that
    handle, and with it the three statements before the pulse; and a
    [delete_reactor_data] that finds its handle not yet initialized does not
    run. *)
Theorem teardown_waits_for_initialization d h e before after :
  reachable d →
  trace d = before ++ e :: after →
  is_teardown h e = true →
  (∃ earlier later, before = earlier ++ ev_initialized_pulse h :: later ∧
     ev_get_svs h ∈ earlier ∧ ev_reactor_init h ∈ earlier ∧
     ev_directory_exporter_init h ∈ earlier) ∧
  ∀ d0 hd ns, heap d0 !! h = Some hd → reactor_has_been_initialized_ hd = false →
    coro_step (run_delete_reactor_data h ns del_at_wait) d0 = None.
Proof.
  intros (_ & _ & _ & Hpulse & Hteardown)%init_order_reachable Htrace He. split.
  - pose proof (Hteardown _ _ _ _ Htrace He) as (earlier & later & ->)%list_elem_of_split.
    exists earlier, later. split; [done |].
    rewrite <-app_assoc in Htrace. simpl in Htrace.
    pose proof (Hpulse _ _ _ Htrace) as Hdone. simpl in Hdone. set_solver.
  - intros d0 hd ns Hh Hflag. simpl. by rewrite Hh; simpl; rewrite Hflag.
Qed.

(** *** Addresses and the live map *)

Lemma allocation_initial w : allocation_ok (initial_driver (region_t := region_t) w).
Proof.
  split_and!; simpl.
  - intros ?? Hh. by rewrite lookup_empty in Hh.
  - intros ? Hc. by apply elem_of_nil in Hc.
  - intros ??? Hh. by rewrite lookup_empty in Hh.
  - intros ? Hc. by apply elem_of_nil in Hc.
Qed.

Lemma allocation_coro_step d pre c post c' d' :
  allocation_ok d → coros d = pre ++ c :: post → coro_step c d = Some (c', d') →
  allocation_ok (set_coros (pre ++ option_list c' ++ post) d') ∧
  reactor_data d' = reactor_data d ∧ next_handle d' = next_handle d.
Proof.
  intros (Hdata & Hcoro & Hinj & Hdetached) Hcoros Hstep.
  assert (c ∈ coros d) as Hc by (rewrite Hcoros, elem_of_app; right; left).
  assert (∀ x, x ∈ pre ++ option_list c' ++ post → x ∈ coros d ∨ c' = Some x) as Hmem.
  { intros x Hx. rewrite Hcoros. by eapply elem_of_resumed. }
  assert (reactor_data d' = reactor_data d ∧ next_handle d' = next_handle d ∧
          ∀ x, c' = Some x → coro_handle x = coro_handle c ∧
            ∀ h, h ∈ deleting [x] → h ∈ deleting [c]) as (Hdata' & Hnext' & Hc').
  { destruct c as [h pc|h ns pc]; simpl in Hstep.
    - apply initialize_reactor_step_shape in Hstep as (-> & ? & ? & _).
      split_and!; [done | done |].
      intros x (? & -> & _)%init_next_done. done.
    - apply delete_reactor_data_step_shape in Hstep as (-> & ? & ? & _).
      split_and!; [done | done |].
      intros x (? & -> & _)%delete_next_progress. done. }
  split_and!; [| done | done]. split_and!; simpl; rewrite ?Hdata', ?Hnext'; [done | | done |].
  - intros x [?|Hx]%Hmem; [by eauto |].
    destruct (Hc' _ Hx) as [-> _]. eauto.
  - intros h (ns & pc & [?|Hx]%Hmem)%elem_of_deleting.
    + apply Hdetached, elem_of_deleting. eauto.
    + apply Hdetached. destruct (Hc' _ Hx) as [_ Hdel].
      assert (h ∈ deleting [c]) as Hh.
      { apply Hdel, elem_of_deleting. exists ns, pc. left. }
      apply elem_of_deleting in Hh as (ns' & pc' & Heq%list_elem_of_singleton).
      subst c. apply elem_of_deleting. eauto.
Qed.

Lemma allocation_on_change_table view ns meta d d' :
  allocation_ok d → on_change_table view ns meta d = Some d' →
  allocation_ok d' ∧ next_handle d ≤ next_handle d' ∧
  (∀ c, c ∈ coros d → c ∈ coros d') ∧
  (∀ ns', ns' ≠ ns → reactor_data d' !! ns' = reactor_data d !! ns') ∧
  (∀ ns' h, reactor_data d' !! ns' = Some h →
     reactor_data d !! ns' = Some h ∨ next_handle d ≤ h).
Proof.
  intros (Hdata & Hcoro & Hinj & Hdetached)
    [(h & Hh & _ & ->)|[->|[[w ->]|[(bp & w & Hnone & ->)|(bp & w & h & Hh & ->)]]]]
      %on_change_table_cases.
  - split_and!; simpl; [split_and!; simpl | done | | |].
    + intros ns' h' [_ ?]%lookup_delete_Some. eauto.
    + intros c [?|Hnew%list_elem_of_singleton]%elem_of_app; [by eauto |].
      subst c. simpl. by eauto.
    + intros ns1 ns2 h' [_ ?]%lookup_delete_Some [_ ?]%lookup_delete_Some. eauto.
    + intros h' (ns' & pc & [?|[= -> -> ->]%list_elem_of_singleton]%elem_of_app)
        %elem_of_deleting ns1 [Hne ?]%lookup_delete_Some.
      * eapply (Hdetached h'); [apply elem_of_deleting; by eauto | done].
      * destruct Hne. eauto.
    + intros c ?. apply elem_of_app. by left.
    + intros ns' ?. by rewrite lookup_delete_ne.
    + intros ns' h' [_ ?]%lookup_delete_Some. by left.
  - split_and!; by eauto.
  - split_and!; by eauto.
  - assert (∀ ns' h, <[ns:=next_handle d]> (reactor_data d) !! ns' = Some h →
              (ns' = ns ∧ h = next_handle d) ∨ (reactor_data d !! ns' = Some h ∧
                h < next_handle d)) as Hlook.
    { intros ns' h [[-> <-]|[_ ?]]%lookup_insert_Some; [by left | right; by eauto]. }
    split_and!; simpl; [split_and!; simpl | lia | | |].
    + intros ns' h [[_ ->]|[_ ?]]%Hlook; lia.
    + intros c [Hc|Hnew%list_elem_of_singleton]%elem_of_app; [|subst c; simpl; lia].
      specialize (Hcoro _ Hc). lia.
    + intros ns1 ns2 h [[-> ->]|[? ?]]%Hlook [[-> ?]|[? ?]]%Hlook; try done; try lia.
      by eauto.
    + intros h (ns' & pc & [Hc|[=]%list_elem_of_singleton]%elem_of_app)%elem_of_deleting
        ns1 [[_ ->]|[? _]]%Hlook.
      * specialize (Hcoro _ Hc). simpl in Hcoro. lia.
      * eapply (Hdetached h); [apply elem_of_deleting; by eauto | done].
    + intros c ?. apply elem_of_app. by left.
    + intros ns' ?. by rewrite lookup_insert_ne.
    + intros ns' h [[_ ->]|[? _]]%Hlook; [by right | by left].
  - split_and!; by eauto.
Qed.

(** A handle that was allocated and is not in the live map stays out of it. *)
Lemma detached_on_change view d d' h :
  allocation_ok d → on_change view d = Some d' →
  h < next_handle d → (∀ ns, reactor_data d !! ns ≠ Some h) →
  allocation_ok d' ∧ h < next_handle d' ∧ ∀ ns, reactor_data d' !! ns ≠ Some h.
Proof.
  intros Hd Hrun Hh Hout. unfold on_change, on_change_loop in Hrun.
  eapply (for_each_preserves
    (λ a, allocation_ok a ∧ h < next_handle a ∧ ∀ ns, reactor_data a !! ns ≠ Some h));
    [by split_and! | | exact Hrun].
  intros k a a' _ (Ha & Hlt & Hnot) Hbody.
  apply bind_Some in Hbody as (meta & _ & Hbody).
  apply allocation_on_change_table in Hbody as (? & ? & _ & _ & Hvalues); [|done].
  split_and!; [done | lia |]. intros ns [?|?]%Hvalues; [by eapply Hnot | lia].
Qed.

Lemma detached_step d d' h :
  allocation_ok d → step d d' →
  h < next_handle d → (∀ ns, reactor_data d !! ns ≠ Some h) →
  allocation_ok d' ∧ h < next_handle d' ∧ ∀ ns, reactor_data d' !! ns ≠ Some h.
Proof.
  intros Hd Hstep Hh Hout.
  destruct Hstep as [d pre c post c' d' Hcoros Hstep|view d d' Hchange].
  - destruct (allocation_coro_step _ _ _ _ _ _ Hd Hcoros Hstep) as (? & Hdata & Hnext).
    simpl. by rewrite Hdata, Hnext.
  - by eapply detached_on_change.
Qed.

Lemma allocation_reachable d : reachable d → allocation_ok d.
Proof.
  intros [w Hrun].
  eapply (rtc_ind_r (λ d, allocation_ok d)); [| | exact Hrun].
  - apply allocation_initial.
  - intros d1 d2 _ Hstep IH.
    destruct Hstep as [d1 pre c post c' d1' Hcoros Hstep|view d1 d2 Hchange].
    + by eapply allocation_coro_step.
    + unfold on_change, on_change_loop in Hchange.
      eapply (for_each_preserves allocation_ok); [exact IH | | exact Hchange].
      intros k a a' _ Ha Hbody. apply bind_Some in Hbody as (meta & _ & Hbody).
      by eapply allocation_on_change_table.
Qed.

(** C8: a table that is deleted (or any table, once the local process was
    permanently removed) and has a live handle: the body of the loop takes
    the entry out of the live map and spawns the teardown in the state that
    no longer has it; when the pass returns, the entry is gone and the
    teardown is queued; and in no state the driver reaches afterwards is
    the detached handle in the map again. *)
Theorem detach_is_synchronous view d d' ns meta h :
  reachable d →
  on_change view d = Some d' →
  namespaces view !! ns = Some meta →
  is_deleted meta || we_were_permanently_removed view = true →
  reactor_data d !! ns = Some h →
  (∀ d0, reactor_data d0 !! ns = Some h →
     on_change_table view ns meta d0 =
       Some (spawn_sometime (run_delete_reactor_data h ns del_at_wait)
               (set_reactor_data (delete ns) d0)) ∧
     reactor_data (set_reactor_data (delete ns) d0) !! ns = None) ∧
  reactor_data d' !! ns = None ∧
  run_delete_reactor_data h ns del_at_wait ∈ coros d' ∧
  ∀ d'', rtc step d' d'' → ∀ ns', reactor_data d'' !! ns' ≠ Some h.
Proof.
  intros Halloc%allocation_reachable Hpass Hmeta Hgone Hlive.
  assert (∀ d0, reactor_data d0 !! ns = Some h →
     on_change_table view ns meta d0 =
       Some (spawn_sometime (run_delete_reactor_data h ns del_at_wait)
               (set_reactor_data (delete ns) d0))) as Hbody.
  { intros d0 Hd0. unfold on_change_table.
    rewrite Hgone, Hd0. simpl. rewrite ?bool_decide_eq_true_2 by (by eexists). done. }
  split.
  { intros d0 Hd0. split; [by apply Hbody |]. simpl. apply lookup_delete_eq. }
  unfold on_change, on_change_loop in Hpass.
  pose proof (NoDup_std_map_keys (namespaces view)) as Hnodup.
  assert (ns ∈ std_map_keys (namespaces view)) as Hns.
  { apply elem_of_std_map_keys. by eexists. }
  apply list_elem_of_split in Hns as (pre & post & Hkeys).
  rewrite Hkeys in Hpass, Hnodup.
  apply NoDup_app in Hnodup as (_ & Hpre & [Hpost _]%NoDup_cons).
  rewrite for_each_app in Hpass. apply bind_Some in Hpass as (d1 & Hrun1 & Hpass).
  simpl in Hpass. rewrite Hmeta in Hpass. simpl in Hpass.
  apply bind_Some in Hpass as (d2 & Hrun2 & Hrun3).
  (* the tables before [ns] leave its entry alone *)
  assert (allocation_ok d1 ∧ reactor_data d1 !! ns = Some h) as [Halloc1 Hlive1].
  { eapply (for_each_preserves (λ a, allocation_ok a ∧ reactor_data a !! ns = Some h));
      [by split | | exact Hrun1].
    intros k a a' Hk [Ha Hh] Hk_body.
    apply bind_Some in Hk_body as (meta' & _ & Hk_body).
    apply allocation_on_change_table in Hk_body as (? & _ & _ & Hframe & _); [|done].
    split; [done |]. rewrite Hframe; [done |]. intros ->. by eapply Hpre; [|left]. }
  fold (on_change_table view ns meta d1) in Hrun2.
  rewrite (Hbody d1 Hlive1) in Hrun2. injection Hrun2 as <-.
  destruct Halloc1 as (Hdata1 & Hcoro1 & Hinj1 & Hdetached1).
  (* the tables after [ns] do not bring it back *)
  assert (allocation_ok d' ∧ reactor_data d' !! ns = None ∧
          run_delete_reactor_data h ns del_at_wait ∈ coros d' ∧
          h < next_handle d' ∧ ∀ ns', reactor_data d' !! ns' ≠ Some h)
    as (Halloc' & Hnone' & Hqueued' & Hlt' & Hout').
  { eapply (for_each_preserves
      (λ a, allocation_ok a ∧ reactor_data a !! ns = None ∧
            run_delete_reactor_data h ns del_at_wait ∈ coros a ∧
            h < next_handle a ∧ ∀ ns', reactor_data a !! ns' ≠ Some h));
      [| | exact Hrun3].
    - split_and!; simpl.
      + eapply allocation_on_change_table; [|by apply Hbody]. by split_and!.
      + apply lookup_delete_eq.
      + apply elem_of_app. right. left.
      + by eauto.
      + intros ns' [Hne Hh]%lookup_delete_Some. destruct Hne. by eapply Hinj1.
    - intros k a a' Hk (Ha & Hnone & Hqueued & Hlt & Hout) Hk_body.
      apply bind_Some in Hk_body as (meta' & _ & Hk_body).
      apply allocation_on_change_table in Hk_body
        as (? & ? & Hkeep & Hframe & Hvalues); [|done].
      split_and!; [done | | by eauto | lia |].
      + rewrite Hframe; [done |]. intros ->. by apply Hpost.
      + intros ns' [?|?]%Hvalues; [by eapply Hout | lia]. }
  split_and!; [done | done |].
  intros d'' Hlater.
  eapply (rtc_ind_r (λ a, allocation_ok a ∧ h < next_handle a ∧
                          ∀ ns', reactor_data a !! ns' ≠ Some h)); [| | exact Hlater].
  - by split_and!.
  - intros a a' _ Hstep (? & ? & ?). by eapply detached_step.
Qed.

(** *** The order of a teardown *)

Local Arguments table_of : simpl never.

Lemma table_of_set_coros cs d h : table_of (set_coros cs d) h = table_of d h.
Proof. done. Qed.

Lemma table_of_alter d d' g h h' :
  heap d' = alter g h (heap d) → (∀ x, namespace_id_ (g x) = namespace_id_ x) →
  table_of d' h' = table_of d h'.
Proof.
  intros Hheap Hg. unfold table_of. rewrite Hheap, lookup_alter.
  case_decide; [subst |done]. destruct (heap d !! h'); simpl; [by rewrite Hg | done].
Qed.

Lemma teardown_initial w : teardown_ok (initial_driver (region_t := region_t) w).
Proof.
  split_and!; simpl.
  - intros h [? Hh]. unfold table_of in Hh. simpl in Hh. by rewrite lookup_empty in Hh.
  - intros ?? Hh. by rewrite lookup_empty in Hh.
  - constructor.
  - intros ??? Hc. by apply elem_of_nil in Hc.
  - intros h _. unfold table_of. simpl. rewrite lookup_empty. simpl.
    by destruct (decide (h < 0)).
Qed.

(** A step that leaves the teardowns, the tables of the handles and the
    map as they are. *)
Lemma teardown_ok_same d d' :
  teardown_ok d →
  next_handle d' = next_handle d → reactor_data d' = reactor_data d →
  (∀ h, table_of d' h = table_of d h) →
  (∀ h, teardown_trace h (trace d') = teardown_trace h (trace d)) →
  (∀ h ns pc, run_delete_reactor_data h ns pc ∈ coros d' →
     run_delete_reactor_data h ns pc ∈ coros d) →
  deleting (coros d') = deleting (coros d) →
  teardown_ok d'.
Proof.
  intros (Hheap & Hlive & Hnodup & Hrun & Hrest) Hnext Hdata Htable Htrace Hcoros Hdel.
  split_and!.
  - intros h. rewrite Htable, Hnext. apply Hheap.
  - intros ns h. rewrite Hdata, Htable. apply Hlive.
  - by rewrite Hdel.
  - intros h ns pc Hc%Hcoros. rewrite Htrace, Htable. by apply Hrun.
  - intros h. rewrite Hdel, Htable, Htrace, Hnext. apply Hrest.
Qed.

Lemma teardown_coro_step d pre c post c' d' :
  allocation_ok d → teardown_ok d →
  coros d = pre ++ c :: post → coro_step c d = Some (c', d') →
  teardown_ok (set_coros (pre ++ option_list c' ++ post) d').
Proof.
  intros (Hdata & Hcoro & Hinj & Hdetached) Hok Hcoros Hstep.
  assert (c ∈ coros d) as Hc by (rewrite Hcoros, elem_of_app; right; left).
  assert (∀ x, x ∈ pre ++ option_list c' ++ post → x ∈ coros d ∨ c' = Some x) as Hmem.
  { intros x Hx. rewrite Hcoros. by eapply elem_of_resumed. }
  destruct c as [h pc|h ns pc]; simpl in Hstep.
  - (* a statement of initialize_reactor *)
    apply initialize_reactor_step_shape in Hstep
      as (-> & Hdata' & Hnext' & _ & Htrace & hd & g & Hh & Hheap & Hg & _).
    apply (teardown_ok_same d); simpl; [done | done | done | | | |].
    + intros h'. by eapply table_of_alter.
    + intros h'. by rewrite Htrace, teardown_trace_snoc, is_teardown_init_event, app_nil_r.
    + intros h' ns' pc' [?|Hnew]%Hmem; [done |].
      by apply init_next_done in Hnew as (? & ? & _).
    + by rewrite Hcoros, !deleting_app, deleting_init_next.
  - (* a statement of delete_reactor_data *)
    destruct Hok as (Hheap & Hlive & Hnodup & Hrun & Hrest).
    destruct (Hrun _ _ _ Hc) as [Hprefix Htable].
    apply delete_reactor_data_step_shape in Hstep
      as (-> & Hdata' & Hnext' & _ & ns_used & g & Htrace & Hheap' & Hg & _ & Hused).
    assert (ns_used = ns) as ->.
    { destruct (decide (pc = del_at_destroy_svs)); [done |].
      destruct Hused as (hd & Hh & -> & _). unfold table_of in Htable.
      rewrite Hh in Htable. by injection Htable. }
    assert (∀ h', table_of d' h' =
              if decide (h' = h ∧ pc = del_at_members) then None else table_of d h')
      as Htable'.
    { intros h'. destruct (decide (pc = del_at_members)) as [->|Hpc].
      - unfold table_of. rewrite Hheap'. simpl.
        destruct (decide (h' = h)) as [->|].
        + by rewrite lookup_delete_eq, decide_True.
        + rewrite lookup_delete_ne by done. rewrite decide_False; [done | by intros []].
      - rewrite decide_False by (by intros []). by eapply table_of_alter. }
    rewrite Hcoros, !deleting_app in Hnodup. simpl in Hnodup.
    apply NoDup_app in Hnodup as (Hnodup_pre & Hpre & [Hpost Hnodup_post]%NoDup_cons).
    assert (∀ h' ns' pc', run_delete_reactor_data h' ns' pc' ∈ pre ++ post →
              h' ≠ h ∧ run_delete_reactor_data h' ns' pc' ∈ coros d) as Hothers.
    { intros h' ns' pc' [Hx|Hx]%elem_of_app.
      - split; [|rewrite Hcoros, elem_of_app; by left].
        intros ->. eapply Hpre; [apply elem_of_deleting; by eauto | left].
      - split; [|rewrite Hcoros, elem_of_app; right; by right].
        intros ->. apply Hpost, elem_of_deleting. eauto. }
    split_and!; simpl; rewrite ?Hnext', ?Hdata'; try setoid_rewrite table_of_set_coros.
    + intros h' [ns' Hh']. rewrite Htable' in Hh'. apply Hheap.
      case_decide; [done | by eexists].
    + intros ns' h' Hh'. rewrite Htable', decide_False; [by apply Hlive |].
      intros [-> _]. eapply Hdetached; [apply elem_of_deleting; by eauto | done].
    + rewrite !deleting_app, deleting_delete_next.
      case_decide; simpl; apply NoDup_app; (split_and!; [done | |]).
      * intros x Hx Hx'. eapply Hpre; [done | by right].
      * done.
      * done.
      * by constructor.
    + intros h' ns' pc' Hx.
      assert (run_delete_reactor_data h' ns' pc' ∈ pre ++ post ∨
              delete_next h ns pc = Some (run_delete_reactor_data h' ns' pc')) as [Hold|Hnew].
      { rewrite !elem_of_app in Hx. rewrite elem_of_app.
        destruct Hx as [?|[Hx|?]]; [by eauto | | by eauto].
        right. destruct (delete_next h ns pc); simpl in Hx;
          [apply list_elem_of_singleton in Hx; by subst | by apply elem_of_nil in Hx]. }
      * destruct (Hothers _ _ _ Hold) as [Hne Hin].
        destruct (Hrun _ _ _ Hin) as [Hprefix' Htable0].
        rewrite Htrace, teardown_trace_delete_event, decide_False, app_nil_r by done.
        split; [done |]. rewrite Htable', decide_False; [done | by intros []].
      * pose proof Hnew as Hnext.
        apply delete_next_progress in Hnew as (pc'' & [= -> -> ->] & _ & Hpc & Hprogress).
        rewrite Htrace, teardown_trace_delete_event, decide_True by done.
        rewrite Hprogress, teardown_sequence_step, Hprefix. split; [done |].
        rewrite Htable', Htable. rewrite (decide_False (P := pc = _)) by done.
        clear -Hnext.
        destruct pc; simplify_eq/=; repeat case_decide; destruct_and?; try done.
        by match goal with Hn : ¬ _ |- _ => destruct Hn end.
    + intros h' Hh'. rewrite !deleting_app, deleting_delete_next in Hh'.
      rewrite Htable', Htrace, teardown_trace_delete_event.
      destruct (decide (h = h')) as [<-|Hne].
      * destruct (decide (pc = del_at_destroy_svs)) as [->|];
          [|destruct Hh'; rewrite !elem_of_app; right; left; left].
        rewrite decide_False by (by intros []). rewrite Htable. simpl.
        rewrite decide_True by (apply (Hcoro _ Hc)).
        exists ns. by rewrite Hprefix.
      * rewrite decide_False by (by intros [-> _]). rewrite app_nil_r.
        apply Hrest. rewrite Hcoros, !deleting_app. simpl.
        rewrite !elem_of_app, elem_of_cons. rewrite !elem_of_app in Hh'.
        intros [?|[?|?]]; [| done |]; apply Hh'; eauto.
Qed.

Lemma teardown_on_change_table view ns meta d d' :
  allocation_ok d → teardown_ok d → on_change_table view ns meta d = Some d' →
  teardown_ok d'.
Proof.
  intros (Hdata & Hcoro & Hinj & Hdetached) Hok
    [(h & Hh & _ & ->)|[->|[[w ->]|[(bp & w & Hnone & ->)|(bp & w & h & Hh & ->)]]]]
      %on_change_table_cases.
  - (* the handle is detached and its teardown spawned *)
    destruct Hok as (Hheap & Hlive & Hnodup & Hrun & Hrest).
    assert (h ∉ deleting (coros d)) as Hfree by (intros ?; by eapply Hdetached).
    split_and!; simpl.
    + done.
    + intros ns' h' [_ ?]%lookup_delete_Some. by apply Hlive.
    + rewrite deleting_app. simpl. apply NoDup_app. split_and!; [done | | by apply NoDup_singleton].
      intros x Hx ->%list_elem_of_singleton. done.
    + intros h' ns' pc [?|Hnew%list_elem_of_singleton]%elem_of_app; [by apply Hrun |].
      injection Hnew as -> -> ->. simpl.
      change (table_of _ h) with (table_of d h).
      rewrite (Hlive _ _ Hh). split; [|done].
      specialize (Hrest _ Hfree). by rewrite (Hlive _ _ Hh) in Hrest.
    + intros h'. rewrite deleting_app, elem_of_app. intros Hh'.
      apply Hrest. eauto.
  - done.
  - by apply (teardown_ok_same d).
  - (* a new handle is allocated *)
    destruct Hok as (Hheap & Hlive & Hnodup & Hrun & Hrest).
    set (d' := set_reactor_data _ _).
    assert (∀ h, table_of d' h =
              if decide (h = next_handle d) then Some ns else table_of d h) as Htable'.
    { intros h. unfold table_of, d'. simpl. rewrite lookup_insert.
      destruct (decide (next_handle d = h)) as [<-|]; [by rewrite decide_True |].
      by rewrite decide_False. }
    assert (table_of d (next_handle d) = None) as Hfresh.
    { destruct (table_of d (next_handle d)) eqn:Hh; [|done].
      assert (next_handle d < next_handle d); [apply Hheap; by eexists | lia]. }
    split_and!.
    + intros h. rewrite Htable'. simpl. case_decide; [lia |].
      intros ?%Hheap. lia.
    + intros ns' h. rewrite Htable'. simpl.
      intros [[-> <-]|[? Hold]]%lookup_insert_Some; [by rewrite decide_True |].
      rewrite decide_False; [by apply Hlive |]. specialize (Hdata _ _ Hold). lia.
    + simpl. rewrite deleting_app. simpl. by rewrite app_nil_r.
    + intros h ns' pc. simpl.
      intros [Hc|Hnew%list_elem_of_singleton]%elem_of_app; [|done].
      rewrite Htable', decide_False; [by apply Hrun |].
      specialize (Hcoro _ Hc). simpl in Hcoro. lia.
    + intros h. simpl. rewrite deleting_app. simpl. rewrite app_nil_r. intros Hh.
      specialize (Hrest _ Hh). rewrite Htable'.
      destruct (decide (h = next_handle d)) as [->|Hne].
      * rewrite Hfresh in Hrest. by rewrite decide_False in Hrest by lia.
      * destruct (table_of d h); [done |].
        destruct (decide (h < next_handle d)); [rewrite decide_True by lia; done |].
        rewrite decide_False by lia. done.
  - (* the plan of a live handle is updated *)
    apply (teardown_ok_same d); simpl; [done | done | done | | done | done | done].
    intros h'. by eapply table_of_alter.
Qed.

Lemma driver_reachable d : reachable d → allocation_ok d ∧ teardown_ok d.
Proof.
  intros [w Hrun].
  eapply (rtc_ind_r (λ d, allocation_ok d ∧ teardown_ok d)); [| | exact Hrun].
  - split; [apply allocation_initial | apply teardown_initial].
  - intros d1 d2 _ Hstep [Halloc Hok].
    destruct Hstep as [d1 pre c post c' d1' Hcoros Hstep|view d1 d2 Hchange].
    + split; [by eapply allocation_coro_step | by eapply teardown_coro_step].
    + unfold on_change, on_change_loop in Hchange.
      eapply (for_each_preserves (λ d, allocation_ok d ∧ teardown_ok d));
        [done | | exact Hchange].
      intros k a a' _ [Ha Hoka] Hbody. apply bind_Some in Hbody as (meta & _ & Hbody).
      split; [by eapply allocation_on_change_table | by eapply teardown_on_change_table].
Qed.

(** *** A teardown runs to its end *)

Lemma init_pending_initial w : init_pending_ok (initial_driver (region_t := region_t) w).
Proof. intros h hd Hh. simpl in Hh. by rewrite lookup_empty in Hh. Qed.

Lemma init_pending_coro_step d pre c post c' d' :
  init_pending_ok d → coros d = pre ++ c :: post → coro_step c d = Some (c', d') →
  init_pending_ok (set_coros (pre ++ option_list c' ++ post) d').
Proof.
  intros Hpending Hcoros Hstep h0 hd0. simpl.
  assert (∀ x, x ∈ coros d → x ≠ c → x ∈ pre ++ option_list c' ++ post) as Hkeep.
  { intros x. rewrite Hcoros, !elem_of_app, elem_of_cons. intros [?|[?|?]] ?; by eauto. }
  destruct c as [h pc|h ns pc]; simpl in Hstep.
  - apply initialize_reactor_step_shape in Hstep
      as (-> & _ & _ & _ & _ & hd & g & Hh & Hheap & _ & Hflag).
    rewrite Hheap, lookup_alter. destruct (decide (h = h0)) as [<-|Hne].
    + rewrite Hh. intros [= <-]. rewrite Hflag.
      destruct pc; try done; intros _; eexists; rewrite !elem_of_app; right; left; left.
    + intros Hh0 Hflag0. destruct (Hpending _ _ Hh0 Hflag0) as [pc0 Hpc0].
      exists pc0. apply Hkeep; [done | congruence].
  - apply delete_reactor_data_step_shape in Hstep
      as (-> & _ & _ & _ & ns_used & g & _ & Hheap & _ & Hflag & _).
    intros Hh0 Hflag0.
    assert (∃ hd, heap d !! h0 = Some hd ∧ reactor_has_been_initialized_ hd = false)
      as (hd & Hhd & Hhd_flag).
    { rewrite Hheap in Hh0. destruct (decide (pc = del_at_members)).
      - apply lookup_delete_Some in Hh0 as [_ ?]. eauto.
      - rewrite lookup_alter in Hh0. destruct (decide (h = h0)) as [<-|]; [|by eauto].
        destruct (heap d !! h) as [hd|]; simplify_eq/=. rewrite Hflag in Hflag0. eauto. }
    destruct (Hpending _ _ Hhd Hhd_flag) as [pc0 Hpc0].
    exists pc0. by apply Hkeep.
Qed.

Lemma init_pending_on_change_table view ns meta d d' :
  init_pending_ok d → on_change_table view ns meta d = Some d' → init_pending_ok d'.
Proof.
  intros Hpending
    [(h & Hh & _ & ->)|[->|[[w ->]|[(bp & w & Hnone & ->)|(bp & w & h & Hh & ->)]]]]
      %on_change_table_cases.
  - intros h0 hd0 Hh0 Hflag0. simpl in *. destruct (Hpending _ _ Hh0 Hflag0) as [pc ?].
    exists pc. apply elem_of_app. by left.
  - done.
  - done.
  - intros h0 hd0. simpl. rewrite lookup_insert.
    destruct (decide (next_handle d = h0)) as [<-|].
    + intros _ _. exists init_at_get_svs. apply elem_of_app. right. left.
    + intros Hh0 Hflag0. destruct (Hpending _ _ Hh0 Hflag0) as [pc ?].
      exists pc. apply elem_of_app. by left.
  - intros h0 hd0 Hh0 Hflag0. simpl in *.
    assert (∃ hd, heap d !! h0 = Some hd ∧ reactor_has_been_initialized_ hd = false)
      as (hd & Hhd & Hhd_flag).
    { rewrite lookup_alter in Hh0. destruct (decide (h = h0)) as [<-|]; [|by eauto].
      destruct (heap d !! h) as [hd|]; simplify_eq/=. eauto. }
    by eapply Hpending.
Qed.

Lemma init_pending_reachable d : reachable d → init_pending_ok d.
Proof.
  intros [w Hrun].
  eapply (rtc_ind_r (λ d, init_pending_ok d)); [| | exact Hrun].
  - apply init_pending_initial.
  - intros d1 d2 _ Hstep IH.
    destruct Hstep as [d1 pre c post c' d1' Hcoros Hstep|view d1 d2 Hchange].
    + by eapply init_pending_coro_step.
    + unfold on_change, on_change_loop in Hchange.
      eapply (for_each_preserves init_pending_ok); [exact IH | | exact Hchange].
      intros k a a' _ Ha Hbody. apply bind_Some in Hbody as (meta & _ & Hbody).
      by eapply init_pending_on_change_table.
Qed.

Lemma reachable_step d d' : reachable d → step d d' → reachable d'.
Proof. intros [w Hrun] Hstep. exists w. by eapply rtc_r. Qed.

Lemma reachable_steps d d' : reachable d → rtc step d d' → reachable d'.
Proof. intros [w Hrun] Hsteps. exists w. by etrans. Qed.

(** [initialize_reactor] runs to its pulse, whatever else is spawned. *)
Lemma initialize_reactor_runs d h pc :
  run_initialize_reactor h pc ∈ coros d → is_Some (heap d !! h) →
  ∃ d', rtc step d d' ∧
    (∃ hd, heap d' !! h = Some hd ∧ reactor_has_been_initialized_ hd = true) ∧
    ∀ h' ns' pc', run_delete_reactor_data h' ns' pc' ∈ coros d →
      run_delete_reactor_data h' ns' pc' ∈ coros d'.
Proof.
  assert (∀ k d pc, 3 - length (init_done h pc) = k →
    run_initialize_reactor h pc ∈ coros d → is_Some (heap d !! h) →
    ∃ d', rtc step d d' ∧
      (∃ hd, heap d' !! h = Some hd ∧ reactor_has_been_initialized_ hd = true) ∧
      ∀ h' ns' pc', run_delete_reactor_data h' ns' pc' ∈ coros d →
        run_delete_reactor_data h' ns' pc' ∈ coros d') as Hrun; [|by eauto].
  clear d pc. intros k. induction k as [k IH] using lt_wf_ind.
  intros d pc Hk (pre & post & Hcoros)%list_elem_of_split [hd Hh].
  destruct (initialize_reactor_step h pc d) as [[c' d1]|] eqn:Hstep.
  2:{ unfold initialize_reactor_step in Hstep. rewrite Hh in Hstep. by destruct pc. }
  pose proof Hstep as Hshape.
  apply initialize_reactor_step_shape in Hshape
    as (-> & _ & _ & _ & _ & hd' & g & Hh' & Hheap & _ & Hflag).
  set (d2 := set_coros (pre ++ option_list (init_next h pc) ++ post) d1).
  assert (step d d2) as Hstep2 by (by eapply (step_coro _ d pre _ post)).
  assert (∀ h' ns' pc', run_delete_reactor_data h' ns' pc' ∈ coros d →
            run_delete_reactor_data h' ns' pc' ∈ coros d2) as Hkeep.
  { intros h' ns' pc'. rewrite Hcoros. simpl. rewrite !elem_of_app, elem_of_cons.
    intros [?|[?|?]]; by eauto. }
  assert (heap d2 !! h = Some (g hd)) as Hh2.
  { simpl. by rewrite Hheap, lookup_alter_eq, Hh. }
  destruct (decide (pc = init_at_pulse)) as [->|Hpc].
  - exists d2. split_and!; [by apply rtc_once | | done].
    exists (g hd). split; [done |]. by rewrite Hflag.
  - destruct (init_next h pc) as [c'|] eqn:Hnext; [|by destruct pc].
    apply init_next_done in Hnext as (pc' & -> & Hdone).
    destruct (IH (3 - length (init_done h pc'))) with (d := d2) (pc := pc')
      as (d' & Hsteps & Hinit & Hkeep').
    + rewrite Hdone, length_app. destruct pc; simpl in *; try done; lia.
    + done.
    + simpl. rewrite !elem_of_app. right. left.
    + by eexists.
    + exists d'. split_and!; [by eapply rtc_l | done | by eauto].
Qed.

(** One statement of a teardown that is not waiting for the initialization. *)
Lemma delete_reactor_data_runs_one d h ns pc :
  reachable d → run_delete_reactor_data h ns pc ∈ coros d →
  (pc = del_at_wait →
     ∃ hd, heap d !! h = Some hd ∧ reactor_has_been_initialized_ hd = true) →
  ∃ d', step d d' ∧
    match delete_next h ns pc with
    | Some c => c ∈ coros d'
    | None => (h ∉ deleting (coros d')) ∧
              teardown_trace h (trace d') = teardown_sequence h ns
    end.
Proof.
  intros [_ (_ & _ & Hnodup & Hrun & _)]%driver_reachable Hc Hinit.
  destruct (Hrun _ _ _ Hc) as [Htrace Htable].
  apply list_elem_of_split in Hc as (pre & post & Hcoros).
  destruct (delete_reactor_data_step h ns pc d) as [[c' d1]|] eqn:Hstep.
  2:{ unfold delete_reactor_data_step in Hstep. unfold table_of in Htable.
      destruct pc; try done; simpl in Htable.
      1: destruct Hinit as (hd & Hhd & Hflag); [done |];
         by rewrite Hhd in Hstep; simpl in Hstep; rewrite Hflag in Hstep.
      all: by destruct (heap d !! h). }
  pose proof Hstep as Hshape.
  apply delete_reactor_data_step_shape in Hshape
    as (-> & _ & _ & _ & ns_used & g & Htrace' & _ & _ & _ & Hused).
  exists (set_coros (pre ++ option_list (delete_next h ns pc) ++ post) d1).
  split; [by eapply (step_coro _ d pre _ post) |].
  destruct (delete_next h ns pc) as [c|] eqn:Hnext; simpl.
  - rewrite elem_of_app, elem_of_cons. by eauto.
  - destruct pc; try done. simpl in Hused. subst ns_used. split.
    + rewrite Hcoros, deleting_app in Hnodup. simpl in Hnodup.
      apply NoDup_app in Hnodup as (_ & Hpre & [Hpost _]%NoDup_cons).
      rewrite deleting_app, elem_of_app. intros [Hin|Hin]; [|done].
      eapply Hpre; [done | left].
    + rewrite Htrace', teardown_trace_delete_event, Htrace. by rewrite decide_True.
Qed.

(** A teardown that was spawned runs to its end: the driver can go on to a
    state where the handle's teardown is over and has emitted the whole
    sequence. *)
Lemma delete_reactor_data_runs d h ns pc :
  reachable d → run_delete_reactor_data h ns pc ∈ coros d →
  ∃ d', rtc step d d' ∧ (h ∉ deleting (coros d')) ∧
    teardown_trace h (trace d') = teardown_sequence h ns.
Proof.
  assert (∀ pc', (∀ d1, reachable d1 →
      run_delete_reactor_data h ns pc' ∈ coros d1 →
      ∃ d', rtc step d1 d' ∧ (h ∉ deleting (coros d')) ∧
        teardown_trace h (trace d') = teardown_sequence h ns) →
    ∀ pc0 d0, delete_next h ns pc0 = Some (run_delete_reactor_data h ns pc') →
      reachable d0 → run_delete_reactor_data h ns pc0 ∈ coros d0 →
      (pc0 = del_at_wait →
         ∃ hd, heap d0 !! h = Some hd ∧ reactor_has_been_initialized_ hd = true) →
      ∃ d', rtc step d0 d' ∧ (h ∉ deleting (coros d')) ∧
        teardown_trace h (trace d') = teardown_sequence h ns) as Hchain.
  { intros pc' Hrest pc0 d0 Hnext Hreach Hc Hinit.
    destruct (delete_reactor_data_runs_one d0 h ns pc0 Hreach Hc Hinit)
      as (d1 & Hstep & Hc1).
    rewrite Hnext in Hc1.
    destruct (Hrest d1) as (d' & Hsteps & Hover); [by eapply reachable_step | done |].
    exists d'. split; [by eapply rtc_l | done]. }
  assert (∀ d1, reachable d1 →
      run_delete_reactor_data h ns del_at_destroy_svs ∈ coros d1 →
      ∃ d', rtc step d1 d' ∧ (h ∉ deleting (coros d')) ∧
        teardown_trace h (trace d') = teardown_sequence h ns) as Hdestroy.
  { intros d1 Hreach Hc.
    destruct (delete_reactor_data_runs_one d1 h ns _ Hreach Hc) as (d' & Hstep & Hover);
      [done |].
    exists d'. split; [by apply rtc_once | done]. }
  pose proof (λ d1 Hr Hc, Hchain _ Hdestroy del_at_members d1 eq_refl Hr Hc
                (λ E, ltac:(discriminate E))) as Hmembers.
  pose proof (λ d1 Hr Hc, Hchain _ Hmembers del_at_delete_key d1 eq_refl Hr Hc
                (λ E, ltac:(discriminate E))) as Hkey.
  pose proof (λ d1 Hr Hc, Hchain _ Hkey del_at_reactor d1 eq_refl Hr Hc
                (λ E, ltac:(discriminate E))) as Hreactor.
  pose proof (λ d1 Hr Hc, Hchain _ Hreactor del_at_directory_exporter d1 eq_refl Hr Hc
                (λ E, ltac:(discriminate E))) as Hexporter.
  intros Hreach Hc. destruct pc; [| by eauto..].
  (* the destructor waits for [initialize_reactor] first *)
  pose proof Hreach as [_ (_ & _ & _ & Hrun & _)]%driver_reachable.
  destruct (Hrun _ _ _ Hc) as [_ Htable]. unfold table_of in Htable. simpl in Htable.
  destruct (heap d !! h) as [hd|] eqn:Hhd; [|done].
  destruct (reactor_has_been_initialized_ hd) eqn:Hflag.
  - eapply (Hchain _ Hexporter del_at_wait); [done.. |]. by eauto.
  - destruct (init_pending_reachable _ Hreach _ _ Hhd Hflag) as [pc0 Hpc0].
    destruct (initialize_reactor_runs d h pc0 Hpc0) as (d1 & Hsteps & Hinit & Hkeep);
      [by eexists |].
    destruct (Hchain _ Hexporter del_at_wait d1) as (d' & Hsteps' & Hover);
      [done | by eapply reachable_steps | by apply Hkeep | done |].
    exists d'. split; [by etrans | done].
Qed.

(** C2: in every state the driver can reach, whatever the schedule and
    whether or not the handle was initialized when its teardown was asked
    for, the teardown events of a handle are an initial part of: export
    link destroyed, reactor destroyed, the table's key removed from the
    directory, storage released (the members that hold the stores, then
    [destroy_svs]); a teardown under way has emitted exactly the events of
    the statements it has behind it, and a handle whose teardown is over has
    emitted the whole sequence. A teardown under way can always be run to
    its end, first letting the handle's initialization finish. *)
Theorem teardown_in_order d h :
  reachable d →
  (∀ ns pc, run_delete_reactor_data h ns pc ∈ coros d →
     teardown_trace h (trace d) = take (delete_progress pc) (teardown_sequence h ns) ∧
     ∃ d', rtc step d d' ∧ (h ∉ deleting (coros d')) ∧
       teardown_trace h (trace d') = teardown_sequence h ns) ∧
  (h ∉ deleting (coros d) → is_Some (heap d !! h) → teardown_trace h (trace d) = []) ∧
  (h ∉ deleting (coros d) → heap d !! h = None → h < next_handle d →
     ∃ ns, teardown_trace h (trace d) = teardown_sequence h ns) ∧
  ∃ ns n, teardown_trace h (trace d) = take n (teardown_sequence h ns).
Proof.
  intros Hreach.
  pose proof Hreach as [Halloc (Hheap & Hlive & Hnodup & Hrun & Hrest)]%driver_reachable.
  assert (∀ ns pc, run_delete_reactor_data h ns pc ∈ coros d →
     teardown_trace h (trace d) = take (delete_progress pc) (teardown_sequence h ns))
    as Hunder_way by (intros ns pc Hc; by apply Hrun).
  assert (h ∉ deleting (coros d) →
     match heap d !! h with
     | Some _ => teardown_trace h (trace d) = []
     | None =>
         if decide (h < next_handle d)
         then ∃ ns, teardown_trace h (trace d) = teardown_sequence h ns
         else teardown_trace h (trace d) = []
     end) as Hidle.
  { intros Hh. specialize (Hrest _ Hh). unfold table_of in Hrest.
    by destruct (heap d !! h). }
  split_and!.
  - intros ns pc Hc. split; [by apply Hunder_way |].
    by eapply delete_reactor_data_runs.
  - intros Hh [hd Hhd]. specialize (Hidle Hh). by rewrite Hhd in Hidle.
  - intros Hh Hnone Hlt. specialize (Hidle Hh). rewrite Hnone in Hidle.
    by rewrite decide_True in Hidle.
  - destruct (decide (h ∈ deleting (coros d))) as [Hh|Hh].
    + apply elem_of_deleting in Hh as (ns & pc & Hc). eauto.
    + specialize (Hidle Hh). destruct (heap d !! h).
      * exists 0%N, 0. by rewrite Hidle.
      * case_decide; [|exists 0%N, 0; by rewrite Hidle].
        destruct Hidle as [ns Hns]. exists ns, 5. by rewrite Hns.
Qed.

End driver_steps.

(** ** The claims at the example cluster *)

Lemma construct_blueprint_invariants_witness :
  length (shards (config example_info)) = num_shards (shard_scheme example_info) ∧
  NoDup (id <$> shard_ranges (shard_scheme example_info)) ∧
  server_id_to_peer_id_map_at example_client (S (map_reads example_world)) =
    server_id_to_peer_id_map_at example_client (map_reads example_world) ∧
  ∃ bp w', construct_blueprint id example_uuids example_info example_client example_world
             = Some (bp, w') ∧
    (∀ p i, is_Some (peers_roles bp !! p) → i < num_shards (shard_scheme example_info) →
       ∃ r, shard_region id example_info i = Some r ∧ is_Some (role_of bp p r)) ∧
    (∀ r p1 p2, role_of bp p1 r = Some blueprint_role_primary →
       role_of bp p2 r = Some blueprint_role_primary → p1 = p2) ∧
    (∀ server p,
       server_id_to_peer_id_map_at example_client (map_reads example_world) !! server
         = Some p →
       is_Some (peers_roles bp !! p)).
Proof.
  assert (NoDup (id <$> shard_ranges (shard_scheme example_info))) as Hdistinct.
  { apply (bool_decide_unpack _). vm_compute. exact I. }
  split; [reflexivity |]. split; [exact Hdistinct |]. split; [reflexivity |].
  apply (construct_blueprint_invariants id example_uuids example_info example_client
           example_world); [reflexivity | exact Hdistinct | reflexivity].
Defined.

Lemma secondaries_recorded_witness :
  length (shards (config example_info)) = num_shards (shard_scheme example_info) ∧
  NoDup (id <$> shard_ranges (shard_scheme example_info)) ∧
  ∃ b, construct_blueprint_locals id example_uuids example_info example_client
         example_world = Some b ∧
    construct_blueprint id example_uuids example_info example_client example_world =
      Some (blueprint b, world b) ∧
    ∀ i shard region,
      shards (config example_info) !! i = Some shard →
      shard_region id example_info i = Some region →
      ∃ director_peer,
        role_of (blueprint b) director_peer region = Some blueprint_role_primary ∧
        (is_Some (get_name_for_server_id example_client (director shard)) →
           server_id_to_peer_id_map (trans b) !! director shard = Some director_peer) ∧
        (get_name_for_server_id example_client (director shard) = None →
           ∃ k, director_peer = PeerId (example_uuids k)) ∧
        ∀ server, server ∈ replicas shard →
          is_Some (get_name_for_server_id example_client server) →
          ∃ peer,
            server_id_to_peer_id_map (trans b) !! server = Some peer ∧
            is_Some (peers_roles (blueprint b) !! peer) ∧
            role_of (blueprint b) peer region =
              Some (if decide (peer = director_peer)
                    then blueprint_role_primary else blueprint_role_secondary).
Proof.
  assert (NoDup (id <$> shard_ranges (shard_scheme example_info))) as Hdistinct.
  { apply (bool_decide_unpack _). vm_compute. exact I. }
  split; [reflexivity |]. split; [exact Hdistinct |].
  apply (secondaries_recorded id example_uuids example_info example_client example_world);
    [reflexivity | exact Hdistinct].
Defined.

(** C4, as stated, fails: two name clients that are the same when the call
    starts (same names, same first read of the live map) give different
    blueprints, because the call reads the live map again later on. *)
Lemma construct_blueprint_rereads_live_map :
  (∀ server, get_name_for_server_id example_client server =
             get_name_for_server_id drifting_client server) ∧
  server_id_to_peer_id_map_at example_client (map_reads example_world) =
    server_id_to_peer_id_map_at drifting_client (map_reads example_world) ∧
  construct_blueprint id example_uuids example_info example_client example_world ≠
    construct_blueprint id example_uuids example_info drifting_client example_world.
Proof.
  split; [done |]. split; [done |]. intros Heq.
  apply (f_equal (fmap (M := option) (λ x, size (peers_roles x.1)))) in Heq.
  vm_compute in Heq. discriminate Heq.
Qed.

Lemma construct_blueprint_reads_witness :
  (∀ server, get_name_for_server_id example_client server =
             get_name_for_server_id relabelled_client server) ∧
  server_id_to_peer_id_map_at example_client (map_reads example_world) =
    server_id_to_peer_id_map_at relabelled_client (map_reads example_world) ∧
  dom (server_id_to_peer_id_map_at example_client (S (map_reads example_world))) =
    dom (server_id_to_peer_id_map_at relabelled_client (S (map_reads example_world))) ∧
  construct_blueprint id example_uuids example_info example_client example_world =
    construct_blueprint id example_uuids example_info relabelled_client example_world ∧
  ∀ bp w',
    construct_blueprint id example_uuids example_info example_client example_world
      = Some (bp, w') →
    map_reads w' = 2 + map_reads example_world.
Proof.
  assert (dom (server_id_to_peer_id_map_at example_client (S (map_reads example_world))) =
    dom (server_id_to_peer_id_map_at relabelled_client (S (map_reads example_world))))
    as Hdom.
  { apply (bool_decide_unpack _). vm_compute. exact I. }
  split; [reflexivity |]. split; [reflexivity |]. split; [exact Hdom |].
  apply (construct_blueprint_reads id example_uuids example_info example_client
           relabelled_client example_world); [reflexivity | reflexivity | exact Hdom].
Defined.

Lemma construct_blueprint_twice_witness :
  length (shards (config example_info)) = num_shards (shard_scheme example_info) ∧
  NoDup (id <$> shard_ranges (shard_scheme example_info)) ∧
  (∀ k, server_id_to_peer_id_map_at example_client k =
        server_id_to_peer_id_map_at example_client 0) ∧
  (∀ k server,
     server_id_to_peer_id_map_at example_client 0 !! server ≠
       Some (PeerId (example_uuids k))) ∧
  ∃ bp1 w1 bp2 w2,
    construct_blueprint id example_uuids example_info example_client example_world
      = Some (bp1, w1) ∧
    construct_blueprint id example_uuids example_info example_client
      {| uuids_drawn := 2; map_reads := 2 |} = Some (bp2, w2) ∧
    ∀ server p, server_id_to_peer_id_map_at example_client 0 !! server = Some p →
      is_Some (peers_roles bp1 !! p) ∧ is_Some (peers_roles bp2 !! p) ∧
      ∀ r, role_of bp1 p r = role_of bp2 p r.
Proof.
  assert (NoDup (id <$> shard_ranges (shard_scheme example_info))) as Hdistinct.
  { apply (bool_decide_unpack _). vm_compute. exact I. }
  assert (∀ k server,
     server_id_to_peer_id_map_at example_client 0 !! server ≠
       Some (PeerId (example_uuids k))) as Hfresh.
  { intros k server Hlive.
    assert (map_Forall (λ _ p, (peer_uuid p < 1000)%N) example_snapshot) as Hsmall.
    { apply (bool_decide_unpack _). vm_compute. exact I. }
    apply Hsmall in Hlive. unfold example_uuids in Hlive. simpl in Hlive. lia. }
  split; [reflexivity |]. split; [exact Hdistinct |]. split; [reflexivity |].
  split; [exact Hfresh |].
  apply (construct_blueprint_twice id example_uuids example_info example_client
           example_world {| uuids_drawn := 2; map_reads := 2 |});
    [reflexivity | exact Hdistinct | reflexivity | exact Hfresh].
Defined.

(** ** The driver on the example cluster *)

Lemma example_started_reachable : reachable example_construct example_started.
Proof.
  exists example_world.
  apply (run_schedule_steps example_construct [act_on_change example_view; act_resume 0]).
  vm_compute. reflexivity.
Defined.

Lemma example_detached_reachable : reachable example_construct example_detached.
Proof.
  destruct example_started_reachable as [w Hrun]. exists w.
  eapply rtc_r; [exact Hrun |]. apply (step_on_change _ example_view_deleted).
  vm_compute. reflexivity.
Defined.

Lemma example_torn_down_reachable : reachable example_construct example_torn_down.
Proof.
  destruct example_detached_reachable as [w Hrun]. exists w.
  etrans; [exact Hrun |].
  apply (run_schedule_steps example_construct
    [act_resume 0; act_resume 0; act_resume 0;
     act_resume 0; act_resume 0; act_resume 0; act_resume 0; act_resume 0;
     act_resume 0]).
  vm_compute. reflexivity.
Defined.

Lemma teardown_in_order_witness :
  reachable example_construct example_torn_down ∧
  (∀ ns pc, run_delete_reactor_data 0 ns pc ∈ coros example_torn_down →
     teardown_trace 0 (trace example_torn_down) =
       take (delete_progress pc) (teardown_sequence 0 ns) ∧
     ∃ d', rtc (step example_construct) example_torn_down d' ∧
       (0 ∉ deleting (coros d')) ∧
       teardown_trace 0 (trace d') = teardown_sequence 0 ns) ∧
  (0 ∉ deleting (coros example_torn_down) → is_Some (heap example_torn_down !! 0) →
     teardown_trace 0 (trace example_torn_down) = []) ∧
  (0 ∉ deleting (coros example_torn_down) → heap example_torn_down !! 0 = None →
     0 < next_handle example_torn_down →
     ∃ ns, teardown_trace 0 (trace example_torn_down) = teardown_sequence 0 ns) ∧
  ∃ ns n, teardown_trace 0 (trace example_torn_down) = take n (teardown_sequence 0 ns).
Proof.
  split; [exact example_torn_down_reachable |].
  apply (teardown_in_order example_construct example_torn_down 0).
  exact example_torn_down_reachable.
Defined.

Lemma teardown_waits_for_initialization_witness :
  reachable example_construct example_torn_down ∧
  trace example_torn_down =
    [ev_get_svs 0; ev_reactor_init 0; ev_directory_exporter_init 0;
     ev_initialized_pulse 0] ++
    ev_directory_exporter_reset 0 ::
    [ev_reactor_reset 0; ev_delete_key 0 7%N; ev_members_destroyed 0;
     ev_destroy_svs 0 7%N] ∧
  is_teardown 0 (ev_directory_exporter_reset 0) = true ∧
  (∃ earlier later,
     [ev_get_svs 0; ev_reactor_init 0; ev_directory_exporter_init 0;
      ev_initialized_pulse 0] = earlier ++ ev_initialized_pulse 0 :: later ∧
     ev_get_svs 0 ∈ earlier ∧ ev_reactor_init 0 ∈ earlier ∧
     ev_directory_exporter_init 0 ∈ earlier) ∧
  ∀ (d0 : reactor_driver_t (region_t := N)) hd ns,
    heap d0 !! 0 = Some hd → reactor_has_been_initialized_ hd = false →
    coro_step (run_delete_reactor_data 0 ns del_at_wait) d0 = None.
Proof.
  split; [exact example_torn_down_reachable |].
  split; [vm_compute; reflexivity |]. split; [reflexivity |].
  apply (teardown_waits_for_initialization example_construct example_torn_down 0
           (ev_directory_exporter_reset 0)
           [ev_get_svs 0; ev_reactor_init 0; ev_directory_exporter_init 0;
            ev_initialized_pulse 0]
           [ev_reactor_reset 0; ev_delete_key 0 7%N; ev_members_destroyed 0;
            ev_destroy_svs 0 7%N]);
    [exact example_torn_down_reachable | vm_compute; reflexivity | reflexivity].
Defined.

Lemma detach_is_synchronous_witness :
  reachable example_construct example_started ∧
  on_change example_construct example_view_deleted example_started =
    Some example_detached ∧
  namespaces example_view_deleted !! 7%N = Some deleted ∧
  is_deleted (A := namespace_semilattice_metadata_t (key_range_t := N)) deleted
    || we_were_permanently_removed example_view_deleted = true ∧
  reactor_data example_started !! 7%N = Some 0 ∧
  (∀ d0 : reactor_driver_t (region_t := N), reactor_data d0 !! 7%N = Some 0 →
     on_change_table example_construct example_view_deleted 7%N deleted d0 =
       Some (spawn_sometime (run_delete_reactor_data 0 7%N del_at_wait)
               (set_reactor_data (delete 7%N) d0)) ∧
     reactor_data (set_reactor_data (delete 7%N) d0) !! 7%N = None) ∧
  reactor_data example_detached !! 7%N = None ∧
  run_delete_reactor_data 0 7%N del_at_wait ∈ coros example_detached ∧
  ∀ d'', rtc (step example_construct) example_detached d'' →
    ∀ ns', reactor_data d'' !! ns' ≠ Some 0.
Proof.
  assert (on_change example_construct example_view_deleted example_started =
            Some example_detached) as Hpass by (vm_compute; reflexivity).
  assert (namespaces example_view_deleted !! 7%N = Some deleted) as Hmeta
    by (vm_compute; reflexivity).
  assert (reactor_data example_started !! 7%N = Some 0) as Hlive
    by (vm_compute; reflexivity).
  split; [exact example_started_reachable |]. split; [exact Hpass |].
  split; [exact Hmeta |]. split; [reflexivity |]. split; [exact Hlive |].
  apply (detach_is_synchronous example_construct example_view_deleted example_started
           example_detached 7%N deleted 0);
    [exact example_started_reachable | exact Hpass | exact Hmeta | reflexivity | exact Hlive].
Defined.

Lemma on_change_skips_name_collision_witness :
  namespaces colliding_view !! 7%N = Some (existing {| replication_info := example_info |}) ∧
  (we_were_permanently_removed colliding_view = false ∨
   reactor_data example_started !! 7%N = None) ∧
  colliding_construct example_info (server_name_client colliding_view)
    (driver_world example_started) =
    caught_server_name_collision (driver_world example_started) ∧
  ∃ d', on_change_table colliding_construct colliding_view 7%N
          (existing {| replication_info := example_info |}) example_started = Some d' ∧
    reactor_data d' = reactor_data example_started ∧ heap d' = heap example_started ∧
    next_handle d' = next_handle example_started ∧
    watchable_var d' = watchable_var example_started ∧
    coros d' = coros example_started ∧ trace d' = trace example_started ∧
    on_change_loop colliding_construct colliding_view [7%N] example_started =
      on_change_loop colliding_construct colliding_view [] d'.
Proof.
  assert (namespaces colliding_view !! 7%N =
            Some (existing {| replication_info := example_info |})) as Hmeta
    by (vm_compute; reflexivity).
  assert (colliding_construct example_info (server_name_client colliding_view)
    (driver_world example_started) =
    caught_server_name_collision (driver_world example_started)) as Hthrow
    by (vm_compute; reflexivity).
  split; [exact Hmeta |]. split; [left; reflexivity |]. split; [exact Hthrow |].
  apply (on_change_skips_name_collision colliding_construct colliding_view 7%N
           {| replication_info := example_info |} [] example_started
           (driver_world example_started));
    [exact Hmeta | left; reflexivity | exact Hthrow].
Defined.

(** * Further properties of the code *)

(** ** The directory view of a handle *)

Section directory_transform_facts.
Context {region_t : Type} `{Countable region_t}.
Implicit Types (this other : watchable_and_reactor_t (region_t := region_t)).

(** X1: the two key translations of a handle undo each other: a key of the
    cluster-wide directory is taken to a peer exactly when that peer is
    taken back to the key; the values are passed on as they are. *)
Theorem directory_key_round_trip {namespace_directory_metadata_t : Type} this
    (key1 : peer_id_t * namespace_id_t) (key2 : peer_id_t)
    (value1 : namespace_directory_metadata_t) :
  (key_1_to_2 this key1 = Some key2 ↔ key_2_to_1 this key2 = Some key1) ∧
  value_1_to_2 this value1 = value1.
Proof.
  split; [|done].
  unfold key_1_to_2, key_2_to_1. destruct key1 as [peer ns]; simpl.
  case_decide; split; intros [= ]; subst; done.
Qed.

(** X2: the handles of two different tables never both see the same
    entry of the cluster-wide directory. *)
Theorem directory_views_disjoint this other (key1 : peer_id_t * namespace_id_t) :
  namespace_id_ this ≠ namespace_id_ other →
  is_Some (key_1_to_2 this key1) → key_1_to_2 other key1 = None.
Proof.
  unfold key_1_to_2. intros Hne [key2 Hkey].
  case_decide; [|done]. rewrite decide_False; [done | congruence].
Qed.

End directory_transform_facts.

(** ** The destructor of [stores_lifetimer_t] *)

Lemma reset_store_at (events : list lifetimer_event_t)
    (done rest : list (option home_thread_mixin_t)) (slot : option home_thread_mixin_t) :
  reset_store (length done) (events, done ++ slot :: rest) =
    store ← slot;
    Some (events ++ [ev_store_reset (length done) (home_thread store)],
          (done ++ [None]) ++ rest).
Proof.
  unfold reset_store. simpl.
  rewrite lookup_app_r, Nat.sub_diag by done. simpl.
  destruct slot as [store|]; simpl; [|done].
  rewrite insert_app_r_alt, Nat.sub_diag by done. simpl.
  by rewrite <-(assoc_L (++)).
Qed.

Lemma reset_stores_run (rest : list home_thread_mixin_t) :
  ∀ (events : list lifetimer_event_t) (done : list (option home_thread_mixin_t)),
    for_each reset_store (seq (length done) (length rest))
        (events, done ++ (Some <$> rest)) =
      Some (events ++ imap (λ i store,
                ev_store_reset (length done + i) (home_thread store)) rest,
            done ++ replicate (length rest) None).
Proof.
  induction rest as [|store rest IH]; intros events done.
  - simpl. by rewrite !app_nil_r.
  - cbn [length seq for_each fmap list_fmap]. rewrite reset_store_at.
    cbn [mbind option_bind].
    specialize (IH (events ++ [ev_store_reset (length done) (home_thread store)])
                  (done ++ [None])).
    rewrite length_app, Nat.add_1_r in IH. rewrite IH.
    rewrite <-!(assoc_L (++)). simpl. rewrite Nat.add_0_r. do 4 f_equal.
    apply imap_ext. intros i x _. simpl. f_equal. lia.
Qed.

Lemma reset_stores_fault (array : list (option home_thread_mixin_t)) :
  ∀ (events : list lifetimer_event_t) (done : list (option home_thread_mixin_t)),
    for_each reset_store (seq (length done) (length array)) (events, done ++ array) = None ↔
    None ∈ array.
Proof.
  induction array as [|slot array IH]; intros events done.
  - simpl. split; [done |]. by intros ?%elem_of_nil.
  - cbn [length seq for_each]. rewrite reset_store_at.
    destruct slot as [store|]; cbn [mbind option_bind].
    + specialize (IH (events ++ [ev_store_reset (length done) (home_thread store)])
                    (done ++ [None])).
      rewrite length_app, Nat.add_1_r in IH.
      rewrite IH, elem_of_cons. split; [by right | by intros [[=]|?]].
    + split; [|done]. intros _. left.
Qed.

(** X3: the destructor resets the stores in the order of the array, each
    on the store's own thread, then the serializer on the serializer's
    thread and, still there, the multiplexer; without a serializer the
    multiplexer is left as it is.  Afterwards every slot is empty. *)
Theorem stores_lifetimer_delete_order (stores : list home_thread_mixin_t)
    (serializer : option home_thread_mixin_t) (multiplexer : bool) :
  stores_lifetimer_delete
      {| stores_ := Some (Some <$> stores); serializer_ := serializer;
         multiplexer_ := multiplexer |} =
    Some (imap (λ i store, ev_store_reset i (home_thread store)) stores ++
            match serializer with
            | Some s => ev_serializer_reset (home_thread s) ::
                          (if multiplexer then [ev_multiplexer_reset (home_thread s)]
                           else [])
            | None => []
            end,
          {| stores_ := Some (replicate (length stores) None);
             serializer_ := None;
             multiplexer_ := match serializer with
                             | Some _ => false
                             | None => multiplexer
                             end |}).
Proof.
  unfold stores_lifetimer_delete. simpl.
  pose proof (reset_stores_run stores [] []) as Hrun. simpl in Hrun.
  rewrite length_fmap, Hrun. simpl.
  destruct serializer as [s|]; simpl; [done |]. by rewrite app_nil_r.
Qed.

(** X4: the destructor faults exactly when the array of stores is there
    and one of its slots is empty; a lifetimer that was never filled is
    destroyed without any effect. *)
Theorem stores_lifetimer_delete_fault (this : stores_lifetimer_t) :
  (stores_lifetimer_delete this = None ↔
     ∃ array, stores_ this = Some array ∧ None ∈ array) ∧
  stores_lifetimer_delete stores_lifetimer_new = Some ([], stores_lifetimer_new).
Proof.
  split; [|done].
  unfold stores_lifetimer_delete. destruct (stores_ this) as [array|]; simpl.
  - pose proof (reset_stores_fault array [] []) as Hfault. simpl in Hfault.
    destruct (for_each reset_store (seq 0 (length array)) ([], array))
      as [[events array']|] eqn:Hrun; simpl.
    + split.
      * by destruct (serializer_ this).
      * intros (? & [= <-] & Hin). by apply Hfault in Hin.
    + split; [|done]. intros _. exists array. split; [done |]. by apply Hfault.
  - split; [by destruct (serializer_ this) |]. by intros (? & ? & ?).
Qed.
(** ** More on [construct_blueprint] *)

Lemma for_each_indexed_preserves {A St} (I : St → Prop)
    (body : nat → A → St → option St) (l : list A) i s s' :
  I s →
  (∀ k x a a', l !! k = Some x → I a → body (i + k) x a = Some a' → I a') →
  for_each_indexed body i l s = Some s' → I s'.
Proof.
  revert i s. induction l as [|x l IH]; intros i s Hs Hbody; simpl.
  - by intros [= <-].
  - destruct (body i x s) as [a|] eqn:Ha; [simpl | done].
    apply IH.
    + apply (Hbody 0 x s a); [done | done | by rewrite Nat.add_0_r].
    + intros k y c c' Hy. replace (S i + k) with (i + S k) by lia. by apply Hbody.
Qed.

Section construct_blueprint_steps.
Context {key_range_t region_t : Type} `{Countable region_t}.
Context (hash_region_t : key_range_t → region_t) (uuid_source : nat → uuid_u).
Context (info : table_replication_info_t (key_range_t := key_range_t)).
Context (nc : server_name_client_t).
Implicit Types (b : builder_t (region_t := region_t)).
Implicit Types (bp : blueprint_t (region_t := region_t)).
Implicit Types (t : blueprint_id_translator_t) (w : world_t).

Local Abbreviation region_at := (shard_region hash_region_t info).

Lemma put_primary_Some i shard b b' :
  put_primary hash_region_t uuid_source nc info i shard b = Some b' →
  ∃ r peer t w, region_at i = Some r ∧
    director_peer uuid_source nc shard (trans b) (world b) = (peer, t, w) ∧
    b' = {| trans := t;
            blueprint := {| peers_roles :=
              put_role peer r blueprint_role_primary (peers_roles (blueprint b)) |};
            world := w |}.
Proof.
  destruct (region_at i) as [r|] eqn:Hr.
  - rewrite (put_primary_eq _ _ _ _ _ _ _ r Hr).
    destruct (director_peer _ _ _ _ _) as [[peer t] w]. intros [= <-].
    by exists r, peer, t, w.
  - unfold put_primary.
    destruct (match get_name_for_server_id nc (director shard) with
              | Some _ => _ | None => _ end) as [[peer t] w].
    rewrite add_peer_if_new_eq. simpl. by rewrite Hr.
Qed.

Lemma put_secondary_Some i shard server b b' :
  put_secondary hash_region_t uuid_source nc info i shard server b = Some b' →
  get_name_for_server_id nc server = None ∧ b' = b ∨
  is_Some (get_name_for_server_id nc server) ∧
  ∃ peer t w, server_id_to_peer_id uuid_source server (trans b) (world b) = (peer, t, w) ∧
    (server = director shard ∧
       b' = {| trans := t;
               blueprint := {| peers_roles := with_peer peer (peers_roles (blueprint b)) |};
               world := w |} ∨
     server ≠ director shard ∧ ∃ r, region_at i = Some r ∧
       b' = {| trans := t;
               blueprint := {| peers_roles :=
                 put_role peer r blueprint_role_secondary (peers_roles (blueprint b)) |};
               world := w |}).
Proof.
  unfold put_secondary.
  destruct (get_name_for_server_id nc server) as [name|]; [|intros [= <-]; by left].
  destruct (server_id_to_peer_id _ _ _ _) as [[peer t] w].
  rewrite add_peer_if_new_eq. simpl. intros Hrun. right. split; [done |].
  exists peer, t, w. split; [done |].
  destruct (decide (server ≠ director shard)) as [Hne|Heq]; simpl in Hrun.
  - right. split; [done |]. destruct (region_at i) as [r|]; [simpl in Hrun | done].
    rewrite add_role_eq in Hrun. simpl in Hrun. simplify_eq. by exists r.
  - left. apply dec_stable in Heq. by simplify_eq.
Qed.

Lemma put_nothings_Some i shard bp bp' :
  put_nothings hash_region_t info i shard bp = Some bp' →
  ∃ r, region_at i = Some r ∧ bp' = {| peers_roles := fill_nothing r (peers_roles bp) |}.
Proof.
  destruct (region_at i) as [r|] eqn:Hr.
  - rewrite (put_nothings_eq _ _ _ _ _ r Hr). intros [= <-]. by exists r.
  - unfold put_nothings. by rewrite Hr.
Qed.

(** What a resolution draws. *)
Lemma server_id_to_peer_id_draws server t w p t' w' :
  server_id_to_peer_id uuid_source server t w = (p, t', w') →
  match server_id_to_peer_id_map t !! server with
  | Some q => p = q ∧ t' = t ∧ w' = w
  | None =>
      p = PeerId (uuid_source (uuids_drawn w)) ∧
      server_id_to_peer_id_map t' = <[server := p]> (server_id_to_peer_id_map t) ∧
      uuids_drawn w' = S (uuids_drawn w)
  end.
Proof.
  unfold server_id_to_peer_id.
  destruct (server_id_to_peer_id_map t !! server) as [q|]; simpl; by intros [= <- <- <-].
Qed.

Lemma director_peer_draws shard t w p t' w' :
  director_peer uuid_source nc shard t w = (p, t', w') →
  match get_name_for_server_id nc (director shard) with
  | Some _ => server_id_to_peer_id uuid_source (director shard) t w = (p, t', w')
  | None => p = PeerId (uuid_source (uuids_drawn w)) ∧ t' = t ∧
            uuids_drawn w' = S (uuids_drawn w)
  end.
Proof.
  unfold director_peer. destruct (get_name_for_server_id nc (director shard)); [done |].
  simpl. by intros [= <- <- <-].
Qed.

(** The statements of [construct_blueprint], as a proof rule: what holds
    of the locals at the start and is kept by every statement holds of
    them at the end. *)
Lemma construct_blueprint_locals_rule (I : builder_t (region_t := region_t) → Prop) w b :
  construct_blueprint_locals hash_region_t uuid_source info nc w = Some b →
  I {| trans := {| server_id_to_peer_id_map :=
                     server_id_to_peer_id_map_at nc (map_reads w) |};
       blueprint := {| peers_roles := ∅ |};
       world := {| uuids_drawn := uuids_drawn w; map_reads := S (map_reads w) |} |} →
  (∀ i shard r a peer t w',
     shards (config info) !! i = Some shard → region_at i = Some r → I a →
     director_peer uuid_source nc shard (trans a) (world a) = (peer, t, w') →
     I {| trans := t;
          blueprint := {| peers_roles :=
            put_role peer r blueprint_role_primary (peers_roles (blueprint a)) |};
          world := w' |}) →
  (∀ i shard server a peer t w',
     shards (config info) !! i = Some shard → server ∈ replicas shard →
     is_Some (get_name_for_server_id nc server) → I a →
     server_id_to_peer_id uuid_source server (trans a) (world a) = (peer, t, w') →
     (server = director shard →
        I {| trans := t;
             blueprint := {| peers_roles := with_peer peer (peers_roles (blueprint a)) |};
             world := w' |}) ∧
     (server ≠ director shard → ∀ r, region_at i = Some r →
        I {| trans := t;
             blueprint := {| peers_roles :=
               put_role peer r blueprint_role_secondary (peers_roles (blueprint a)) |};
             world := w' |})) →
  (∀ a, I a →
     I {| trans := trans a; blueprint := blueprint a;
          world := {| uuids_drawn := uuids_drawn (world a);
                      map_reads := S (map_reads (world a)) |} |}) →
  (∀ server a peer t w',
     is_Some (server_id_to_peer_id_map_at nc (S (map_reads w)) !! server) → I a →
     server_id_to_peer_id uuid_source server (trans a) (world a) = (peer, t, w') →
     I {| trans := t;
          blueprint := {| peers_roles := with_peer peer (peers_roles (blueprint a)) |};
          world := w' |}) →
  (∀ i shard r a,
     shards (config info) !! i = Some shard → region_at i = Some r → I a →
     I {| trans := trans a;
          blueprint := {| peers_roles := fill_nothing r (peers_roles (blueprint a)) |};
          world := world a |}) →
  I b.
Proof.
  intros Hrun Hstart Hprimary Hsecondary Hread Hknown Hnothing.
  unfold construct_blueprint_locals, blueprint_id_translator_new in Hrun.
  simpl in Hrun.
  apply bind_Some in Hrun as (b1 & Hrun1 & Hrun).
  apply bind_Some in Hrun as (b2 & Hrun2 & Hrun).
  pose proof (secondaries_reads _ _ _ _ _ _ _ Hrun1 Hrun2) as Hreads2. simpl in Hreads2.
  apply bind_Some in Hrun as (b3 & Hrun3 & Hrun).
  apply bind_Some in Hrun as (bp4 & Hrun4 & Hrun). simplify_eq/=.
  assert (I b1) as Hb1.
  { eapply for_each_indexed_preserves; [exact Hstart | | exact Hrun1].
    intros k shard a a' Hshard Ha (r & peer & t & w' & Hr & Hpeer & ->)%put_primary_Some.
    by eapply Hprimary. }
  assert (I b2) as Hb2.
  { eapply for_each_indexed_preserves; [exact Hb1 | | exact Hrun2].
    intros k shard a a' Hshard Ha Hround. unfold put_secondaries in Hround.
    eapply for_each_preserves; [exact Ha | | exact Hround].
    intros server c c' Hserver%elem_of_std_set_iter Hc
      [[_ ->]|[Hname (peer & t & w' & Hpeer & Hcases)]]%put_secondary_Some; [done |].
    destruct (Hsecondary _ _ _ _ _ _ _ Hshard Hserver Hname Hc Hpeer) as [Hdir Hrep].
    destruct Hcases as [[Heq ->]|[Hne (r & Hr & ->)]]; eauto. }
  assert (I b3) as Hb3.
  { eapply for_each_preserves; [exact (Hread _ Hb2) | | exact Hrun3].
    intros server a a' Hserver%elem_of_std_map_keys Ha. rewrite put_known_peer_eq.
    destruct (server_id_to_peer_id _ _ _ _) as [[peer t] w'] eqn:Hpeer. intros [= <-].
    rewrite Hreads2 in Hserver. by eapply Hknown. }
  assert (I {| trans := trans b3; blueprint := blueprint b3; world := world b3 |})
    as Hb3' by (by destruct b3).
  eapply (for_each_indexed_preserves
            (λ bp, I {| trans := trans b3; blueprint := bp; world := world b3 |}));
    [exact Hb3' | | exact Hrun4].
  intros k shard a a' Hshard Ha (r & Hr & ->)%put_nothings_Some.
  by apply (Hnothing _ _ _ _ Hshard Hr Ha).
Qed.

(** *** Where the roles come from *)

Lemma role_of_with_peer bp p q r :
  role_of {| peers_roles := with_peer p (peers_roles bp) |} q r = role_of bp q r.
Proof.
  unfold role_of. simpl. rewrite lookup_with_peer.
  destruct (decide (p = q)) as [->|]; [|done].
  destruct (peers_roles bp !! q); simpl; [done | by rewrite lookup_empty].
Qed.

Lemma role_of_put_role_Some bp p r x0 q r' x :
  role_of {| peers_roles := put_role p r x0 (peers_roles bp) |} q r' = Some x →
  role_of bp q r' = Some x ∨ x = x0 ∧ q = p ∧ r' = r.
Proof.
  rewrite role_of_put_role. destruct (decide (p = q ∧ r = r')) as [[-> ->]|]; [|by left].
  destruct (role_of bp q r') as [y|]; simpl; intros [= <-]; [by left | by right].
Qed.

Lemma role_of_fill_nothing_Some bp r q r' x :
  role_of {| peers_roles := fill_nothing r (peers_roles bp) |} q r' = Some x →
  role_of bp q r' = Some x ∨ x = blueprint_role_nothing ∧ r' = r.
Proof.
  unfold role_of. simpl. rewrite lookup_fill_nothing.
  destruct (peers_roles bp !! q) as [roles|]; simpl; [|done].
  rewrite lookup_std_map_insert. destruct (decide (r = r')) as [->|]; [|by left].
  destruct (roles !! r') as [y|]; simpl; intros [= <-]; [by left | by right].
Qed.

Lemma server_id_to_peer_id_uuids server t w p t' w' :
  server_id_to_peer_id uuid_source server t w = (p, t', w') →
  uuids_drawn w ≤ uuids_drawn w' ∧
  (server_id_to_peer_id_map t !! server = Some p ∨
   placeholder_between uuid_source w w' p).
Proof.
  intros Hpeer%server_id_to_peer_id_draws.
  destruct (server_id_to_peer_id_map t !! server) as [q|].
  - destruct Hpeer as (-> & -> & ->). split; [done | by left].
  - destruct Hpeer as (-> & _ & Hw'). split; [lia |]. right.
    exists (uuids_drawn w). split; [lia | done].
Qed.

Lemma director_peer_uuids shard t w p t' w' :
  director_peer uuid_source nc shard t w = (p, t', w') →
  uuids_drawn w ≤ uuids_drawn w' ∧
  (server_id_to_peer_id_map t !! director shard = Some p ∨
   placeholder_between uuid_source w w' p) ∧
  (get_name_for_server_id nc (director shard) = None →
   placeholder_between uuid_source w w' p).
Proof.
  intros Hpeer%director_peer_draws.
  destruct (get_name_for_server_id nc (director shard)) as [name|].
  - apply server_id_to_peer_id_uuids in Hpeer as [? ?]. by split_and!.
  - destruct Hpeer as (-> & -> & Hw').
    assert (placeholder_between uuid_source w w' (PeerId (uuid_source (uuids_drawn w)))).
    { exists (uuids_drawn w). split; [lia | done]. }
    split_and!; [lia | by right | done].
Qed.

Lemma placeholder_between_mono w0 w w' p :
  uuids_drawn w ≤ uuids_drawn w' →
  placeholder_between uuid_source w0 w p → placeholder_between uuid_source w0 w' p.
Proof. intros Hle (k & Hk & ->). exists k. split; [lia | done]. Qed.

Lemma placeholder_between_trans w0 w w' p :
  uuids_drawn w0 ≤ uuids_drawn w →
  placeholder_between uuid_source w w' p → placeholder_between uuid_source w0 w' p.
Proof. intros Hle (k & Hk & ->). exists k. split; [lia | done]. Qed.

Lemma role_has_reason_mono w0 b b' p r x :
  server_id_to_peer_id_map (trans b) ⊆ server_id_to_peer_id_map (trans b') →
  uuids_drawn (world b) ≤ uuids_drawn (world b') →
  role_has_reason hash_region_t uuid_source info nc w0 b p r x →
  role_has_reason hash_region_t uuid_source info nc w0 b' p r x.
Proof.
  intros Htrans Hle (i & shard & Hshard & Hr & Hreason).
  exists i, shard. split_and!; [done | done |].
  destruct x; [| | done].
  - destruct (get_name_for_server_id nc (director shard)).
    + by eapply lookup_weaken.
    + by eapply placeholder_between_mono.
  - destruct Hreason as (server & ? & ? & ? & ?). exists server.
    split_and!; [done.. |]. by eapply lookup_weaken.
Qed.

Lemma construct_blueprint_locals_reasons w b :
  construct_blueprint_locals hash_region_t uuid_source info nc w = Some b →
  uuids_drawn w ≤ uuids_drawn (world b) ∧
  ∀ p r x, role_of (blueprint b) p r = Some x →
    role_has_reason hash_region_t uuid_source info nc w b p r x.
Proof.
  intros Hrun.
  apply (construct_blueprint_locals_rule (λ b,
    uuids_drawn w ≤ uuids_drawn (world b) ∧
    ∀ p r x, role_of (blueprint b) p r = Some x →
      role_has_reason hash_region_t uuid_source info nc w b p r x) w b Hrun).
  - split; [done |]. intros p r x. unfold role_of. simpl. by rewrite lookup_empty.
  - intros i shard r a peer t w' Hshard Hr [Hle Ha] Hpeer.
    pose proof (director_peer_spec _ _ _ _ _ _ _ _ Hpeer) as (Htrans & _ & Hnamed & _).
    pose proof (director_peer_uuids _ _ _ _ _ _ Hpeer) as (Hle' & _ & Hremoved).
    split; [simpl; lia |]. intros q r' x [Hold|(-> & -> & ->)]%role_of_put_role_Some.
    + eapply role_has_reason_mono; [| |by apply Ha]; done.
    + exists i, shard. split_and!; [done | done |]. simpl.
      destruct (get_name_for_server_id nc (director shard)) as [name|] eqn:Hname.
      * apply Hnamed. by eexists.
      * eapply placeholder_between_trans; [done |]. by apply Hremoved.
  - intros i shard server a peer t w' Hshard Hserver Hname [Hle Ha] Hpeer.
    pose proof (server_id_to_peer_id_spec _ _ _ _ _ _ _ Hpeer) as (Hlook & Htrans & _).
    pose proof (server_id_to_peer_id_uuids _ _ _ _ _ _ Hpeer) as (Hle' & _).
    split.
    + intros _. split; [simpl; lia |]. intros q r' x. simpl. rewrite role_of_with_peer.
      intros Hold. eapply role_has_reason_mono; [| |by apply Ha]; done.
    + intros Hne r Hr. split; [simpl; lia |].
      intros q r' x [Hold|(-> & -> & ->)]%role_of_put_role_Some.
      * eapply role_has_reason_mono; [| |by apply Ha]; done.
      * exists i, shard. split_and!; [done | done |]. by exists server.
  - intros a [Hle Ha]. split; [done |]. intros p r x Hx.
    eapply role_has_reason_mono; [| |by apply Ha]; done.
  - intros server a peer t w' _ [Hle Ha] Hpeer.
    pose proof (server_id_to_peer_id_spec _ _ _ _ _ _ _ Hpeer) as (_ & Htrans & _).
    pose proof (server_id_to_peer_id_uuids _ _ _ _ _ _ Hpeer) as (Hle' & _).
    split; [simpl; lia |]. intros q r' x. simpl. rewrite role_of_with_peer.
    intros Hold. eapply role_has_reason_mono; [| |by apply Ha]; done.
  - intros i shard r a Hshard Hr [Hle Ha]. split; [done |].
    intros q r' x [Hold|[-> ->]]%role_of_fill_nothing_Some.
    + eapply role_has_reason_mono; [| |by apply Ha]; done.
    + by exists i, shard.
Qed.

(** *** Which peers a blueprint holds *)

Lemma is_Some_with_peer (m : gmap peer_id_t (gmap region_t blueprint_role_t)) p q :
  is_Some (with_peer p m !! q) ↔ q = p ∨ is_Some (m !! q).
Proof.
  rewrite lookup_with_peer. destruct (decide (p = q)) as [->|].
  - split; [by left | by eexists].
  - split; [by right | by intros [?|?]].
Qed.

Lemma is_Some_put_role (m : gmap peer_id_t (gmap region_t blueprint_role_t)) p r x q :
  is_Some (put_role p r x m !! q) ↔ q = p ∨ is_Some (m !! q).
Proof.
  rewrite lookup_put_role. destruct (decide (p = q)) as [->|].
  - split; [by left | by eexists].
  - split; [by right | by intros [?|?]].
Qed.

Lemma is_Some_fill_nothing (m : gmap peer_id_t (gmap region_t blueprint_role_t)) r q :
  is_Some (fill_nothing r m !! q) ↔ is_Some (m !! q).
Proof. rewrite lookup_fill_nothing. by rewrite fmap_is_Some. Qed.

Lemma construct_blueprint_locals_peers w b :
  construct_blueprint_locals hash_region_t uuid_source info nc w = Some b →
  uuids_drawn w ≤ uuids_drawn (world b) ∧
  (∀ server p, server_id_to_peer_id_map (trans b) !! server = Some p →
     server_id_to_peer_id_map_at nc (map_reads w) !! server = Some p ∨
     placeholder_between uuid_source w (world b) p) ∧
  (∀ p, is_Some (peers_roles (blueprint b) !! p) →
     live_peer (server_id_to_peer_id_map_at nc (map_reads w)) p ∨
     placeholder_between uuid_source w (world b) p).
Proof.
  intros Hrun. set (snap := server_id_to_peer_id_map_at nc (map_reads w)).
  assert (∀ server (a : builder_t (region_t := region_t)) peer t w',
    (∀ s p, server_id_to_peer_id_map (trans a) !! s = Some p →
       snap !! s = Some p ∨ placeholder_between uuid_source w (world a) p) →
    uuids_drawn w ≤ uuids_drawn (world a) →
    server_id_to_peer_id uuid_source server (trans a) (world a) = (peer, t, w') →
    uuids_drawn w ≤ uuids_drawn w' ∧
    (∀ s p, server_id_to_peer_id_map t !! s = Some p →
       snap !! s = Some p ∨ placeholder_between uuid_source w w' p) ∧
    (live_peer snap peer ∨ placeholder_between uuid_source w w' peer) ∧
    ∀ p, placeholder_between uuid_source w (world a) p →
         placeholder_between uuid_source w w' p) as Hresolve.
  { intros server a peer t w' Ha Hle Hpeer.
    pose proof (server_id_to_peer_id_uuids _ _ _ _ _ _ Hpeer) as (Hle' & Hcases).
    apply server_id_to_peer_id_draws in Hpeer.
    assert (∀ p, placeholder_between uuid_source w (world a) p →
                 placeholder_between uuid_source w w' p) as Hmono.
    { intros p. by apply placeholder_between_mono. }
    assert (live_peer snap peer ∨ placeholder_between uuid_source w w' peer) as Hnew.
    { destruct Hcases as [Hold|Hnew].
      - destruct (Ha _ _ Hold) as [?|?]; [left; by eexists | right; by apply Hmono].
      - right. by eapply placeholder_between_trans. }
    split_and!; [lia | | done | done].
    destruct (server_id_to_peer_id_map (trans a) !! server) as [q|] eqn:Hq.
    - destruct Hpeer as (_ & -> & ->). done.
    - destruct Hpeer as (-> & -> & _). intros s p.
      rewrite lookup_insert. destruct (decide (server = s)) as [->|].
      + intros [= <-]. destruct Hnew as [[s' Hs']|?]; [|by right].
        destruct Hcases as [?|?]; [congruence | right].
        by eapply placeholder_between_trans.
      + intros [?|?]%Ha; [by left | right; by apply Hmono]. }
  apply (construct_blueprint_locals_rule (λ b,
    uuids_drawn w ≤ uuids_drawn (world b) ∧
    (∀ s p, server_id_to_peer_id_map (trans b) !! s = Some p →
       snap !! s = Some p ∨ placeholder_between uuid_source w (world b) p) ∧
    (∀ p, is_Some (peers_roles (blueprint b) !! p) →
       live_peer snap p ∨ placeholder_between uuid_source w (world b) p)) w b Hrun).
  - split_and!; [done | by left |]. simpl. intros p [? Hp]. by rewrite lookup_empty in Hp.
  - intros i shard r a peer t w' Hshard Hr (Hle & Htrans & Hpeers) Hpeer.
    apply director_peer_draws in Hpeer.
    destruct (get_name_for_server_id nc (director shard)) as [name|].
    + destruct (Hresolve _ _ _ _ _ Htrans Hle Hpeer) as (? & ? & ? & Hmono).
      split_and!; [done | done |]. simpl. intros p [->|Hp]%is_Some_put_role; [done |].
      destruct (Hpeers _ Hp) as [?|?]; [by left | right; by apply Hmono].
    + destruct Hpeer as (-> & -> & Hw').
      assert (∀ p, placeholder_between uuid_source w (world a) p →
                   placeholder_between uuid_source w w' p) as Hmono.
      { intros p. apply placeholder_between_mono. lia. }
      split_and!; simpl; [lia | |].
      * intros s p [?|?]%Htrans; [by left | right; by apply Hmono].
      * intros p [->|Hp]%is_Some_put_role.
        -- right. exists (uuids_drawn (world a)). split; [lia | done].
        -- destruct (Hpeers _ Hp) as [?|?]; [by left | right; by apply Hmono].
  - intros i shard server a peer t w' Hshard Hserver Hname (Hle & Htrans & Hpeers) Hpeer.
    destruct (Hresolve _ _ _ _ _ Htrans Hle Hpeer) as (? & ? & ? & Hmono).
    split.
    + intros _. split_and!; [done | done |]. simpl.
      intros p [->|Hp]%is_Some_with_peer; [done |].
      destruct (Hpeers _ Hp) as [?|?]; [by left | right; by apply Hmono].
    + intros _ r _. split_and!; [done | done |]. simpl.
      intros p [->|Hp]%is_Some_put_role; [done |].
      destruct (Hpeers _ Hp) as [?|?]; [by left | right; by apply Hmono].
  - intros a (Hle & Htrans & Hpeers). by split_and!.
  - intros server a peer t w' _ (Hle & Htrans & Hpeers) Hpeer.
    destruct (Hresolve _ _ _ _ _ Htrans Hle Hpeer) as (? & ? & ? & Hmono).
    split_and!; [done | done |]. simpl.
    intros p [->|Hp]%is_Some_with_peer; [done |].
    destruct (Hpeers _ Hp) as [?|?]; [by left | right; by apply Hmono].
  - intros i shard r a Hshard Hr (Hle & Htrans & Hpeers).
    split_and!; [done | done |]. simpl. intros p Hp%is_Some_fill_nothing. by apply Hpeers.
Qed.

(** *** A cluster whose servers are all connected *)

Lemma construct_blueprint_locals_connected w b :
  (∀ i shard, shards (config info) !! i = Some shard →
     is_Some (get_name_for_server_id nc (director shard)) ∧
     is_Some (server_id_to_peer_id_map_at nc (map_reads w) !! director shard)) →
  (∀ i shard server, shards (config info) !! i = Some shard → server ∈ replicas shard →
     is_Some (get_name_for_server_id nc server) →
     is_Some (server_id_to_peer_id_map_at nc (map_reads w) !! server)) →
  (∀ server, is_Some (server_id_to_peer_id_map_at nc (S (map_reads w)) !! server) →
     is_Some (server_id_to_peer_id_map_at nc (map_reads w) !! server)) →
  construct_blueprint_locals hash_region_t uuid_source info nc w = Some b →
  server_id_to_peer_id_map (trans b) = server_id_to_peer_id_map_at nc (map_reads w) ∧
  uuids_drawn (world b) = uuids_drawn w.
Proof.
  intros Hdirectors Hreplicas Hknown Hrun.
  set (snap := server_id_to_peer_id_map_at nc (map_reads w)).
  assert (∀ server (a : builder_t (region_t := region_t)) peer t w',
    server_id_to_peer_id_map (trans a) = snap → is_Some (snap !! server) →
    server_id_to_peer_id uuid_source server (trans a) (world a) = (peer, t, w') →
    server_id_to_peer_id_map t = snap ∧ w' = world a) as Hresolve.
  { intros server a peer t w' Ha [q Hq] Hpeer%server_id_to_peer_id_draws.
    rewrite Ha, Hq in Hpeer. destruct Hpeer as (_ & -> & ->). done. }
  apply (construct_blueprint_locals_rule (λ b,
    server_id_to_peer_id_map (trans b) = snap ∧
    uuids_drawn (world b) = uuids_drawn w) w b Hrun).
  - done.
  - intros i shard r a peer t w' Hshard Hr (Htrans & Huuids) Hpeer.
    destruct (Hdirectors _ _ Hshard) as [[name Hname] Hsnap].
    apply director_peer_draws in Hpeer. rewrite Hname in Hpeer.
    destruct (Hresolve _ _ _ _ _ Htrans Hsnap Hpeer) as [? ->]. done.
  - intros i shard server a peer t w' Hshard Hserver Hname (Htrans & Huuids) Hpeer.
    destruct (Hresolve _ _ _ _ _ Htrans (Hreplicas _ _ _ Hshard Hserver Hname) Hpeer)
      as [? ->].
    done.
  - done.
  - intros server a peer t w' Hserver (Htrans & Huuids) Hpeer.
    destruct (Hresolve _ _ _ _ _ Htrans (Hknown _ Hserver) Hpeer) as [? ->]. done.
  - done.
Qed.

Lemma construct_blueprint_Some w bp w' :
  construct_blueprint hash_region_t uuid_source info nc w = Some (bp, w') →
  ∃ b, construct_blueprint_locals hash_region_t uuid_source info nc w = Some b ∧
    blueprint b = bp ∧ world b = w'.
Proof.
  unfold construct_blueprint. intros Hrun.
  apply bind_Some in Hrun as (b & Hlocals & Hrun).
  apply bind_Some in Hrun as (? & _ & ?). simplify_eq. by exists b.
Qed.

End construct_blueprint_steps.

(** *** Iteration over a set with some members left out *)

Lemma StronglySorted_filter_list {A} (R : relation A) (P : A → Prop)
    `{!∀ x, Decision (P x)} (l : list A) :
  StronglySorted R l → StronglySorted R (filter P l).
Proof.
  induction 1 as [|x l Hl IH Hx]; [constructor |].
  rewrite filter_cons. case_decide; [|done].
  constructor; [done |]. apply Forall_forall. intros y [_ Hy]%list_elem_of_filter.
  revert y Hy. by apply Forall_forall.
Qed.

#[global] Instance key_le_id_antisymm : AntiSymm (=) (key_le (@id N)).
Proof. intros x y. unfold key_le, id. lia. Qed.

#[global] Instance key_le_transitive {A} (key : A → N) : Transitive (key_le key).
Proof. intros x y z. unfold key_le. lia. Qed.

#[global] Instance key_le_total {A} (key : A → N) : Total (key_le key).
Proof. intros x y. unfold key_le. lia. Qed.

Lemma std_set_iter_filter (P : uuid_u → Prop) `{!∀ x, Decision (P x)} (s : gset uuid_u) :
  std_set_iter (filter P s) = filter P (std_set_iter s).
Proof.
  unfold std_set_iter, ascending.
  apply (StronglySorted_unique (key_le id)).
  - apply StronglySorted_merge_sort; apply _.
  - apply StronglySorted_filter_list, StronglySorted_merge_sort; apply _.
  - rewrite merge_sort_Permutation. apply NoDup_Permutation.
    + apply NoDup_elements.
    + apply NoDup_filter. rewrite merge_sort_Permutation. apply NoDup_elements.
    + intros x. rewrite elem_of_elements, elem_of_filter, list_elem_of_filter,
        merge_sort_Permutation, elem_of_elements. done.
Qed.

Lemma for_each_filter {A St} (P : A → Prop) `{!∀ x, Decision (P x)}
    (body : A → St → option St) (l : list A) (s : St) :
  (∀ x a, ¬ P x → body x a = Some a) →
  for_each body (filter P l) s = for_each body l s.
Proof.
  intros Hskip. revert s. induction l as [|x l IH]; intros s; [done |].
  rewrite filter_cons. case_decide; simpl.
  - destruct (body x s); simpl; [apply IH | done].
  - rewrite Hskip by done. simpl. apply IH.
Qed.

Lemma for_each_indexed_fmap {A B St} (f : A → B) (body : nat → B → St → option St)
    (l : list A) i (s : St) :
  for_each_indexed body i (f <$> l) s = for_each_indexed (λ i x, body i (f x)) i l s.
Proof.
  revert i s. induction l as [|x l IH]; intros i s; simpl; [done |].
  destruct (body i (f x) s); simpl; [apply IH | done].
Qed.

Section blueprint_extras.
Context {key_range_t region_t : Type} `{Countable region_t}.
Context (hash_region_t : key_range_t → region_t) (uuid_source : nat → uuid_u).
Implicit Types (info : table_replication_info_t (key_range_t := key_range_t)).
Implicit Types (nc : server_name_client_t) (w : world_t).
Implicit Types (b : builder_t (region_t := region_t)).
Implicit Types (t : blueprint_id_translator_t).

(** X5: the translator gives a server one peer: asking again gives the
    same peer and changes nothing; the first answer changed no other
    server's entry, and drew a uuid only if the server had no entry. *)
Theorem server_id_to_peer_id_again (server : server_id_t) t w :
  ∃ p t' w',
    server_id_to_peer_id uuid_source server t w = (p, t', w') ∧
    server_id_to_peer_id uuid_source server t' w' = (p, t', w') ∧
    (∀ other, other ≠ server →
       server_id_to_peer_id_map t' !! other = server_id_to_peer_id_map t !! other) ∧
    uuids_drawn w' =
      match server_id_to_peer_id_map t !! server with
      | Some _ => uuids_drawn w
      | None => S (uuids_drawn w)
      end.
Proof.
  unfold server_id_to_peer_id.
  destruct (server_id_to_peer_id_map t !! server) as [q|] eqn:Hq; simpl.
  - exists q, t, w. rewrite Hq. done.
  - eexists _, _, _. split; [done |]. simpl. rewrite lookup_insert_eq.
    split_and!; [done | | done]. intros other Hne. by rewrite lookup_insert_ne.
Qed.

(** X6: every role in the blueprint has its reason in the configuration:
    a role is for the range of a shard; a primary is the peer of that
    shard's director (a placeholder drawn in this call when the director
    was removed); a secondary is the peer of a replica of that shard that
    was not removed and is not the director. *)
Theorem roles_come_from_the_configuration info nc w
    (bp : blueprint_t (region_t := region_t)) w' :
  construct_blueprint hash_region_t uuid_source info nc w = Some (bp, w') →
  ∃ b, construct_blueprint_locals hash_region_t uuid_source info nc w = Some b ∧
    blueprint b = bp ∧ world b = w' ∧
    ∀ p r x, role_of bp p r = Some x →
      role_has_reason hash_region_t uuid_source info nc w b p r x.
Proof.
  intros (b & Hlocals & <- & <-)%construct_blueprint_Some.
  exists b. split_and!; [done.. |].
  by apply construct_blueprint_locals_reasons.
Qed.

(** X7: a blueprint holds no peer from elsewhere: each of its peers is a
    peer of the snapshot read at the start of the call, or a placeholder
    whose uuid was drawn during the call. *)
Theorem blueprint_peers_live_or_placeholders info nc w
    (bp : blueprint_t (region_t := region_t)) w' :
  construct_blueprint hash_region_t uuid_source info nc w = Some (bp, w') →
  uuids_drawn w ≤ uuids_drawn w' ∧
  ∀ p, is_Some (peers_roles bp !! p) →
    live_peer (server_id_to_peer_id_map_at nc (map_reads w)) p ∨
    placeholder_between uuid_source w w' p.
Proof.
  intros (b & Hlocals & <- & <-)%construct_blueprint_Some.
  destruct (construct_blueprint_locals_peers _ _ _ _ _ _ Hlocals) as (? & _ & ?). done.
Qed.

(** X8: when every director is named and connected, every replica that
    was not removed is connected, and the second read of the live map
    shows no new server, the call draws no uuid, and every peer of the
    blueprint is a live peer. *)
Theorem connected_cluster_needs_no_placeholder info nc w
    (bp : blueprint_t (region_t := region_t)) w' :
  (∀ i shard, shards (config info) !! i = Some shard →
     is_Some (get_name_for_server_id nc (director shard)) ∧
     is_Some (server_id_to_peer_id_map_at nc (map_reads w) !! director shard)) →
  (∀ i shard server, shards (config info) !! i = Some shard → server ∈ replicas shard →
     is_Some (get_name_for_server_id nc server) →
     is_Some (server_id_to_peer_id_map_at nc (map_reads w) !! server)) →
  (∀ server, is_Some (server_id_to_peer_id_map_at nc (S (map_reads w)) !! server) →
     is_Some (server_id_to_peer_id_map_at nc (map_reads w) !! server)) →
  construct_blueprint hash_region_t uuid_source info nc w = Some (bp, w') →
  uuids_drawn w' = uuids_drawn w ∧
  ∀ p, is_Some (peers_roles bp !! p) →
    live_peer (server_id_to_peer_id_map_at nc (map_reads w)) p.
Proof.
  intros Hdirectors Hreplicas Hknown (b & Hlocals & <- & <-)%construct_blueprint_Some.
  destruct (construct_blueprint_locals_connected _ _ _ _ _ _ Hdirectors Hreplicas
              Hknown Hlocals) as [_ Huuids].
  split; [done |]. intros p Hp.
  destruct (construct_blueprint_locals_peers _ _ _ _ _ _ Hlocals) as (_ & _ & Hpeers).
  destruct (Hpeers _ Hp) as [?|(k & Hk & _)]; [done | lia].
Qed.

(** X9: a replica that was permanently removed leaves no trace: the call
    gives what it gives for the configuration without such replicas. *)
Theorem removed_replicas_leave_no_trace info nc w :
  construct_blueprint hash_region_t uuid_source (without_removed_replicas info nc) nc w =
    construct_blueprint hash_region_t uuid_source info nc w.
Proof.
  unfold construct_blueprint. f_equal.
  unfold construct_blueprint_locals, without_removed_replicas. simpl.
  rewrite for_each_indexed_fmap.
  rewrite (for_each_indexed_ext _ (put_primary hash_region_t uuid_source nc info)) by done.
  destruct (for_each_indexed (put_primary _ _ nc info) _ _ _) as [b1|]; [simpl | done].
  rewrite for_each_indexed_fmap.
  rewrite (for_each_indexed_ext _ (put_secondaries hash_region_t uuid_source nc info)).
  2:{ intros i shard b. unfold put_secondaries. cbn beta. cbn [replicas].
      rewrite std_set_iter_filter.
      rewrite (for_each_filter _ _ _ _); [done |].
      intros server a Hremoved. unfold put_secondary.
      destruct (get_name_for_server_id nc server) as [name|]; [|done].
      destruct Hremoved. by eexists. }
  destruct (for_each_indexed (put_secondaries _ _ nc info) _ _ _) as [b2|]; [simpl | done].
  destruct (for_each _ _ _) as [b3|]; [simpl | done].
  rewrite for_each_indexed_fmap.
  by rewrite (for_each_indexed_ext _ (put_nothings hash_region_t info)).
Qed.

Lemma put_known_peers_run (keys : list server_id_t) b :
  ∃ b3, for_each (put_known_peer uuid_source) keys b = Some b3 ∧
    server_id_to_peer_id_map (trans b) ⊆ server_id_to_peer_id_map (trans b3) ∧
    (∀ p roles, peers_roles (blueprint b3) !! p = Some roles →
       peers_roles (blueprint b) !! p = Some roles ∨ roles = ∅) ∧
    (∀ p, is_Some (peers_roles (blueprint b3) !! p) ↔
       is_Some (peers_roles (blueprint b) !! p) ∨
       ∃ server, server ∈ keys ∧ server_id_to_peer_id_map (trans b3) !! server = Some p).
Proof.
  revert b. induction keys as [|server keys IH]; intros b; simpl.
  - exists b. split_and!; [done | done | by left |].
    intros p. split; [by left |]. intros [?|(? & []%elem_of_nil & _)]. done.
  - rewrite put_known_peer_eq.
    destruct (server_id_to_peer_id _ _ _ _) as [[peer t] w'] eqn:Hpeer. simpl.
    apply server_id_to_peer_id_spec in Hpeer as (Hlook & Htrans & _).
    destruct (IH {| trans := t;
                    blueprint := {| peers_roles := with_peer peer (peers_roles (blueprint b)) |};
                    world := w' |}) as (b3 & -> & Htrans3 & Hroles3 & Hdom3).
    simpl in *. exists b3. split_and!; [done | by etrans | |].
    + intros p roles [Hold| ->]%Hroles3; [|by right].
      rewrite lookup_with_peer in Hold. destruct (decide (peer = p)) as [->|]; [|by left].
      destruct (peers_roles (blueprint b) !! p); simplify_eq/=; [by left | by right].
    + intros p. rewrite Hdom3, is_Some_with_peer. split.
      * intros [[->|?]|(s & ? & ?)].
        -- right. exists server. split; [left |]. by eapply lookup_weaken.
        -- by left.
        -- right. exists s. split; [by right | done].
      * intros [?|(s & [->|?]%elem_of_cons & Hs)].
        -- left. by right.
        -- left. left. pose proof (lookup_weaken _ _ _ _ Hlook Htrans3). congruence.
        -- right. by exists s.
Qed.

(** X10: for a table without shards the blueprint holds the servers of
    the live map, as the second read shows it, each with its peer and no
    role at all. *)
Theorem construct_blueprint_without_shards info nc w :
  length (shards (config info)) = num_shards (shard_scheme info) →
  shards (config info) = [] →
  ∃ b, construct_blueprint_locals hash_region_t uuid_source info nc w = Some b ∧
    construct_blueprint hash_region_t uuid_source info nc w =
      Some (blueprint b, world b) ∧
    (∀ p roles, peers_roles (blueprint b) !! p = Some roles → roles = ∅) ∧
    (∀ p, is_Some (peers_roles (blueprint b) !! p) ↔
       ∃ server,
         is_Some (server_id_to_peer_id_map_at nc (S (map_reads w)) !! server) ∧
         server_id_to_peer_id_map (trans b) !! server = Some p).
Proof.
  intros _ Hshards.
  unfold construct_blueprint, construct_blueprint_locals, blueprint_id_translator_new.
  rewrite Hshards. simpl.
  destruct (put_known_peers_run
    (std_map_keys (server_id_to_peer_id_map_at nc (S (map_reads w))))
    {| trans := {| server_id_to_peer_id_map := server_id_to_peer_id_map_at nc (map_reads w) |};
       blueprint := {| peers_roles := ∅ |};
       world := {| uuids_drawn := uuids_drawn w; map_reads := S (S (map_reads w)) |} |})
    as (b3 & -> & _ & Hroles & Hdom).
  simpl in *.
  assert (∀ p roles, peers_roles (blueprint b3) !! p = Some roles → roles = ∅) as Hempty.
  { intros p roles [Hold| ->]%Hroles; [|done]. by rewrite lookup_empty in Hold. }
  exists {| trans := trans b3; blueprint := blueprint b3; world := world b3 |}.
  simpl. split_and!; [done | | done |].
  - unfold guarantee_valid. rewrite decide_True; [done |]. split.
    + intros p1 roles1 Hp1 p2 roles2 Hp2.
      by rewrite (Hempty _ _ Hp1), (Hempty _ _ Hp2).
    + intros p1 roles1 Hp1 p2 roles2 Hp2 r x Hx.
      rewrite (Hempty _ _ Hp1) in Hx. by rewrite lookup_empty in Hx.
  - intros p. rewrite Hdom. split.
    + intros [[? Hp]|(server & Hserver%elem_of_std_map_keys & ?)];
        [by rewrite lookup_empty in Hp | by exists server].
    + intros (server & Hserver & ?). right. exists server.
      split; [by apply elem_of_std_map_keys | done].
Qed.

End blueprint_extras.


(** ** The members of a handle *)

Lemma elem_of_initializing (cs : list coro_t) h :
  h ∈ initializing cs ↔ ∃ pc, run_initialize_reactor h pc ∈ cs.
Proof.
  unfold initializing. rewrite list_elem_of_omap. split.
  - intros ([h' pc|h' ns pc] & Hc & [= <-]). eauto.
  - intros (pc & Hc). eauto.
Qed.

Lemma initializing_app (l1 l2 : list coro_t) :
  initializing (l1 ++ l2) = initializing l1 ++ initializing l2.
Proof. apply omap_app. Qed.

Lemma elem_of_resumed_cases (pre post : list coro_t) (c' : option coro_t) x :
  x ∈ pre ++ option_list c' ++ post ↔ x ∈ pre ∨ x ∈ post ∨ c' = Some x.
Proof.
  rewrite !elem_of_app. destruct c' as [c|]; simpl.
  - rewrite list_elem_of_singleton. split.
    + intros [?|[->|?]]; by eauto.
    + intros [?|[?|[= ->]]]; by eauto.
  - rewrite elem_of_nil. split.
    + intros [?|[Hx|?]]; [by eauto | destruct Hx | by eauto].
    + intros [?|[?|Hx]]; [by eauto | by eauto | discriminate Hx].
Qed.

Lemma elem_of_middle (pre post : list coro_t) (c x : coro_t) :
  x ∈ pre ++ c :: post ↔ x ∈ pre ∨ x ∈ post ∨ x = c.
Proof.
  rewrite elem_of_app, elem_of_cons. split.
  - intros [?|[->|?]]; by eauto.
  - intros [?|[?| ->]]; by eauto.
Qed.

Lemma NoDup_middle {A} (l1 l2 : list A) x :
  NoDup (l1 ++ x :: l2) → NoDup (l1 ++ l2) ∧ (x ∉ l1) ∧ (x ∉ l2).
Proof.
  intros (Hl1 & Hdisj & [Hx Hl2]%NoDup_cons)%NoDup_app. split_and!; [| | done].
  - apply NoDup_app. split_and!; [done | | done].
    intros y Hy Hy'. apply (Hdisj y Hy). by right.
  - intros Hx'. apply (Hdisj x Hx'). left.
Qed.

Lemma initializing_unique (pre post : list coro_t) h pc pc0 :
  NoDup (initializing (pre ++ run_initialize_reactor h pc :: post)) →
  (run_initialize_reactor h pc0 ∉ pre) ∧ (run_initialize_reactor h pc0 ∉ post).
Proof.
  rewrite initializing_app. simpl. intros (_ & Hpre & Hpost)%NoDup_middle.
  split; intros Hin; [apply Hpre | apply Hpost]; apply elem_of_initializing; eauto.
Qed.

Lemma deleting_unique (pre post : list coro_t) h ns pc ns0 pc0 :
  NoDup (deleting (pre ++ run_delete_reactor_data h ns pc :: post)) →
  (run_delete_reactor_data h ns0 pc0 ∉ pre) ∧ (run_delete_reactor_data h ns0 pc0 ∉ post).
Proof.
  rewrite deleting_app. simpl. intros (_ & Hpre & Hpost)%NoDup_middle.
  split; intros Hin; [apply Hpre | apply Hpost]; apply elem_of_deleting; eauto.
Qed.

Section driver_members.
Context {key_range_t region_t : Type} `{Countable region_t}.
Context (try_construct_blueprint :
  table_replication_info_t (key_range_t := key_range_t) → server_name_client_t →
  world_t → try_construct_t (region_t := region_t)).
Implicit Types (d : reactor_driver_t (region_t := region_t)).
Implicit Types (hd : watchable_and_reactor_t (region_t := region_t)).
Implicit Types (view : cluster_view_t (key_range_t := key_range_t)).

Local Abbreviation on_change_table := (on_change_table try_construct_blueprint).
Local Abbreviation on_change_loop := (on_change_loop try_construct_blueprint).
Local Abbreviation on_change := (on_change try_construct_blueprint).
Local Abbreviation step := (step try_construct_blueprint).
Local Abbreviation reachable := (reachable try_construct_blueprint).
Local Abbreviation blueprint_for := (blueprint_for try_construct_blueprint).

Lemma initialize_reactor_step_members h pc d c' d' :
  initialize_reactor_step h pc d = Some (c', d') →
  c' = init_next h pc ∧
  ∃ hd hd', heap d !! h = Some hd ∧ heap d' !! h = Some hd' ∧
    (∀ h', h' ≠ h → heap d' !! h' = heap d !! h') ∧
    namespace_id_ hd' = namespace_id_ hd ∧
    reactor_has_been_initialized_ hd' =
      (if decide (pc = init_at_pulse) then true else reactor_has_been_initialized_ hd) ∧
    (members hd = members_at_init pc →
     members hd' = match pc with
                   | init_at_get_svs => members_at_init init_at_reactor
                   | init_at_reactor => members_at_init init_at_directory_exporter
                   | init_at_directory_exporter | init_at_pulse => (true, true, true, true)
                   end).
Proof.
  unfold initialize_reactor_step.
  destruct (heap d !! h) as [hd|] eqn:Hh; [simpl | done].
  destruct pc; intros [= <- <-]; (split; [done |]); exists hd; eexists; simpl;
    rewrite lookup_alter_eq, Hh; simpl;
    (split_and!; [done | done | by intros h' ?; rewrite lookup_alter_ne | done | done |]);
    unfold members; simpl; congruence.
Qed.

Lemma delete_reactor_data_step_members h ns pc d c' d' :
  delete_reactor_data_step h ns pc d = Some (c', d') →
  c' = delete_next h ns pc ∧
  if decide (pc = del_at_destroy_svs) then heap d' = heap d
  else ∃ hd, heap d !! h = Some hd ∧
    (pc = del_at_wait → reactor_has_been_initialized_ hd = true) ∧
    (∀ h', h' ≠ h → heap d' !! h' = heap d !! h') ∧
    if decide (pc = del_at_members) then heap d' !! h = None
    else ∃ hd', heap d' !! h = Some hd' ∧
      reactor_has_been_initialized_ hd' = reactor_has_been_initialized_ hd ∧
      namespace_id_ hd' = namespace_id_ hd ∧
      match pc with
      | del_at_directory_exporter =>
          members hd = members_at_delete pc → members hd' = members_at_delete del_at_reactor
      | del_at_reactor =>
          members hd = members_at_delete pc →
          members hd' = members_at_delete del_at_delete_key
      | _ => hd' = hd
      end.
Proof.
  unfold delete_reactor_data_step.
  destruct pc; simpl.
  6:{ by intros [= <- <-]. }
  all: destruct (heap d !! h) as [hd|] eqn:Hh; [simpl | done].
  1: destruct (reactor_has_been_initialized_ hd) eqn:Hflag; [|done].
  all: intros [= <- <-]; (split; [done |]); exists hd; simpl.
  - split_and!; [done | done | done |]. by exists hd.
  - split_and!; [done | done | by intros h' ?; rewrite lookup_alter_ne |].
    eexists. rewrite lookup_alter_eq, Hh. simpl. split_and!; [done.. |].
    unfold members; simpl; congruence.
  - split_and!; [done | done | by intros h' ?; rewrite lookup_alter_ne |].
    eexists. rewrite lookup_alter_eq, Hh. simpl. split_and!; [done.. |].
    unfold members; simpl; congruence.
  - split_and!; [done | done | done |]. by exists hd.
  - split_and!; [done | done | by intros h' ?; rewrite lookup_delete_ne |].
    apply lookup_delete_eq.
Qed.

Lemma initializing_delete_next (pre post : list coro_t) h ns pc :
  initializing (pre ++ option_list (delete_next h ns pc) ++ post) =
    initializing (pre ++ run_delete_reactor_data h ns pc :: post).
Proof. rewrite !initializing_app. by destruct pc. Qed.

Lemma members_coro_step d pre c post c' d' :
  teardown_ok d → members_ok d →
  coros d = pre ++ c :: post → coro_step c d = Some (c', d') →
  members_ok (set_coros (pre ++ option_list c' ++ post) d').
Proof.
  intros (_ & _ & Hnodup_del & Hrun & _) (Hnodup & Hinit & Hdel & Hfull) Hcoros Hstep.
  assert (∀ x, x ∈ pre ∨ x ∈ post → x ∈ coros d) as Hold.
  { intros x Hx. rewrite Hcoros. apply elem_of_middle. destruct Hx; by eauto. }
  assert (c ∈ coros d) as Hc by (rewrite Hcoros; apply elem_of_middle; by eauto).
  rewrite Hcoros in Hnodup, Hnodup_del.
  destruct c as [h pc|h ns pc]; simpl in Hstep.
  - (* a statement of [initialize_reactor] *)
    destruct (Hinit _ _ Hc) as (hd & Hhd & Hflag & Hmem).
    apply initialize_reactor_step_members in Hstep
      as (-> & hd0 & hd' & Hhd0 & Hhd' & Hframe & _ & Hflag' & Hmem').
    rewrite Hhd in Hhd0. injection Hhd0 as <-. specialize (Hmem' Hmem).
    assert (∀ pc0, (run_initialize_reactor h pc0 ∉ pre) ∧
                   (run_initialize_reactor h pc0 ∉ post))
      as Hunique by (intros pc0; by eapply initializing_unique).
    split_and!; simpl.
    + rewrite initializing_app in Hnodup. simpl in Hnodup.
      rewrite !initializing_app.
      destruct pc; simpl; try done. by apply NoDup_middle in Hnodup as (? & _).
    + intros h0 pc0 [Hx|[Hx|Hx]]%elem_of_resumed_cases.
      * assert (h0 ≠ h) by (intros ->; by destruct (Hunique pc0)).
        rewrite Hframe by done. apply Hinit, Hold. by left.
      * assert (h0 ≠ h) by (intros ->; by destruct (Hunique pc0)).
        rewrite Hframe by done. apply Hinit, Hold. by right.
      * exists hd'. rewrite Hflag', Hflag.
        destruct pc; simplify_eq/=; by rewrite Hhd'.
    + intros h0 ns0 pc0 [Hx|[Hx|Hx]]%elem_of_resumed_cases Hwait Hdestroy;
        [| | by destruct pc].
      all: destruct (Hdel h0 ns0 pc0) as (hd1 & Hhd1 & Hflag1 & Hmem1);
        [apply Hold; by eauto | done | done |].
      all: assert (h0 ≠ h) by (intros ->; congruence).
      all: rewrite Hframe by done; by eauto.
    + intros h0 x Hx Hflagx Hall. destruct (decide (h0 = h)) as [->|Hne].
      * rewrite Hhd' in Hx. injection Hx as <-. rewrite Hflag', Hflag in Hflagx.
        by destruct pc.
      * rewrite Hframe in Hx by done. apply (Hfull _ _ Hx Hflagx).
        intros ns0 pc0 Hin. apply (Hall ns0 pc0). apply elem_of_resumed_cases.
        rewrite Hcoros in Hin. apply elem_of_middle in Hin as [?|[?|?]]; by eauto.
  - (* a statement of [delete_reactor_data] *)
    destruct (Hrun _ _ _ Hc) as [_ Htable].
    apply delete_reactor_data_step_members in Hstep as (-> & Hstep).
    assert (∀ ns0 pc0, (run_delete_reactor_data h ns0 pc0 ∉ pre) ∧
                       (run_delete_reactor_data h ns0 pc0 ∉ post))
      as Hunique by (intros ns0 pc0; by eapply deleting_unique).
    assert (∀ ns0 pc0, run_delete_reactor_data h ns0 pc0 ∈ coros d → pc0 = pc) as Honly.
    { intros ns0 pc0. rewrite Hcoros. intros [Hx|[Hx|Hx]]%elem_of_middle.
      - by destruct (Hunique ns0 pc0).
      - by destruct (Hunique ns0 pc0).
      - by simplify_eq. }
    assert (∀ h0 pc0, run_initialize_reactor h0 pc0 ∈
                        pre ++ option_list (delete_next h ns pc) ++ post →
              run_initialize_reactor h0 pc0 ∈ coros d) as Hinit_old.
    { intros h0 pc0 [Hx|[Hx|Hx]]%elem_of_resumed_cases; [by eauto | by eauto |].
      by destruct pc. }
    split; [simpl; by rewrite initializing_delete_next |].
    destruct (decide (pc = del_at_destroy_svs)) as [->|Hnot_last].
    { (* [destroy_svs]: the handle is gone already *)
      unfold table_of in Htable. simpl in Htable.
      destruct (heap d !! h) as [?|] eqn:Hgone; [done |].
      split_and!; simpl; rewrite Hstep.
      - intros h0 pc0 Hx%Hinit_old. by apply Hinit.
      - intros h0 ns0 pc0 [Hx|Hx]%elem_of_app; apply (Hdel h0 ns0 pc0), Hold; by eauto.
      - intros h0 x Hx Hflagx Hall. apply (Hfull _ _ Hx Hflagx).
        intros ns0 pc0 Hin. rewrite Hcoros in Hin.
        apply elem_of_middle in Hin as [?|[?|?]].
        + apply (Hall ns0 pc0), elem_of_app. by eauto.
        + apply (Hall ns0 pc0), elem_of_app. by eauto.
        + simplify_eq. }
    destruct Hstep as (hd & Hhd & Hwaited & Hframe & Hstep).
    assert (reactor_has_been_initialized_ hd = true ∧
            members hd = members_at_delete pc) as [Hflag Hmem].
    { destruct (decide (pc = del_at_wait)) as [->|Hpast].
      - split; [by apply Hwaited |]. apply (Hfull _ _ Hhd (Hwaited eq_refl)).
        intros ns0 pc0 Hin. by apply Honly in Hin.
      - destruct (Hdel _ _ _ Hc Hpast Hnot_last) as (hd1 & Hhd1 & ? & ?).
        by simplify_eq. }
    split_and!; simpl.
    + intros h0 pc0 Hx%Hinit_old.
      destruct (Hinit _ _ Hx) as (hd1 & Hhd1 & Hflag1 & Hmem1).
      assert (h0 ≠ h) by (intros ->; congruence).
      rewrite Hframe by done. by eauto.
    + intros h0 ns0 pc0 [Hx|[Hx|Hx]]%elem_of_resumed_cases Hwait Hdestroy.
      * assert (h0 ≠ h) by (intros ->; by destruct (Hunique ns0 pc0)).
        rewrite Hframe by done. apply (Hdel h0 ns0 pc0); [apply Hold; by eauto | done..].
      * assert (h0 ≠ h) by (intros ->; by destruct (Hunique ns0 pc0)).
        rewrite Hframe by done. apply (Hdel h0 ns0 pc0); [apply Hold; by eauto | done..].
      * destruct pc; simplify_eq/=.
        -- destruct Hstep as (hd' & -> & _ & _ & ->). by eauto.
        -- destruct Hstep as (hd' & -> & Hflag' & _ & Hmem'). exists hd'.
           split_and!; [done | congruence | by apply Hmem'].
        -- destruct Hstep as (hd' & -> & Hflag' & _ & Hmem'). exists hd'.
           split_and!; [done | congruence | by apply Hmem'].
        -- destruct Hstep as (hd' & -> & _ & _ & ->). by eauto.
    + intros h0 x Hx Hflagx Hall. destruct (decide (h0 = h)) as [->|Hne].
      * destruct (delete_next h ns pc) as [next|] eqn:Hnext; [|by destruct pc].
        apply delete_next_progress in Hnext as (pc' & -> & Hpc' & _).
        destruct Hpc'. apply (Hall ns pc'), elem_of_resumed_cases. by eauto.
      * rewrite Hframe in Hx by done. apply (Hfull _ _ Hx Hflagx).
        intros ns0 pc0 Hin. rewrite Hcoros in Hin.
        apply elem_of_middle in Hin as [?|[?|?]].
        -- apply (Hall ns0 pc0), elem_of_resumed_cases. by eauto.
        -- apply (Hall ns0 pc0), elem_of_resumed_cases. by eauto.
        -- simplify_eq.
Qed.

Lemma members_initial w : members_ok (initial_driver (region_t := region_t) w).
Proof.
  split_and!; simpl.
  - constructor.
  - intros ?? Hc. by apply elem_of_nil in Hc.
  - intros ??? Hc. by apply elem_of_nil in Hc.
  - intros ?? Hh. by rewrite lookup_empty in Hh.
Qed.

Lemma members_on_change_table view ns meta d d' :
  allocation_ok d → teardown_ok d → members_ok d →
  on_change_table view ns meta d = Some d' → members_ok d'.
Proof.
  intros (_ & Hcoro & _ & _) (Hheap & _) (Hnodup & Hinit & Hdel & Hfull)
    [(h & Hh & _ & ->)|[->|[[w ->]|[(bp & w & Hnone & ->)|(bp & w & h & Hh & ->)]]]]
      %on_change_table_cases.
  - (* a teardown is spawned, at its wait *)
    split_and!; simpl.
    + rewrite initializing_app. simpl. by rewrite app_nil_r.
    + intros h0 pc0 [?|[=]%list_elem_of_singleton]%elem_of_app. by apply Hinit.
    + intros h0 ns0 pc0 [?|[= -> -> ->]%list_elem_of_singleton]%elem_of_app ??;
        [by eapply Hdel | done].
    + intros h0 x Hx Hflagx Hall. apply (Hfull _ _ Hx Hflagx).
      intros ns0 pc0 Hin. apply (Hall ns0 pc0), elem_of_app. by left.
  - by split_and!.
  - by split_and!.
  - (* a handle is allocated, and its initialization spawned *)
    assert (heap d !! next_handle d = None) as Hfresh.
    { destruct (heap d !! next_handle d) as [x|] eqn:Hx; [|done].
      assert (next_handle d < next_handle d); [|lia].
      apply Hheap. unfold table_of. rewrite Hx. by eexists. }
    assert (∀ c, c ∈ coros d → coro_handle c ≠ next_handle d) as Hother.
    { intros c Hc%Hcoro. lia. }
    split_and!; simpl.
    + rewrite initializing_app. simpl. apply NoDup_app. split_and!; [done | |].
      * intros h0 (pc0 & Hc)%elem_of_initializing ->%list_elem_of_singleton.
        by apply (Hother _ Hc).
      * apply NoDup_singleton.
    + intros h0 pc0 [Hc|[= -> ->]%list_elem_of_singleton]%elem_of_app.
      * rewrite lookup_insert_ne by (intros <-; by apply (Hother _ Hc)).
        by apply Hinit.
      * rewrite lookup_insert_eq. by eexists.
    + intros h0 ns0 pc0 [Hc|[=]%list_elem_of_singleton]%elem_of_app ??.
      rewrite lookup_insert_ne by (intros <-; by apply (Hother _ Hc)).
      by eapply Hdel.
    + intros h0 x. rewrite lookup_insert.
      destruct (decide (next_handle d = h0)) as [<-|]; [by intros [= <-] |].
      intros Hx Hflagx Hall. apply (Hfull _ _ Hx Hflagx).
      intros ns0 pc0 Hin. apply (Hall ns0 pc0), elem_of_app. by left.
  - (* the blueprint cell of a handle is written *)
    assert (∀ h0 x, heap d !! h0 = Some x →
              ∃ x', alter (λ x, {|
                  watchable := apply_atomic_op (op_closure_apply bp) (watchable x);
                  reactor_has_been_initialized_ := reactor_has_been_initialized_ x;
                  namespace_id_ := namespace_id_ x;
                  stores_lifetimer_ := stores_lifetimer_ x; svs_ := svs_ x;
                  reactor_ := reactor_ x;
                  directory_exporter_ := directory_exporter_ x |}) h (heap d) !! h0
                = Some x' ∧ same_but_cell x x') as Hsame.
    { intros h0 x Hx. rewrite lookup_alter. destruct (decide (h = h0)) as [->|].
      - rewrite Hx. simpl. by eexists.
      - by exists x. }
    split_and!; simpl.
    + done.
    + intros h0 pc0 (x & Hx & ? & ?)%Hinit.
      destruct (Hsame _ _ Hx) as (x' & -> & Hflag' & _ & Hmem'). exists x'.
      split_and!; [done | congruence | congruence].
    + intros h0 ns0 pc0 Hc Hwait Hdestroy.
      destruct (Hdel _ _ _ Hc Hwait Hdestroy) as (x & Hx & ? & ?).
      destruct (Hsame _ _ Hx) as (x' & -> & Hflag' & _ & Hmem'). exists x'.
      split_and!; [done | congruence | congruence].
    + intros h0 x'. rewrite lookup_alter. destruct (decide (h = h0)) as [->|].
      * destruct (heap d !! h0) as [x|] eqn:Hx; [simpl | done].
        intros [= <-]. simpl. intros Hflagx Hall. by apply (Hfull _ _ Hx).
      * intros Hx Hflagx Hall. by apply (Hfull _ _ Hx).
Qed.

Lemma members_reachable d : reachable d → members_ok d.
Proof.
  intros [w Hrun].
  eapply (rtc_ind_r (λ d, reachable d ∧ members_ok d)); [| | exact Hrun].
  - split; [by exists w | apply members_initial].
  - intros d1 d2 _ Hstep [Hreach IH].
    split; [by eapply reachable_step |].
    destruct (driver_reachable _ _ Hreach) as [Halloc Hok].
    destruct Hstep as [d1 pre c post c' d1' Hcoros Hstep|view d1 d2 Hchange].
    + by eapply members_coro_step.
    + unfold on_change, on_change_loop in Hchange.
      eapply (for_each_preserves (λ d, allocation_ok d ∧ teardown_ok d ∧ members_ok d));
        [done | | exact Hchange].
      intros k a a' _ (Ha & Hoka & Hma) Hbody.
      apply bind_Some in Hbody as (meta & _ & Hbody).
      split_and!; [by eapply allocation_on_change_table
                  | by eapply teardown_on_change_table
                  | by eapply members_on_change_table].
Qed.

Lemma delete_coroutine_unique (cs : list coro_t) h ns pc ns' pc' :
  NoDup (deleting cs) →
  run_delete_reactor_data h ns pc ∈ cs → run_delete_reactor_data h ns' pc' ∈ cs →
  ns' = ns ∧ pc' = pc.
Proof.
  intros Hnodup (pre & post & ->)%list_elem_of_split [Hx|[Hx|Hx]]%elem_of_middle.
  - by destruct (deleting_unique _ _ _ _ _ ns' pc' Hnodup).
  - by destruct (deleting_unique _ _ _ _ _ ns' pc' Hnodup).
  - by simplify_eq.
Qed.

(** The members of a handle, whatever it is going through. *)
Lemma members_cases d h hd :
  reachable d → heap d !! h = Some hd →
  (reactor_has_been_initialized_ hd = false ∧
   ∃ pc, run_initialize_reactor h pc ∈ coros d ∧ members hd = members_at_init pc) ∨
  (reactor_has_been_initialized_ hd = true ∧
   ∃ pc, pc ≠ del_at_destroy_svs ∧ members hd = members_at_delete pc ∧
     (h ∉ deleting (coros d) → pc = del_at_wait)).
Proof.
  intros Hreach Hhd.
  destruct (driver_reachable _ _ Hreach) as [_ (_ & _ & Hnodup & Hrun & _)].
  destruct (members_reachable _ Hreach) as (_ & Hinit & Hdel & Hfull).
  destruct (reactor_has_been_initialized_ hd) eqn:Hflag.
  - right. split; [done |].
    destruct (decide (h ∈ deleting (coros d))) as [Hin|Hout].
    + apply elem_of_deleting in Hin as (ns & pc & Hc).
      destruct (decide (pc = del_at_destroy_svs)) as [->|Hnot_last].
      { destruct (Hrun _ _ _ Hc) as [_ Htable]. unfold table_of in Htable.
        by rewrite Hhd in Htable. }
      exists pc. split; [done |].
      split; [|intros Hout; destruct Hout; apply elem_of_deleting; by eauto].
      destruct (decide (pc = del_at_wait)) as [->|Hpast].
      * apply (Hfull _ _ Hhd Hflag). intros ns' pc' Hc'.
        by destruct (delete_coroutine_unique _ _ _ _ _ _ Hnodup Hc Hc').
      * destruct (Hdel _ _ _ Hc Hpast Hnot_last) as (hd' & Hhd' & _ & ?). by simplify_eq.
    + exists del_at_wait. split_and!; [done | | done].
      apply (Hfull _ _ Hhd Hflag). intros ns pc Hc. destruct Hout.
      apply elem_of_deleting. eauto.
  - left. split; [done |].
    destruct (init_pending_reachable _ _ Hreach _ _ Hhd Hflag) as [pc Hpc].
    exists pc. split; [done |].
    destruct (Hinit _ _ Hpc) as (hd' & Hhd' & _ & ?). by simplify_eq.
Qed.

(** X11: a handle never holds the export link without the reactor the
    link subscribes to, nor the reactor without the stores it runs on;
    and an initialized handle that still exists has its stores. *)
Theorem members_respect_their_dependencies d h hd :
  reachable d → heap d !! h = Some hd →
  (directory_exporter_ hd = true → reactor_ hd = true) ∧
  (reactor_ hd = true → svs_ hd = true) ∧
  stores_lifetimer_ hd = svs_ hd ∧
  (reactor_has_been_initialized_ hd = true → svs_ hd = true).
Proof.
  intros Hreach Hhd. unfold members in *.
  destruct (members_cases _ _ _ Hreach Hhd)
    as [[Hflag (pc & _ & Hmem)]|[_ (pc & Hpc & Hmem & _)]];
    unfold members in Hmem; destruct pc; simplify_eq/=; split_and!; congruence.
Qed.

(** X12: the only coroutine that cannot run its next statement is a
    teardown that waits for the initialization of its handle; the handle
    exists, and its [initialize_reactor] is spawned and can run. *)
Theorem only_a_waiting_teardown_is_blocked d c :
  reachable d → c ∈ coros d → coro_step c d = None →
  ∃ h ns hd pc, c = run_delete_reactor_data h ns del_at_wait ∧
    heap d !! h = Some hd ∧ reactor_has_been_initialized_ hd = false ∧
    run_initialize_reactor h pc ∈ coros d ∧
    is_Some (coro_step (run_initialize_reactor h pc) d).
Proof.
  intros Hreach Hc Hblocked.
  destruct (driver_reachable _ _ Hreach) as [_ (_ & _ & _ & Hrun & _)].
  destruct (members_reachable _ Hreach) as (_ & Hinit & _ & _).
  destruct c as [h pc|h ns pc]; simpl in Hblocked.
  - destruct (Hinit _ _ Hc) as (hd & Hhd & _).
    unfold initialize_reactor_step in Hblocked. rewrite Hhd in Hblocked. by destruct pc.
  - destruct (Hrun _ _ _ Hc) as [_ Htable]. unfold table_of in Htable.
    unfold delete_reactor_data_step in Hblocked.
    destruct (decide (pc = del_at_destroy_svs)) as [->|]; [done |].
    destruct (heap d !! h) as [hd|] eqn:Hhd; [|done].
    destruct pc; try done. simpl in Hblocked.
    destruct (reactor_has_been_initialized_ hd) eqn:Hflag; [done |].
    destruct (init_pending_reachable _ _ Hreach _ _ Hhd Hflag) as [pc Hpc].
    exists h, ns, hd, pc. split_and!; [done.. |].
    simpl. unfold initialize_reactor_step. rewrite Hhd. by destruct pc.
Qed.

(** X13: a handle in the live map is allocated, belongs to the table it
    is stored under and to no other, and is not being torn down; once
    initialized it has its stores, its reactor and its export link. *)
Theorem live_handles_are_whole d ns h :
  reachable d → reactor_data d !! ns = Some h →
  ∃ hd, heap d !! h = Some hd ∧ namespace_id_ hd = ns ∧
    (h ∉ deleting (coros d)) ∧
    (∀ ns', reactor_data d !! ns' = Some h → ns' = ns) ∧
    (reactor_has_been_initialized_ hd = true →
     members hd = (true, true, true, true)).
Proof.
  intros Hreach Hh.
  destruct (driver_reachable _ _ Hreach)
    as [(_ & _ & Hinj & Hdetached) (_ & Hlive & _)].
  pose proof (Hlive _ _ Hh) as Htable. unfold table_of in Htable.
  destruct (heap d !! h) as [hd|] eqn:Hhd; [|done]. injection Htable as Hns.
  assert (h ∉ deleting (coros d)) as Hout.
  { intros Hin. by apply (Hdetached _ Hin ns). }
  exists hd. split_and!; [done | done | done | by eauto |].
  intros Hflag.
  destruct (members_cases _ _ _ Hreach Hhd)
    as [[? _]|[_ (pc & _ & Hmem & Hwait)]]; [congruence |].
  by rewrite Hmem, (Hwait Hout).
Qed.

(** X14: the initialization of a handle can always be run to its end,
    whatever else has been spawned. *)
Theorem initialization_completes d h hd :
  reachable d → heap d !! h = Some hd →
  ∃ d', rtc step d d' ∧
    ∃ hd', heap d' !! h = Some hd' ∧ reactor_has_been_initialized_ hd' = true.
Proof.
  intros Hreach Hhd. destruct (reactor_has_been_initialized_ hd) eqn:Hflag.
  - exists d. split; [done |]. by exists hd.
  - destruct (init_pending_reachable _ _ Hreach _ _ Hhd Hflag) as [pc Hpc].
    destruct (initialize_reactor_runs try_construct_blueprint d h pc Hpc)
      as (d' & Hrun & Hdone & _);
      [by eexists |].
    by exists d'.
Qed.

(** *** A pass of [on_change] *)

(** The body of the loop, by what it finds. *)
Lemma on_change_table_outcome view ns meta d d' :
  on_change_table view ns meta d = Some d' →
  match reactor_data d !! ns, meta with
  | Some h, deleted =>
      d' = spawn_sometime (run_delete_reactor_data h ns del_at_wait)
             (set_reactor_data (delete ns) d)
  | None, deleted => d' = d
  | Some h, existing m =>
      if we_were_permanently_removed view
      then d' = spawn_sometime (run_delete_reactor_data h ns del_at_wait)
                  (set_reactor_data (delete ns) d)
      else ∃ w, match blueprint_for view m (driver_world d) with
                | None => d' = set_driver_world w d
                | Some bp =>
                    d' = update_handle h (λ x,
                      {| watchable := apply_atomic_op (op_closure_apply bp) (watchable x);
                         reactor_has_been_initialized_ := reactor_has_been_initialized_ x;
                         namespace_id_ := namespace_id_ x;
                         stores_lifetimer_ := stores_lifetimer_ x; svs_ := svs_ x;
                         reactor_ := reactor_ x;
                         directory_exporter_ := directory_exporter_ x |})
                      (set_driver_world w d)
                end
  | None, existing m =>
      ∃ w, match blueprint_for view m (driver_world d) with
           | None => d' = set_driver_world w d
           | Some bp =>
               d' = set_reactor_data (<[ns := next_handle d]>)
                      (spawn_sometime
                         (run_initialize_reactor (next_handle d) init_at_get_svs)
                         (set_heap (<[next_handle d := new_watchable_and_reactor ns bp]>)
                            (set_next_handle (S (next_handle d))
                               (set_driver_world w d))))
           end
  end.
Proof.
  unfold on_change_table, blueprint_for.
  destruct (reactor_data d !! ns) as [h|] eqn:Hh.
  - rewrite bool_decide_eq_true_2 by (by eexists). rewrite andb_true_r.
    destruct meta as [|m]; simpl; [by intros [= <-] |].
    destruct (we_were_permanently_removed view); simpl; [by intros [= <-] |].
    destruct (try_construct_blueprint _ _ _) as [bp w|w|]; [| | done].
    + cbv zeta. destruct (bool_decide (peers_roles bp !! get_me view = None)); simpl.
      * intros [= <-]. by exists w.
      * rewrite Hh. intros [= <-]. by exists w.
    + intros [= <-]. by exists w.
  - rewrite bool_decide_eq_false_2 by (by intros [? ?]). rewrite andb_false_r.
    destruct meta as [|m]; simpl; [by intros [= <-] |].
    destruct (try_construct_blueprint _ _ _) as [bp w|w|]; [| | done].
    + cbv zeta. destruct (bool_decide (peers_roles bp !! get_me view = None)); simpl.
      * intros [= <-]. by exists w.
      * rewrite Hh. intros [= <-]. exists w.
        unfold set_reactor_data, std_map_insert. simpl. by rewrite Hh.
    + intros [= <-]. by exists w.
Qed.

Lemma same_but_cell_trans hd1 hd2 hd3 :
  same_but_cell hd1 hd2 → same_but_cell hd2 hd3 → same_but_cell hd1 hd3.
Proof. intros (? & ? & ?) (? & ? & ?). split_and!; congruence. Qed.

Lemma pass_frame_refl d : pass_frame d d.
Proof.
  split_and!; [done | done | done | |].
  - exists []. by rewrite app_nil_r.
  - intros h hd Hhd. by exists hd.
Qed.

Lemma pass_frame_trans d1 d2 d3 : pass_frame d1 d2 → pass_frame d2 d3 → pass_frame d1 d3.
Proof.
  intros (Ht1 & Hv1 & Hn1 & (s1 & Hc1 & Hs1) & Hh1) (Ht2 & Hv2 & Hn2 & (s2 & Hc2 & Hs2) & Hh2).
  split_and!; [congruence | congruence | lia | |].
  - exists (s1 ++ s2). rewrite Hc2, Hc1, (assoc_L (++)). split; [done |].
    by apply Forall_app.
  - intros h hd (hd' & Hhd' & ?)%Hh1. destruct (Hh2 _ _ Hhd') as (hd'' & ? & ?).
    exists hd''. split; [done |]. by eapply same_but_cell_trans.
Qed.

Lemma on_change_table_frame view ns meta d d' :
  heap_below d → on_change_table view ns meta d = Some d' →
  heap_below d' ∧ pass_frame d d'.
Proof.
  intros Hbelow Hbody%on_change_table_outcome.
  assert (∀ w, heap_below (set_driver_world w d) ∧ pass_frame d (set_driver_world w d))
    as Hworld.
  { intros w. split; [done |]. split_and!; simpl; [done | done | done | |].
    - exists []. by rewrite app_nil_r.
    - intros h hd Hhd. by exists hd. }
  assert (∀ h, heap_below (spawn_sometime (run_delete_reactor_data h ns del_at_wait)
                             (set_reactor_data (delete ns) d)) ∧
               pass_frame d (spawn_sometime (run_delete_reactor_data h ns del_at_wait)
                               (set_reactor_data (delete ns) d))) as Hdetach.
  { intros h. split; [done |]. split_and!; simpl; [done | done | done | |].
    - eexists. split; [done |]. apply Forall_singleton. right. by eexists _, _.
    - intros h0 hd Hhd. by exists hd. }
  destruct (reactor_data d !! ns) as [h|] eqn:Hh, meta as [|m].
  - subst d'. apply Hdetach.
  - destruct (we_were_permanently_removed view); [subst d'; apply Hdetach |].
    destruct Hbody as [w Hbody].
    destruct (blueprint_for view m (driver_world d)) as [bp|]; subst d'; [|apply Hworld].
    split.
    + intros h0. simpl. rewrite lookup_alter_is_Some. apply Hbelow.
    + split_and!; simpl; [done | done | done | |].
      * exists []. by rewrite app_nil_r.
      * intros h0 hd Hhd. rewrite lookup_alter. destruct (decide (h = h0)) as [->|].
        -- rewrite Hhd. simpl. by eexists.
        -- by exists hd.
  - subst d'. split; [done | apply pass_frame_refl].
  - destruct Hbody as [w Hbody].
    destruct (blueprint_for view m (driver_world d)) as [bp|]; subst d'; [|apply Hworld].
    split.
    + intros h0. simpl. destruct (decide (h0 = next_handle d)) as [->|Hne]; [lia |].
      rewrite lookup_insert_ne by done. intros ?%Hbelow. lia.
    + split_and!; simpl; [done | done | lia | |].
      * eexists. split; [done |]. apply Forall_singleton. left. by eexists.
      * intros h0 hd Hhd. rewrite lookup_insert_ne; [by exists hd |].
        intros <-. assert (next_handle d < next_handle d); [|lia].
        apply Hbelow. by eexists.
Qed.

Lemma on_change_loop_frame view keys d d' :
  heap_below d → on_change_loop view keys d = Some d' →
  heap_below d' ∧ pass_frame d d'.
Proof.
  intros Hbelow Hrun. unfold on_change_loop in Hrun.
  eapply (for_each_preserves (λ a, heap_below a ∧ pass_frame d a));
    [split; [done | apply pass_frame_refl] | | exact Hrun].
  intros k a a' _ [Ha Hframe] Hbody. apply bind_Some in Hbody as (meta & _ & Hbody).
  destruct (on_change_table_frame _ _ _ _ _ Ha Hbody) as [? ?].
  split; [done | by eapply pass_frame_trans].
Qed.

Lemma reachable_heap_below d : reachable d → heap_below d.
Proof.
  intros [_ (Hheap & _)]%driver_reachable h Hh. apply Hheap.
  unfold table_of. by apply fmap_is_Some.
Qed.

(** X15: a pass of [on_change] runs no statement of a coroutine: it emits
    nothing, leaves the directory and every spawned coroutine as they are,
    frees no handle and changes nothing of a handle but its blueprint
    cell; what it adds to the spawned coroutines has not started. *)
Theorem on_change_only_schedules view d d' :
  reachable d → on_change view d = Some d' →
  trace d' = trace d ∧ watchable_var d' = watchable_var d ∧
  (∃ spawned, coros d' = coros d ++ spawned ∧ Forall just_spawned spawned) ∧
  (∀ h hd, heap d !! h = Some hd →
     ∃ hd', heap d' !! h = Some hd' ∧ same_but_cell hd hd').
Proof.
  intros Hbelow%reachable_heap_below Hrun.
  destruct (on_change_loop_frame _ _ _ _ Hbelow Hrun) as [_ (? & ? & _ & ? & ?)].
  done.
Qed.

(** The tables other than [ns] leave its entry and its handle alone. *)
Lemma on_change_loop_leaves view keys d d' ns :
  allocation_ok d → ns ∉ keys → on_change_loop view keys d = Some d' →
  allocation_ok d' ∧ reactor_data d' !! ns = reactor_data d !! ns ∧
  ∀ h, reactor_data d !! ns = Some h → heap d' !! h = heap d !! h.
Proof.
  intros Halloc Hns Hrun. unfold on_change_loop in Hrun.
  eapply (for_each_preserves (λ a,
    allocation_ok a ∧ reactor_data a !! ns = reactor_data d !! ns ∧
    ∀ h, reactor_data d !! ns = Some h → heap a !! h = heap d !! h));
    [by split_and! | | exact Hrun].
  intros k a a' Hk (Ha & Hentry & Hheap) Hbody.
  apply bind_Some in Hbody as (meta & _ & Hbody).
  assert (k ≠ ns) as Hne by (intros ->; done).
  destruct (allocation_on_change_table _ _ _ _ _ _ Ha Hbody) as (Ha' & _ & _ & Hframe & _).
  split_and!; [done | by rewrite Hframe | ].
  intros h Hh. rewrite <-(Hheap _ Hh). rewrite <-Hentry in Hh.
  destruct Ha as (Hdata & _ & Hinj & _).
  apply on_change_table_cases in Hbody
    as [(h' & _ & _ & ->)|[->|[[w ->]|[(bp & w & _ & ->)|(bp & w & h' & Hh' & ->)]]]];
    simpl; [done | done | done | |].
  - apply lookup_insert_ne. specialize (Hdata _ _ Hh). lia.
  - apply lookup_alter_ne. intros ->. apply Hne. by eapply Hinj.
Qed.

Lemma on_change_split view d d' ns meta :
  on_change view d = Some d' → namespaces view !! ns = Some meta →
  ∃ pre post d1 d2, (ns ∉ pre) ∧ (ns ∉ post) ∧
    on_change_loop view pre d = Some d1 ∧
    on_change_table view ns meta d1 = Some d2 ∧
    on_change_loop view post d2 = Some d'.
Proof.
  intros Hpass Hmeta. unfold on_change, on_change_loop in Hpass.
  pose proof (NoDup_std_map_keys (namespaces view)) as Hnodup.
  assert (ns ∈ std_map_keys (namespaces view)) as Hns.
  { apply elem_of_std_map_keys. by eexists. }
  apply list_elem_of_split in Hns as (pre & post & Hkeys).
  rewrite Hkeys in Hpass, Hnodup.
  apply NoDup_middle in Hnodup as (_ & Hpre & Hpost).
  rewrite for_each_app in Hpass. apply bind_Some in Hpass as (d1 & Hrun1 & Hpass).
  simpl in Hpass. rewrite Hmeta in Hpass. simpl in Hpass.
  apply bind_Some in Hpass as (d2 & Hrun2 & Hrun3).
  by exists pre, post, d1, d2.
Qed.


Lemma on_change_creates view d d' ns m :
  reachable d → on_change view d = Some d' →
  namespaces view !! ns = Some (existing m) → reactor_data d !! ns = None →
  ∃ w, match blueprint_for view m w with
       | None => reactor_data d' !! ns = None
       | Some bp =>
           ∃ h, reactor_data d' !! ns = Some h ∧
             next_handle d ≤ h < next_handle d' ∧ heap d !! h = None ∧
             heap d' !! h = Some (new_watchable_and_reactor ns bp) ∧
             run_initialize_reactor h init_at_get_svs ∈ coros d'
       end.
Proof.
  intros Hreach Hpass Hmeta Hnone.
  pose proof (reachable_heap_below _ Hreach) as Hbelow.
  destruct (driver_reachable _ _ Hreach) as [Halloc _].
  destruct (on_change_split _ _ _ _ _ Hpass Hmeta)
    as (pre & post & d1 & d2 & Hpre & Hpost & Hrun1 & Hrun2 & Hrun3).
  destruct (on_change_loop_leaves _ _ _ _ _ Halloc Hpre Hrun1) as (Halloc1 & Hnone1 & _).
  rewrite Hnone in Hnone1.
  destruct (on_change_loop_frame _ _ _ _ Hbelow Hrun1) as (Hbelow1 & _ & _ & Hnext1 & _).
  pose proof (allocation_on_change_table _ _ _ _ _ _ Halloc1 Hrun2) as (Halloc2 & _).
  destruct (on_change_table_frame _ _ _ _ _ Hbelow1 Hrun2) as [Hbelow2 _].
  destruct (on_change_loop_leaves _ _ _ _ _ Halloc2 Hpost Hrun3) as (_ & Hentry' & Hheap').
  destruct (on_change_loop_frame _ _ _ _ Hbelow2 Hrun3)
    as (_ & _ & _ & Hnext' & (spawned & Hcoros' & _) & _).
  apply on_change_table_outcome in Hrun2. rewrite Hnone1 in Hrun2.
  destruct Hrun2 as [w Hrun2]. exists (driver_world d1).
  destruct (blueprint_for view m (driver_world d1)) as [bp|]; subst d2; simpl in *.
  - exists (next_handle d1). rewrite lookup_insert_eq in Hentry'.
    specialize (Hheap' _ (lookup_insert_eq _ _ _)). rewrite lookup_insert_eq in Hheap'.
    split_and!; [done | lia | lia | | done |].
    + destruct (heap d !! next_handle d1) as [x|] eqn:Hx; [|done].
      assert (next_handle d1 < next_handle d); [|lia]. apply Hbelow. by eexists.
    + rewrite Hcoros', !elem_of_app. left. right. left.
  - by rewrite Hentry'.
Qed.


(** *** The constructor *)

(** A pass over tables that have no handle spawns no teardown. *)
Lemma first_pass_spawns_no_teardown view keys :
  ∀ d d', NoDup keys → (∀ ns, ns ∈ keys → reactor_data d !! ns = None) →
    on_change_loop view keys d = Some d' →
    deleting (coros d') = deleting (coros d).
Proof.
  induction keys as [|k keys IH]; intros d d' Hnodup Hfresh Hrun.
  - by injection Hrun as <-.
  - apply NoDup_cons in Hnodup as [Hk Hnodup].
    unfold on_change_loop in Hrun. simpl in Hrun.
    apply bind_Some in Hrun as (d1 & Hbody & Hrun).
    apply bind_Some in Hbody as (meta & Hmeta & Hbody).
    apply on_change_table_outcome in Hbody.
    rewrite (Hfresh k) in Hbody by left.
    assert (deleting (coros d1) = deleting (coros d) ∧
            ∀ ns, ns ∈ keys → reactor_data d1 !! ns = None) as [Hdel Hfresh1].
    { assert (∀ ns, ns ∈ keys → reactor_data d !! ns = None) as Hrest.
      { intros ns Hns. apply Hfresh. by right. }
      destruct meta as [|m]; [by subst d1 |].
      destruct Hbody as [w Hbody].
      destruct (blueprint_for view m (driver_world d)) as [bp|]; subst d1; simpl;
        [|done].
      split; [rewrite deleting_app; simpl; by rewrite app_nil_r |].
      intros ns Hns. rewrite lookup_insert_ne; [by apply Hrest |]. by intros ->. }
    rewrite <-Hdel. by apply IH.
Qed.

(** X18: the constructor starts no reactor: when it returns nothing has
    been emitted, the directory is empty and no teardown is spawned; every
    table in the live map is a configured one for which a blueprint with
    the local peer was constructed, its handle holds that blueprint, and
    its initialization is spawned. *)
Theorem reactor_driver_new_starts_nothing view w d :
  reactor_driver_new try_construct_blueprint view w = Some d →
  trace d = [] ∧ watchable_var d = ∅ ∧ deleting (coros d) = [] ∧
  ∀ ns h, reactor_data d !! ns = Some h →
    ∃ m w0 bp, namespaces view !! ns = Some (existing m) ∧
      blueprint_for view m w0 = Some bp ∧
      heap d !! h = Some (new_watchable_and_reactor ns bp) ∧
      run_initialize_reactor h init_at_get_svs ∈ coros d.
Proof.
  unfold reactor_driver_new. intros Hrun.
  assert (reachable (initial_driver w)) as Hreach by (by exists w).
  destruct (on_change_loop_frame _ _ _ _ (reachable_heap_below _ Hreach) Hrun)
    as (_ & Htrace & Hvar & _).
  split_and!; [done | done | |].
  - apply (first_pass_spawns_no_teardown view (std_map_keys (namespaces view))
             (initial_driver w)); [apply NoDup_std_map_keys | done | done].
  - intros ns h Hh.
    destruct (namespaces view !! ns) as [meta|] eqn:Hmeta.
    + destruct meta as [|m].
      * destruct (on_change_split _ _ _ _ _ Hrun Hmeta)
          as (pre & post & d1 & d2 & Hpre & Hpost & Hrun1 & Hrun2 & Hrun3).
        destruct (on_change_loop_leaves _ _ _ _ _ (allocation_initial w) Hpre Hrun1)
          as (Halloc1 & Hentry1 & _).
        simpl in Hentry1. rewrite lookup_empty in Hentry1.
        pose proof (allocation_on_change_table _ _ _ _ _ _ Halloc1 Hrun2) as (Halloc2 & _).
        apply on_change_table_outcome in Hrun2. rewrite Hentry1 in Hrun2. subst d2.
        destruct (on_change_loop_leaves _ _ _ _ _ Halloc2 Hpost Hrun3) as (_ & Hentry' & _).
        congruence.
      * destruct (on_change_creates _ _ _ _ _ Hreach Hrun Hmeta) as [w0 Hcreated];
          [done |].
        exists m, w0.
        destruct (blueprint_for view m w0) as [bp|];
          [|rewrite Hcreated in Hh; discriminate Hh].
        destruct Hcreated as (h' & Hh' & _ & _ & ? & ?). exists bp.
        pose proof (eq_trans (eq_sym Hh') Hh) as [= ->]. done.
    + destruct (on_change_loop_leaves view (std_map_keys (namespaces view))
                  (initial_driver w) d ns (allocation_initial w)) as (_ & Hentry & _);
        [intros [x Hx]%elem_of_std_map_keys;
         discriminate (eq_trans (eq_sym Hx) Hmeta) | done |].
      simpl in Hentry. rewrite lookup_empty in Hentry. congruence.
Qed.

End driver_members.

(** ** The blueprint cell *)

(** X19: pushing the same plan twice is pushing it once, and of two
    plans pushed one after the other the cell holds the second; a push
    notifies the subscribers at most once. *)
Theorem set_blueprint_twice {region_t : Type} `{Countable region_t}
    (p q : blueprint_t (region_t := region_t))
    (cell : watchable_variable_t (blueprint_t (region_t := region_t))) :
  apply_atomic_op (op_closure_apply p) (apply_atomic_op (op_closure_apply p) cell) =
    apply_atomic_op (op_closure_apply p) cell ∧
  value (apply_atomic_op (op_closure_apply q) (apply_atomic_op (op_closure_apply p) cell))
    = q ∧
  publications cell ≤ publications (apply_atomic_op (op_closure_apply p) cell)
    ≤ S (publications cell).
Proof.
  destruct cell as [held n]. unfold apply_atomic_op, op_closure_apply. simpl.
  split_and!.
  - destruct (bool_decide (held ≠ p)) eqn:Hne; simpl.
    + by rewrite bool_decide_eq_false_2 by (by intros []).
    + by rewrite Hne.
  - destruct (bool_decide (held ≠ p)) eqn:Hne; simpl.
    + destruct (bool_decide (p ≠ q)) eqn:Hpq; simpl; [done |].
      apply bool_decide_eq_false in Hpq. by apply dec_stable in Hpq.
    + destruct (bool_decide (held ≠ q)) eqn:Hq; simpl; [done |].
      apply bool_decide_eq_false in Hq. by apply dec_stable in Hq.
  - destruct (bool_decide (held ≠ p)); simpl; lia.
  - destruct (bool_decide (held ≠ p)); simpl; lia.
Qed.
(** ** The driver with [construct_blueprint] *)

Lemma for_each_total {A St} (body : A → St → option St) (l : list A) (s : St) :
  (∀ x a, x ∈ l → ∃ a', body x a = Some a') → ∃ s', for_each body l s = Some s'.
Proof.
  revert s. induction l as [|x l IH]; intros s Hbody; simpl; [by eexists |].
  destruct (Hbody x s) as [a ->]; [left |]. simpl. apply IH.
  intros y c Hy. apply Hbody. by right.
Qed.

Section the_driver_facts.
Context {key_range_t region_t : Type} `{Countable region_t}.
Context (hash_region_t : key_range_t → region_t) (uuid_source : nat → uuid_u).
Implicit Types (d : reactor_driver_t (region_t := region_t)).
Implicit Types (view : cluster_view_t (key_range_t := key_range_t)).

(** X20: a pass of [on_change] returns, whatever the driver holds and
    whatever the topology is, when every configured table has as many
    shard entries as its scheme has shards and the ranges of the scheme
    are pairwise distinct: no guarantee of the blueprint construction
    fails. *)
Theorem on_change_returns view d :
  (∀ ns m, namespaces view !! ns = Some (existing m) →
     length (shards (config (replication_info m))) =
       num_shards (shard_scheme (replication_info m)) ∧
     NoDup (hash_region_t <$> shard_ranges (shard_scheme (replication_info m)))) →
  ∃ d', reactor_driver_on_change hash_region_t uuid_source view d = Some d'.
Proof.
  intros Hvalid. unfold reactor_driver_on_change, on_change, on_change_loop.
  apply for_each_total. intros ns a Hns. cbv beta.
  destruct (namespaces view !! ns) as [meta|] eqn:Hmeta.
  2:{ apply elem_of_std_map_keys in Hns as [x Hx].
      discriminate (eq_trans (eq_sym Hx) Hmeta). }
  simpl. unfold on_change_table.
  destruct ((is_deleted meta || we_were_permanently_removed view)
            && bool_decide (is_Some (reactor_data a !! ns))) eqn:Hdetach.
  - apply andb_true_iff in Hdetach as [_ [h Hh]%bool_decide_eq_true].
    rewrite Hh. eexists; reflexivity.
  - destruct meta as [|m]; [eexists; reflexivity |].
    destruct (Hvalid _ _ Hmeta) as [Hlen Hdistinct].
    destruct (construct_blueprint_locals_spec hash_region_t uuid_source
                (replication_info m) (server_name_client view) Hlen Hdistinct
                (driver_world a)) as (b & _ & Hrun & _).
    unfold call_construct_blueprint. rewrite Hrun. cbv zeta.
    destruct (bool_decide (peers_roles _ !! _ = None)); [eexists; reflexivity |].
    simpl. destruct (reactor_data a !! ns); eexists; reflexivity.
Qed.

End the_driver_facts.

(** ** The end of a table *)

Section driver_lifecycle.
Context {key_range_t region_t : Type} `{Countable region_t}.
Context (try_construct_blueprint :
  table_replication_info_t (key_range_t := key_range_t) → server_name_client_t →
  world_t → try_construct_t (region_t := region_t)).
Implicit Types (d : reactor_driver_t (region_t := region_t)).
Implicit Types (view : cluster_view_t (key_range_t := key_range_t)).

Local Abbreviation on_change_table := (on_change_table try_construct_blueprint).
Local Abbreviation on_change_loop := (on_change_loop try_construct_blueprint).
Local Abbreviation on_change := (on_change try_construct_blueprint).
Local Abbreviation step := (step try_construct_blueprint).
Local Abbreviation reachable := (reachable try_construct_blueprint).

(** What a pass makes of a deleted table. *)
Lemma on_change_deleted view d d' ns :
  reachable d → on_change view d = Some d' → namespaces view !! ns = Some deleted →
  reactor_data d' !! ns = None ∧
  ∀ h, reactor_data d !! ns = Some h →
    run_delete_reactor_data h ns del_at_wait ∈ coros d'.
Proof.
  intros Hreach Hpass Hmeta.
  pose proof (reachable_heap_below _ _ Hreach) as Hbelow.
  destruct (driver_reachable _ _ Hreach) as [Halloc _].
  destruct (on_change_split _ _ _ _ _ _ Hpass Hmeta)
    as (pre & post & d1 & d2 & Hpre & Hpost & Hrun1 & Hrun2 & Hrun3).
  destruct (on_change_loop_leaves _ _ _ _ _ _ Halloc Hpre Hrun1) as (Halloc1 & Hentry1 & _).
  destruct (on_change_loop_frame _ _ _ _ _ Hbelow Hrun1) as (Hbelow1 & _).
  pose proof (allocation_on_change_table _ _ _ _ _ _ Halloc1 Hrun2) as (Halloc2 & _).
  destruct (on_change_table_frame _ _ _ _ _ _ Hbelow1 Hrun2) as [Hbelow2 _].
  destruct (on_change_loop_leaves _ _ _ _ _ _ Halloc2 Hpost Hrun3) as (_ & Hentry' & _).
  destruct (on_change_loop_frame _ _ _ _ _ Hbelow2 Hrun3)
    as (_ & _ & _ & _ & (spawned & Hcoros' & _) & _).
  apply on_change_table_outcome in Hrun2. rewrite Hentry1 in Hrun2.
  destruct (reactor_data d !! ns) as [h|] eqn:Hh; subst d2; simpl in *.
  - rewrite lookup_delete_eq in Hentry'. split; [done |].
    intros h' [= <-]. rewrite Hcoros', !elem_of_app. left. right. left.
  - split; [by rewrite Hentry', Hentry1 | done].
Qed.

(** X21: after a pass of [on_change] no table that the metadata marks as
    deleted is in the live map, whether it had a handle or not. *)
Theorem deleted_tables_are_not_live view d d' ns :
  reachable d → on_change view d = Some d' → namespaces view !! ns = Some deleted →
  reactor_data d' !! ns = None.
Proof. intros Hreach Hpass Hmeta. by destruct (on_change_deleted _ _ _ _ Hreach Hpass Hmeta). Qed.

(** X22: deleting a table tears its handle down: after the pass that
    sees the deletion the driver can go on to a state where the handle is
    freed, its teardown has run in full (export link, reactor, directory
    key, storage) and is over, and the handle is under no table. *)
Theorem deleted_table_is_torn_down view d d' ns h :
  reachable d → on_change view d = Some d' → namespaces view !! ns = Some deleted →
  reactor_data d !! ns = Some h →
  ∃ d'', rtc step d' d'' ∧ heap d'' !! h = None ∧
    (h ∉ deleting (coros d'')) ∧
    teardown_trace h (trace d'') = teardown_sequence h ns ∧
    ∀ ns', reactor_data d'' !! ns' ≠ Some h.
Proof.
  intros Hreach Hpass Hmeta Hh.
  destruct (on_change_deleted _ _ _ _ Hreach Hpass Hmeta) as [_ Hspawned].
  specialize (Hspawned _ Hh).
  assert (reachable d') as Hreach' by (eapply reachable_step; [done | by econstructor]).
  destruct (delete_reactor_data_runs _ _ _ _ _ Hreach' Hspawned)
    as (d'' & Hrun & Hover & Htrace).
  assert (reachable d'') as Hreach'' by (by eapply reachable_steps).
  destruct (driver_reachable _ _ Hreach'') as [_ (_ & Hlive & _ & _ & Hrest)].
  assert (table_of d'' h = None) as Hgone.
  { specialize (Hrest _ Hover). destruct (table_of d'' h); [|done].
    by rewrite Htrace in Hrest. }
  exists d''. split_and!; [done | | done | done |].
  - unfold table_of in Hgone. by destruct (heap d'' !! h).
  - intros ns' Hns'. apply Hlive in Hns'. congruence.
Qed.

End driver_lifecycle.
(** ** The further properties at the example cluster *)

Lemma directory_views_disjoint_witness :
  namespace_id_ (example_handle 7%N) ≠ namespace_id_ (example_handle 8%N) ∧
  is_Some (key_1_to_2 (example_handle 7%N) (PeerId 101%N, 7%N)) ∧
  key_1_to_2 (example_handle 8%N) (PeerId 101%N, 7%N) = None.
Proof.
  assert (namespace_id_ (example_handle 7%N) ≠ namespace_id_ (example_handle 8%N))
    as Hne by (simpl; lia).
  assert (is_Some (key_1_to_2 (example_handle 7%N) (PeerId 101%N, 7%N)))
    as Hsome by (by eexists).
  split; [exact Hne |]. split; [exact Hsome |].
  exact (directory_views_disjoint (example_handle 7%N) (example_handle 8%N)
           (PeerId 101%N, 7%N) Hne Hsome).
Defined.

Lemma roles_come_from_the_configuration_witness :
  ∃ bp w',
    construct_blueprint id example_uuids example_info example_client example_world
      = Some (bp, w') ∧
    ∃ b, construct_blueprint_locals id example_uuids example_info example_client
           example_world = Some b ∧
      blueprint b = bp ∧ world b = w' ∧
      ∀ p r x, role_of bp p r = Some x →
        role_has_reason id example_uuids example_info example_client example_world
          b p r x.
Proof.
  destruct (construct_blueprint id example_uuids example_info example_client
              example_world) as [[bp w']|] eqn:Hrun; [|vm_compute in Hrun; discriminate Hrun].
  exists bp, w'. split; [reflexivity |].
  exact (roles_come_from_the_configuration id example_uuids example_info example_client
           example_world bp w' Hrun).
Defined.

Lemma blueprint_peers_live_or_placeholders_witness :
  ∃ bp w',
    construct_blueprint id example_uuids example_info example_client example_world
      = Some (bp, w') ∧
    uuids_drawn example_world ≤ uuids_drawn w' ∧
    ∀ p, is_Some (peers_roles bp !! p) →
      live_peer (server_id_to_peer_id_map_at example_client (map_reads example_world)) p ∨
      placeholder_between example_uuids example_world w' p.
Proof.
  destruct (construct_blueprint id example_uuids example_info example_client
              example_world) as [[bp w']|] eqn:Hrun; [|vm_compute in Hrun; discriminate Hrun].
  exists bp, w'. split; [reflexivity |].
  exact (blueprint_peers_live_or_placeholders id example_uuids example_info example_client
           example_world bp w' Hrun).
Defined.

Lemma connected_cluster_needs_no_placeholder_witness :
  (∀ i shard, shards (config connected_info) !! i = Some shard →
     is_Some (get_name_for_server_id example_client (director shard)) ∧
     is_Some (server_id_to_peer_id_map_at example_client (map_reads example_world)
                !! director shard)) ∧
  (∀ i shard server, shards (config connected_info) !! i = Some shard →
     server ∈ replicas shard →
     is_Some (get_name_for_server_id example_client server) →
     is_Some (server_id_to_peer_id_map_at example_client (map_reads example_world)
                !! server)) ∧
  (∀ server,
     is_Some (server_id_to_peer_id_map_at example_client (S (map_reads example_world))
                !! server) →
     is_Some (server_id_to_peer_id_map_at example_client (map_reads example_world)
                !! server)) ∧
  ∃ bp w',
    construct_blueprint id example_uuids connected_info example_client example_world
      = Some (bp, w') ∧
    uuids_drawn w' = uuids_drawn example_world ∧
    ∀ p, is_Some (peers_roles bp !! p) →
      live_peer (server_id_to_peer_id_map_at example_client (map_reads example_world)) p.
Proof.
  assert (∀ i shard, shards (config connected_info) !! i = Some shard →
     is_Some (get_name_for_server_id example_client (director shard)) ∧
     is_Some (server_id_to_peer_id_map_at example_client (map_reads example_world)
                !! director shard)) as Hdirectors.
  { intros [|[|i]] shard [= <-]; split; by eexists. }
  assert (∀ i shard server, shards (config connected_info) !! i = Some shard →
     server ∈ replicas shard →
     is_Some (get_name_for_server_id example_client server) →
     is_Some (server_id_to_peer_id_map_at example_client (map_reads example_world)
                !! server)) as Hreplicas.
  { intros [|[|i]] shard server [= <-]; simpl;
      intros [->%elem_of_singleton| ->%elem_of_singleton]%elem_of_union _; by eexists. }
  assert (∀ server,
     is_Some (server_id_to_peer_id_map_at example_client (S (map_reads example_world))
                !! server) →
     is_Some (server_id_to_peer_id_map_at example_client (map_reads example_world)
                !! server)) as Hknown by (intros server Hserver; exact Hserver).
  split; [exact Hdirectors |]. split; [exact Hreplicas |]. split; [exact Hknown |].
  destruct (construct_blueprint id example_uuids connected_info example_client
              example_world) as [[bp w']|] eqn:Hrun; [|vm_compute in Hrun; discriminate Hrun].
  exists bp, w'. split; [reflexivity |].
  exact (connected_cluster_needs_no_placeholder id example_uuids connected_info
           example_client example_world bp w' Hdirectors Hreplicas Hknown Hrun).
Defined.

Lemma construct_blueprint_without_shards_witness :
  length (shards (config empty_info)) = num_shards (shard_scheme empty_info) ∧
  shards (config empty_info) = [] ∧
  ∃ b, construct_blueprint_locals id example_uuids empty_info example_client
         example_world = Some b ∧
    construct_blueprint id example_uuids empty_info example_client example_world =
      Some (blueprint b, world b) ∧
    (∀ p roles, peers_roles (blueprint b) !! p = Some roles → roles = ∅) ∧
    (∀ p, is_Some (peers_roles (blueprint b) !! p) ↔
       ∃ server,
         is_Some (server_id_to_peer_id_map_at example_client
                    (S (map_reads example_world)) !! server) ∧
         server_id_to_peer_id_map (trans b) !! server = Some p).
Proof.
  split; [reflexivity |]. split; [reflexivity |].
  exact (construct_blueprint_without_shards id example_uuids empty_info example_client
           example_world eq_refl eq_refl).
Defined.

Lemma members_respect_their_dependencies_witness :
  reachable example_construct example_started ∧
  heap example_started !! 0 = Some example_started_handle ∧
  (directory_exporter_ example_started_handle = true →
   reactor_ example_started_handle = true) ∧
  (reactor_ example_started_handle = true → svs_ example_started_handle = true) ∧
  stores_lifetimer_ example_started_handle = svs_ example_started_handle ∧
  (reactor_has_been_initialized_ example_started_handle = true →
   svs_ example_started_handle = true).
Proof.
  assert (heap example_started !! 0 = Some example_started_handle) as Hhandle.
  { vm_compute. reflexivity. }
  split; [exact example_started_reachable |]. split; [exact Hhandle |].
  exact (members_respect_their_dependencies example_construct example_started 0
           example_started_handle example_started_reachable Hhandle).
Defined.

Lemma only_a_waiting_teardown_is_blocked_witness :
  reachable example_construct example_detached ∧
  run_delete_reactor_data 0 7%N del_at_wait ∈ coros example_detached ∧
  coro_step (run_delete_reactor_data 0 7%N del_at_wait) example_detached = None ∧
  ∃ h ns hd pc,
    run_delete_reactor_data 0 7%N del_at_wait = run_delete_reactor_data h ns del_at_wait ∧
    heap example_detached !! h = Some hd ∧ reactor_has_been_initialized_ hd = false ∧
    run_initialize_reactor h pc ∈ coros example_detached ∧
    is_Some (coro_step (run_initialize_reactor h pc) example_detached).
Proof.
  assert (run_delete_reactor_data 0 7%N del_at_wait ∈ coros example_detached) as Hin.
  { apply (bool_decide_unpack _). vm_compute. exact I. }
  assert (coro_step (run_delete_reactor_data 0 7%N del_at_wait) example_detached = None)
    as Hblocked by (vm_compute; reflexivity).
  split; [exact example_detached_reachable |]. split; [exact Hin |].
  split; [exact Hblocked |].
  exact (only_a_waiting_teardown_is_blocked example_construct example_detached
           (run_delete_reactor_data 0 7%N del_at_wait)
           example_detached_reachable Hin Hblocked).
Defined.

Lemma live_handles_are_whole_witness :
  reachable example_construct example_started ∧
  reactor_data example_started !! 7%N = Some 0 ∧
  ∃ hd, heap example_started !! 0 = Some hd ∧ namespace_id_ hd = 7%N ∧
    (0 ∉ deleting (coros example_started)) ∧
    (∀ ns', reactor_data example_started !! ns' = Some 0 → ns' = 7%N) ∧
    (reactor_has_been_initialized_ hd = true →
     members hd = (true, true, true, true)).
Proof.
  assert (reactor_data example_started !! 7%N = Some 0) as Hlive.
  { vm_compute. reflexivity. }
  split; [exact example_started_reachable |]. split; [exact Hlive |].
  exact (live_handles_are_whole example_construct example_started 7%N 0
           example_started_reachable Hlive).
Defined.

Lemma initialization_completes_witness :
  reachable example_construct example_started ∧
  heap example_started !! 0 = Some example_started_handle ∧
  ∃ d', rtc (step example_construct) example_started d' ∧
    ∃ hd', heap d' !! 0 = Some hd' ∧ reactor_has_been_initialized_ hd' = true.
Proof.
  assert (heap example_started !! 0 = Some example_started_handle) as Hhandle.
  { vm_compute. reflexivity. }
  split; [exact example_started_reachable |]. split; [exact Hhandle |].
  exact (initialization_completes example_construct example_started 0
           example_started_handle example_started_reachable Hhandle).
Defined.

Lemma on_change_only_schedules_witness :
  reachable example_construct example_started ∧
  on_change example_construct example_view_deleted example_started =
    Some example_detached ∧
  trace example_detached = trace example_started ∧
  watchable_var example_detached = watchable_var example_started ∧
  (∃ spawned, coros example_detached = coros example_started ++ spawned ∧
     Forall just_spawned spawned) ∧
  (∀ h hd, heap example_started !! h = Some hd →
     ∃ hd', heap example_detached !! h = Some hd' ∧ same_but_cell hd hd').
Proof.
  assert (on_change example_construct example_view_deleted example_started =
            Some example_detached) as Hpass by (vm_compute; reflexivity).
  split; [exact example_started_reachable |]. split; [exact Hpass |].
  exact (on_change_only_schedules example_construct example_view_deleted
           example_started example_detached example_started_reachable Hpass).
Defined.




Lemma reactor_driver_new_starts_nothing_witness :
  reactor_driver_new example_construct example_view example_world =
    Some example_constructed ∧
  trace example_constructed = [] ∧ watchable_var example_constructed = ∅ ∧
  deleting (coros example_constructed) = [] ∧
  ∀ ns h, reactor_data example_constructed !! ns = Some h →
    ∃ m w0 bp, namespaces example_view !! ns = Some (existing m) ∧
      blueprint_for example_construct example_view m w0 = Some bp ∧
      heap example_constructed !! h = Some (new_watchable_and_reactor ns bp) ∧
      run_initialize_reactor h init_at_get_svs ∈ coros example_constructed.
Proof.
  assert (reactor_driver_new example_construct example_view example_world =
            Some example_constructed) as Hnew by (vm_compute; reflexivity).
  split; [exact Hnew |].
  exact (reactor_driver_new_starts_nothing example_construct example_view example_world
           example_constructed Hnew).
Defined.

Lemma on_change_returns_witness :
  (∀ ns m, namespaces example_view !! ns = Some (existing m) →
     length (shards (config (replication_info m))) =
       num_shards (shard_scheme (replication_info m)) ∧
     NoDup (id <$> shard_ranges (shard_scheme (replication_info m)))) ∧
  ∃ d', reactor_driver_on_change id example_uuids example_view example_started = Some d'.
Proof.
  assert (∀ ns m, namespaces example_view !! ns = Some (existing m) →
     length (shards (config (replication_info m))) =
       num_shards (shard_scheme (replication_info m)) ∧
     NoDup (id <$> shard_ranges (shard_scheme (replication_info m)))) as Hvalid.
  { intros ns m Hm. unfold example_view in Hm. simpl in Hm.
    apply lookup_singleton_Some in Hm as [_ [= <-]]. split; [reflexivity |].
    apply (bool_decide_unpack _). vm_compute. exact I. }
  split; [exact Hvalid |].
  exact (on_change_returns id example_uuids example_view example_started Hvalid).
Defined.

Lemma deleted_tables_are_not_live_witness :
  reachable example_construct example_started ∧
  on_change example_construct example_view_deleted example_started =
    Some example_detached ∧
  namespaces example_view_deleted !! 7%N = Some deleted ∧
  reactor_data example_detached !! 7%N = None.
Proof.
  assert (on_change example_construct example_view_deleted example_started =
            Some example_detached) as Hpass by (vm_compute; reflexivity).
  assert (namespaces example_view_deleted !! 7%N = Some deleted) as Hmeta.
  { vm_compute. reflexivity. }
  split; [exact example_started_reachable |]. split; [exact Hpass |].
  split; [exact Hmeta |].
  exact (deleted_tables_are_not_live example_construct example_view_deleted
           example_started example_detached 7%N example_started_reachable Hpass Hmeta).
Defined.

Lemma deleted_table_is_torn_down_witness :
  reachable example_construct example_started ∧
  on_change example_construct example_view_deleted example_started =
    Some example_detached ∧
  namespaces example_view_deleted !! 7%N = Some deleted ∧
  reactor_data example_started !! 7%N = Some 0 ∧
  ∃ d'', rtc (step example_construct) example_detached d'' ∧ heap d'' !! 0 = None ∧
    (0 ∉ deleting (coros d'')) ∧
    teardown_trace 0 (trace d'') = teardown_sequence 0 7%N ∧
    ∀ ns', reactor_data d'' !! ns' ≠ Some 0.
Proof.
  assert (on_change example_construct example_view_deleted example_started =
            Some example_detached) as Hpass by (vm_compute; reflexivity).
  assert (namespaces example_view_deleted !! 7%N = Some deleted) as Hmeta.
  { vm_compute. reflexivity. }
  assert (reactor_data example_started !! 7%N = Some 0) as Hlive.
  { vm_compute. reflexivity. }
  split; [exact example_started_reachable |]. split; [exact Hpass |].
  split; [exact Hmeta |]. split; [exact Hlive |].
  exact (deleted_table_is_torn_down example_construct example_view_deleted
           example_started example_detached 7%N 0 example_started_reachable Hpass
           Hmeta Hlive).
Defined.
